(** * Geohash grid: encode, decode, bounds and neighbours

    A shallow embedding of [latlon-geohash.js] (the base-16 variant of the
    geohash over the rectangle latitude 6..36, longitude 68..98) and the
    properties its specification states about it.

    JavaScript values are modelled as follows.
    - A finite Number is the rational it denotes ([Q]).  Every arithmetic
      operation is the exact operation followed by [round64], the rounding
      of IEEE 754 binary64 (nearest value with a 53-bit significand, ties to
      even).  [round64] has no exponent range: the coordinates that it
      rounds are 0 or lie between 2^-60 and 2^8, and the integers of
      [parseInt] become infinite from 2^1024 on in [integral_of_Z].
    - A Number that may be NaN or infinite is a [number].
    - A Number produced by [parseInt] is integral and is an [integral].
    - A String is a [string] of ASCII characters.
    - A call completes normally, throws, or does not terminate
      ([outcome]). *)

From Stdlib Require Import ZArith QArith Qround Qabs Qpower Qreduction.
From Stdlib Require Import String Ascii List Bool Lia Lqa.
From Stdlib Require Import Floats.SpecFloat.
Import ListNotations.

Open Scope string_scope.
Open Scope Z_scope.

(** ** JavaScript primitives *)

Module JS.

Inductive exn : Type :=
| Error (message : string)
| RangeError (message : string).

Inductive outcome (A : Type) : Type :=
| Return (a : A)
| Throw (e : exn)
| Diverge.

Arguments Return {A} a.
Arguments Throw {A} e.
Arguments Diverge {A}.

Definition bind {A B : Type} (m : outcome A) (k : A -> outcome B) : outcome B :=
  match m with
  | Return a => k a
  | Throw e => Throw e
  | Diverge => Diverge
  end.

(** *** Numbers *)

Inductive number : Type :=
| NaN
| Inf (negative : bool)
| Fin (q : Q).

Definition isNaN (x : number) : bool :=
  match x with NaN => true | _ => false end.

(** [x > y] for a finite [y]. *)
Definition greater (x : number) (y : Q) : bool :=
  match x with
  | NaN => false
  | Inf negative => negb negative
  | Fin q => negb (Qle_bool q y)
  end.

(** [y < x] for a finite [y]: the same comparison read from the left. *)
Definition less (y : Q) (x : number) : bool := greater x y.

(** [y == x] for a finite [y]. *)
Definition equal (y : Q) (x : number) : bool :=
  match x with
  | Fin q => Qeq_bool y q
  | _ => false
  end.

(** floor (log2 q) for a positive rational. *)
Definition Qlog2 (q : Q) : Z :=
  let e0 := Z.log2 (Qnum q) - Z.log2 (Zpos (Qden q)) in
  if Qle_bool (2 ^ e0) q then e0 else e0 - 1.

(** Nearest integer, ties to the even one. *)
Definition rne (x : Q) : Z :=
  let f := Qfloor x in
  match (x - inject_Z f ?= 1 # 2)%Q with
  | Lt => f
  | Gt => f + 1
  | Eq => if Z.even f then f else f + 1
  end.

(** Rounding to binary64: scale the value so that its magnitude lies in
    [2^52, 2^53), round to the nearest integer, scale back. *)
Definition round64 (x : Q) : Q :=
  let q := Qred x in
  if Qeq_bool q 0 then 0%Q
  else
    let s := 52 - Qlog2 (Qabs q) in
    Qred (inject_Z (rne (q * 2 ^ s)) * 2 ^ (- s)).

Definition fadd (a b : Q) : Q := round64 (a + b).
Definition fsub (a b : Q) : Q := round64 (a - b).
Definition fdiv (a b : Q) : Q := round64 (a / b).

(** *** [Math.floor(2 - Math.log(x) / Math.LN10)]

    [Math.log] is implementation-approximated; the expression is modelled by
    its exact value 2 - ceil (log10 x).  The two agree unless log10 x is
    within rounding error of an integer. *)

Fixpoint ceil_log10_from (fuel : nat) (t : Z) (x : Q) : Z :=
  match fuel with
  | O => t
  | S fuel' => if Qle_bool x (10 ^ t) then t else ceil_log10_from fuel' (t + 1) x
  end.

(** The least [t] with [x <= 10^t], for positive [x]. *)
Definition ceil_log10 (x : Q) : Z :=
  let a := Z.log2 (Qnum x) in
  let b := Z.log2 (Zpos (Qden x)) in
  ceil_log10_from (Z.to_nat (a + b + 2)) (- b - 1) x.

Definition floor_2_minus_log10 (x : Q) : number :=
  match (x ?= 0)%Q with
  | Eq => Inf false                     (* 2 - log 0 = Infinity *)
  | Lt => NaN                           (* log of a negative number *)
  | Gt => Fin (inject_Z (2 - ceil_log10 x))
  end.

(** *** [Number.prototype.toFixed] and [Number] of its result

    The decimal string with [f] fraction digits is kept as the integer [n]
    it spells without its decimal point. *)

Record decimal : Type := { digits : Z; fraction : Z }.

(** ToIntegerOrInfinity *)
Definition toInteger (d : number) : option Z :=
  match d with
  | NaN => Some 0
  | Inf _ => None
  | Fin q => Some (if Qle_bool 0 q then Qfloor q else Qceiling q)
  end.

Definition toFixed (x : Q) (fractionDigits : number) : outcome decimal :=
  match toInteger fractionDigits with
  | None => Throw (RangeError "toFixed() digits argument must be between 0 and 100")
  | Some f =>
      if (f <? 0) || (100 <? f)
      then Throw (RangeError "toFixed() digits argument must be between 0 and 100")
      else
        let n := if Qle_bool 0 x
                 then Qfloor (x * 10 ^ f + (1 # 2))
                 else - Qfloor (- x * 10 ^ f + (1 # 2)) in
        Return {| digits := n; fraction := f |}
  end.

(** [Number(s)] for the decimal string [s]: the binary64 nearest to it. *)
Definition Number (s : decimal) : Q :=
  round64 (inject_Z (digits s) / 10 ^ fraction s).

(** *** Strings *)

Definition charAt (s : string) (i : nat) : string :=
  match String.get i s with
  | Some c => String c EmptyString
  | None => EmptyString
  end.

(** [s.indexOf(c)] for a one-character string [c]. *)
Fixpoint indexOf (s : string) (c : ascii) : Z :=
  match s with
  | EmptyString => -1
  | String d rest =>
      if Ascii.eqb d c then 0
      else let i := indexOf rest c in if i =? -1 then -1 else i + 1
  end.

Definition lower (c : ascii) : ascii :=
  let n := nat_of_ascii c in
  if (65 <=? n)%nat && (n <=? 90)%nat then ascii_of_nat (n + 32) else c.

Fixpoint toLowerCase (s : string) : string :=
  match s with
  | EmptyString => EmptyString
  | String c rest => String (lower c) (toLowerCase rest)
  end.

(** *** Integral Numbers, [parseInt(s, 2)] and [toString(2)] *)

Inductive integral : Type :=
| INaN
| IInf (negative : bool)
| IInt (z : Z).

(** The Number value for the integer [z]: rounded to binary64, infinite
    from 2^1024 on. *)
Definition integral_of_Z (z : Z) : integral :=
  let r := round64 (inject_Z z) in
  if Qle_bool (2 ^ 1024) (Qabs r) then IInf (z <? 0) else IInt (Qfloor r).

(** [x + d] for [d] one of 1 and -1. *)
Definition iadd (x : integral) (d : Z) : integral :=
  match x with
  | IInt z => integral_of_Z (z + d)
  | _ => x
  end.

Definition is_space (c : ascii) : bool :=
  let n := nat_of_ascii c in
  ((9 <=? n)%nat && (n <=? 13)%nat) || (n =? 32)%nat.

Fixpoint skip_spaces (s : string) : string :=
  match s with
  | String c rest => if is_space c then skip_spaces rest else s
  | EmptyString => s
  end.

(** The value of the longest prefix of binary digits, [seen] being the value
    of the digits already read, if any. *)
Fixpoint parse_bits (s : string) (seen : option Z) : option Z :=
  let v := match seen with Some z => z | None => 0 end in
  match s with
  | String "0" rest => parse_bits rest (Some (2 * v))
  | String "1" rest => parse_bits rest (Some (2 * v + 1))
  | _ => seen
  end.

Definition parseInt2 (s : string) : integral :=
  let s1 := skip_spaces s in
  let '(sign, s2) :=
    match s1 with
    | String "-" rest => (-1, rest)
    | String "+" rest => (1, rest)
    | _ => (1, s1)
    end in
  match parse_bits s2 None with
  | None => INaN
  | Some m => integral_of_Z (sign * m)
  end.

Fixpoint bits_of_pos (p : positive) : string :=
  match p with
  | xH => "1"
  | xO p' => bits_of_pos p' ++ "0"
  | xI p' => bits_of_pos p' ++ "1"
  end.

Definition toString2 (x : integral) : string :=
  match x with
  | INaN => "NaN"
  | IInf negative => if negative then "-Infinity" else "Infinity"
  | IInt 0 => "0"
  | IInt (Zpos p) => bits_of_pos p
  | IInt (Zneg p) => "-" ++ bits_of_pos p
  end.

(** *** Objects used as tables *)

Fixpoint lookup (m : list (string * string)) (k : string) : option string :=
  match m with
  | [] => None
  | (k', v) :: m' => if String.eqb k' k then Some v else lookup m' k
  end.

(** [s += v] where [v] is a property that may be [undefined]. *)
Definition append_property (s : string) (v : option string) : string :=
  s ++ match v with Some x => x | None => "undefined" end.

End JS.

Import JS.

(** ** The program *)

Module Geohash.

Definition base16 : string := "0123456789abcdef".

Definition Invalid_geohash : exn := Error "Invalid geohash".

Record coord : Type := { lat : Q; lon : Q }.
Record cell : Type := { sw : coord; ne : coord }.

(** The locals that [encode] and [bounds] both keep: the active axis and the
    rectangle bisected so far. *)
Record bisection : Type := {
  evenBit : bool;
  latMin : Q;
  latMax : Q;
  lonMin : Q;
  lonMax : Q
}.

Definition start : bisection :=
  {| evenBit := true; latMin := 6; latMax := 36; lonMin := 68; lonMax := 98 |}.

Definition set_lonMin (v : Q) (b : bisection) : bisection :=
  {| evenBit := evenBit b; latMin := latMin b; latMax := latMax b;
     lonMin := v; lonMax := lonMax b |}.
Definition set_lonMax (v : Q) (b : bisection) : bisection :=
  {| evenBit := evenBit b; latMin := latMin b; latMax := latMax b;
     lonMin := lonMin b; lonMax := v |}.
Definition set_latMin (v : Q) (b : bisection) : bisection :=
  {| evenBit := evenBit b; latMin := v; latMax := latMax b;
     lonMin := lonMin b; lonMax := lonMax b |}.
Definition set_latMax (v : Q) (b : bisection) : bisection :=
  {| evenBit := evenBit b; latMin := latMin b; latMax := v;
     lonMin := lonMin b; lonMax := lonMax b |}.
Definition flip (b : bisection) : bisection :=
  {| evenBit := negb (evenBit b); latMin := latMin b; latMax := latMax b;
     lonMin := lonMin b; lonMax := lonMax b |}.

(** *** [Geohash.bounds] *)

(** The body of the loop over [n]: one bit of the character. *)
Definition bounds_bit (bitN : Z) (b : bisection) : bisection :=
  flip
    (if evenBit b then
       let lonMid := fdiv (fadd (lonMin b) (lonMax b)) 2 in
       if bitN =? 1 then set_lonMin lonMid b else set_lonMax lonMid b
     else
       let latMid := fdiv (fadd (latMin b) (latMax b)) 2 in
       if bitN =? 1 then set_latMin latMid b else set_latMax latMid b).

(** [for (n = k-1; n >= 0; n--)] *)
Fixpoint bounds_bits (k : nat) (idx : Z) (b : bisection) : bisection :=
  match k with
  | O => b
  | S n => bounds_bits n idx (bounds_bit (Z.land (Z.shiftr idx (Z.of_nat n)) 1) b)
  end.

(** The loop over the characters of the lower-cased hash. *)
Fixpoint bounds_chars (geohash : string) (b : bisection) : outcome bisection :=
  match geohash with
  | EmptyString => Return b
  | String chr rest =>
      let idx := indexOf base16 chr in
      if idx =? -1 then Throw Invalid_geohash
      else bounds_chars rest (bounds_bits 4 idx b)
  end.

Definition bounds (geohash : string) : outcome cell :=
  if (String.length geohash =? 0)%nat then Throw Invalid_geohash
  else
    bind (bounds_chars (toLowerCase geohash) start) (fun b =>
    Return {| sw := {| lat := latMin b; lon := lonMin b |};
              ne := {| lat := latMax b; lon := lonMax b |} |}).

(** *** [Geohash.decode] *)

Definition decode (geohash : string) : outcome coord :=
  bind (bounds geohash) (fun bounds =>
  let latMin := lat (sw bounds) in
  let lonMin := lon (sw bounds) in
  let latMax := lat (ne bounds) in
  let lonMax := lon (ne bounds) in
  let lat0 := fdiv (fadd latMin latMax) 2 in
  let lon0 := fdiv (fadd lonMin lonMax) 2 in
  bind (toFixed lat0 (floor_2_minus_log10 (fsub latMax latMin))) (fun lat1 =>
  bind (toFixed lon0 (floor_2_minus_log10 (fsub lonMax lonMin))) (fun lon1 =>
  Return {| lat := Number lat1; lon := Number lon1 |}))).

(** *** [Geohash.encode] *)

Record encoder : Type := {
  idx : Z;
  bit : Z;
  geohash : string;
  area : bisection
}.

(** The body of the [while] loop. *)
Definition encode_step (lat lon : number) (s : encoder) : encoder :=
  let b := area s in
  let '(idx1, b1) :=
    if evenBit b then
      let lonMid := fdiv (fadd (lonMin b) (lonMax b)) 2 in
      if greater lon lonMid then (idx s * 2 + 1, set_lonMin lonMid b)
      else (idx s * 2, set_lonMax lonMid b)
    else
      let latMid := fdiv (fadd (latMin b) (latMax b)) 2 in
      if greater lat latMid then (idx s * 2 + 1, set_latMin latMid b)
      else (idx s * 2, set_latMax latMid b) in
  let b2 := flip b1 in
  let bit1 := bit s + 1 in
  if bit1 =? 4
  then {| idx := 0; bit := 0;
          geohash := geohash s ++ charAt base16 (Z.to_nat idx1); area := b2 |}
  else {| idx := idx1; bit := bit1; geohash := geohash s; area := b2 |}.

(** [geohash.length < precision] *)
Definition shorter (geohash : string) (precision : number) : bool :=
  less (inject_Z (Z.of_nat (String.length geohash))) precision.

(** The [while] loop; [None] when [fuel] iterations do not end it. *)
Fixpoint encode_loop (fuel : nat) (lat lon precision : number) (s : encoder)
  : option string :=
  if shorter (geohash s) precision then
    match fuel with
    | O => None
    | S fuel' => encode_loop fuel' lat lon precision (encode_step lat lon s)
    end
  else Some (geohash s).

Definition encoder_start : encoder :=
  {| idx := 0; bit := 0; geohash := EmptyString; area := start |}.

(** Four iterations for each character that [precision] asks for. *)
Definition iterations (precision : number) : nat :=
  match precision with
  | Fin q => 4 * Z.to_nat (Qceiling q)
  | _ => 0
  end.

(** [encode] from [lat = Number(lat)] on: the precision is given. *)
Definition encode_to (lat lon precision : number) : outcome string :=
  if isNaN lat || isNaN lon || isNaN precision then Throw Invalid_geohash
  else
    match encode_loop (iterations precision) lat lon precision encoder_start with
    | Some geohash => Return geohash
    | None => Diverge
    end.

(** [for (let p = p0; p <= 12; p++)] with [n] iterations left: [Some hash]
    is the [return hash] inside the loop, [None] is falling out of it. *)
Fixpoint encode_infer (n : nat) (p : Z) (lat lon : number)
  : outcome (option string) :=
  match n with
  | O => Return None
  | S n' =>
      bind (encode_to lat lon (Fin (inject_Z p))) (fun hash =>
      bind (decode hash) (fun posn =>
      if equal (Geohash.lat posn) lat && equal (Geohash.lon posn) lon
      then Return (Some hash)
      else encode_infer n' (p + 1) lat lon))
  end.

(** [precision = None] is the omitted ([undefined]) argument. *)
Definition encode (lat lon : number) (precision : option number)
  : outcome string :=
  match precision with
  | None =>
      bind (encode_infer 12 1 lat lon) (fun found =>
      match found with
      | Some hash => Return hash
      | None => encode_to lat lon (Fin 12)
      end)
  | Some p => encode_to lat lon p
  end.

(** *** The tables *)

Definition hexBinaryMap : list (string * string) :=
  [("0", "0000"); ("1", "0001"); ("2", "0010"); ("3", "0011");
   ("4", "0100"); ("5", "0101"); ("6", "0110"); ("7", "0111");
   ("8", "1000"); ("9", "1001"); ("a", "1010"); ("b", "1011");
   ("c", "1100"); ("d", "1101"); ("e", "1110"); ("f", "1111")].

Definition binaryHexMap : list (string * string) :=
  [("0000", "0"); ("0001", "1"); ("0010", "2"); ("0011", "3");
   ("0100", "4"); ("0101", "5"); ("0110", "6"); ("0111", "7");
   ("1000", "8"); ("1001", "9"); ("1010", "a"); ("1011", "b");
   ("1100", "c"); ("1101", "d"); ("1110", "e"); ("1111", "f")].

(** *** [Geohash.binaryToHex], [Geohash.hexToBinary] *)

(** The loop of [binaryToHex] with [binaryString] the part of the argument
    from index [i] on: [r] is its first four characters, or all of it when
    fewer are left. *)
Fixpoint binaryToHex_loop (binaryString : string) (s : string) : string :=
  match binaryString with
  | EmptyString => s
  | String a (String b (String c (String d rest))) =>
      let r := String a (String b (String c (String d EmptyString))) in
      binaryToHex_loop rest (append_property s (lookup binaryHexMap r))
  | r => append_property s (lookup binaryHexMap r)
  end.

Definition binaryToHex (binaryString : string) : string :=
  binaryToHex_loop binaryString EmptyString.

Fixpoint hexToBinary_loop (hexString : string) (s : string) : string :=
  match hexString with
  | EmptyString => s
  | String c rest =>
      hexToBinary_loop rest
        (append_property s (lookup hexBinaryMap (String c EmptyString)))
  end.

Definition hexToBinary (hexString : string) : string :=
  hexToBinary_loop hexString EmptyString.

(** *** [Geohash.leftpad], [Geohash.interleave] *)

Fixpoint leftpad_loop (num : nat) (r : string) : string :=
  match num with
  | O => r
  | S n => leftpad_loop n (r ++ "0")
  end.

Definition leftpad (s : string) (num : nat) : string :=
  leftpad_loop num EmptyString ++ s.

(** The loop of [interleave], [lngs] and [lats] being the parts of the two
    strings from index [i] on. *)
Fixpoint interleave_loop (lngs lats : string) (s : string) : string :=
  match lngs with
  | EmptyString => s
  | String c rest =>
      interleave_loop rest
        (match lats with String _ rest' => rest' | EmptyString => EmptyString end)
        ((s ++ String c EmptyString) ++ charAt lats 0)
  end.

Definition interleave (lngs lats : string) : string :=
  let lngs :=
    if (String.length lngs <? String.length lats)%nat
    then leftpad lngs (String.length lats - String.length lngs) else lngs in
  let lats :=
    if (String.length lats <? String.length lngs)%nat
    then leftpad lats (String.length lngs - String.length lats) else lats in
  interleave_loop lngs lats EmptyString.

(** *** [Geohash.adjacent] *)

(** The argument [direction], one of the strings n, e, w and s. *)
Inductive direction : Type := North | East | West | South.

(** The loop that separates the bits at even indices ([lngs]) from those at
    odd indices ([lats]); [value] is the part of the string from [i] on. *)
Fixpoint separate (value : string) (i : nat) (lngs lats : string)
  : string * string :=
  match value with
  | EmptyString => (lngs, lats)
  | String c rest =>
      if (i mod 2 =? 0)%nat
      then separate rest (S i) (lngs ++ String c EmptyString) lats
      else separate rest (S i) lngs (lats ++ String c EmptyString)
  end.

Definition adjacent (geohash : string) (d : direction) : string :=
  let value := hexToBinary geohash in
  let '(lngs, lats) := separate value 0 EmptyString EmptyString in
  let lngNum := parseInt2 lngs in
  let latNum := parseInt2 lats in
  let leftLng := toString2 (iadd lngNum (-1)) in
  let rightLng := toString2 (iadd lngNum 1) in
  let upLat := toString2 (iadd latNum 1) in
  let downLat := toString2 (iadd latNum (-1)) in
  match d with
  | North => binaryToHex (interleave lngs upLat)
  | East => binaryToHex (interleave rightLng lats)
  | West => binaryToHex (interleave leftLng lats)
  | South => binaryToHex (interleave lngs downLat)
  end.

(** *** [Geohash.neighbours] *)

Definition neighbours (geohash : string) : list (string * string) :=
  [("n", adjacent geohash North);
   ("ne", adjacent (adjacent geohash North) East);
   ("e", adjacent geohash East);
   ("se", adjacent (adjacent geohash South) East);
   ("s", adjacent geohash South);
   ("sw", adjacent (adjacent geohash South) West);
   ("w", adjacent geohash West);
   ("nw", adjacent (adjacent geohash North) West)].

End Geohash.

Import Geohash.

(** ** Notions used in the statements *)

Definition is_hex (c : ascii) : bool :=
  existsb (Ascii.eqb c) (list_ascii_of_string base16).

Definition is_hex_ci (c : ascii) : bool :=
  existsb (Ascii.eqb c) (list_ascii_of_string "0123456789abcdefABCDEF").

Definition all_hex (h : string) : bool :=
  forallb is_hex (list_ascii_of_string h).

(** A geohash: one to twelve symbols of the alphabet. *)
Definition valid_geohash (h : string) : bool :=
  (1 <=? String.length h)%nat && (String.length h <=? 12)%nat && all_hex h.

(** What [bounds] accepts: a non-empty string of symbols in either case. *)
Definition accepted (h : string) : bool :=
  negb (String.length h =? 0)%nat && forallb is_hex_ci (list_ascii_of_string h).

(** The first rectangle lies within the second. *)
Definition within (c d : cell) : Prop :=
  (lat (sw d) <= lat (sw c) /\ lat (ne c) <= lat (ne d) /\
   lon (sw d) <= lon (sw c) /\ lon (ne c) <= lon (ne d))%Q.

Definition lat_span (c : cell) : Q := lat (ne c) - lat (sw c).
Definition lon_span (c : cell) : Q := lon (ne c) - lon (sw c).

Definition contains (c : cell) (y x : Q) : Prop :=
  (lat (sw c) <= y <= lat (ne c) /\ lon (sw c) <= x <= lon (ne c))%Q.

(** [r] iterations of the loop body of [encode]. *)
Fixpoint steps (r : nat) (lat lon : number) (s : encoder) : encoder :=
  match r with
  | O => s
  | S r' => steps r' lat lon (encode_step lat lon s)
  end.

(** Between two characters [idx] holds the bits read so far. *)
Definition partial (s : encoder) : Prop :=
  (0 <= bit s <= 3 /\ 0 <= idx s < 2 ^ bit s)%Z.

(** The comparison that [encode] makes in state [b]. *)
Definition decision (lat lon : number) (b : bisection) : bool :=
  if evenBit b then greater lon (fdiv (fadd (lonMin b) (lonMax b)) 2)
  else greater lat (fdiv (fadd (latMin b) (latMax b)) 2).

Definition bit_of (d : bool) : Z := if d then 1 else 0.

(** Values that binary64 holds exactly during the first bisections. *)
Definition dyadic (k : Z) (q : Q) : Prop :=
  Qred q = q /\ exists A : Z, (q == inject_Z A * 2 ^ (- k))%Q.

(** One axis after [k] bisections of [lo, lo + 30]. *)
Definition axis (lo : Q) (k : Z) (mn mx : Q) : Prop :=
  dyadic k mn /\ dyadic k mx /\
  (lo <= mn /\ mx <= lo + 30 /\ mx - mn == 30 * 2 ^ (- k))%Q.

(** The rectangle after [kx] bisections in longitude and [ky] in latitude. *)
Definition exact (kx ky : Z) (b : bisection) : Prop :=
  axis 68 kx (lonMin b) (lonMax b) /\ axis 6 ky (latMin b) (latMax b) /\
  (0 <= ky)%Z /\ kx = (if evenBit b then ky else ky + 1)%Z.

Definition narrows (b b' : bisection) : Prop :=
  (lonMin b <= lonMin b' /\ lonMax b' <= lonMax b /\
   latMin b <= latMin b' /\ latMax b' <= latMax b)%Q.

(** The point lies in the rectangle without its lower and left edges, where
    [encode] puts the points of a cell. *)
Definition half_open (y x : Q) (b : bisection) : Prop :=
  (lonMin b < x /\ x <= lonMax b /\ latMin b < y /\ y <= latMax b)%Q.

(** [decode(encode(lat, lon, p))] is exactly [(lat, lon)]. *)
Definition matches (lat lon : number) (p : Z) : Prop :=
  exists hash posn,
    encode lat lon (Some (Fin (inject_Z p))) = Return hash /\
    decode hash = Return posn /\
    equal (Geohash.lat posn) lat = true /\ equal (Geohash.lon posn) lon = true.

Definition cell_of (b : bisection) : cell :=
  {| sw := {| lat := latMin b; lon := lonMin b |};
     ne := {| lat := latMax b; lon := lonMax b |} |}.

(** *** Neighbours *)

Definition is_bit (c : ascii) : bool := Ascii.eqb c "0" || Ascii.eqb c "1".

Definition bitstring (s : string) : bool :=
  forallb is_bit (list_ascii_of_string s).

(** The number that the binary digits [s] spell after the digits of [acc]. *)
Fixpoint binval (s : string) (acc : Z) : Z :=
  match s with
  | EmptyString => acc
  | String c rest => binval rest (2 * acc + (if Ascii.eqb c "1" then 1 else 0))
  end.

(** [z] in [k] binary digits. *)
Fixpoint bin (k : nat) (z : Z) : string :=
  match k with
  | O => EmptyString
  | S k' => bin k' (z / 2) ++ (if Z.odd z then "1" else "0")
  end.

(** The characters at even and at odd indices. *)
Fixpoint unzip (s : string) : string * string :=
  match s with
  | EmptyString => (EmptyString, EmptyString)
  | String c rest => let '(a, b) := unzip rest in (String c b, a)
  end.

Fixpoint zip (a b : string) : string :=
  match a, b with
  | String x a', String y b' => String x (String y (zip a' b'))
  | _, _ => EmptyString
  end.

(** The two integers that [adjacent] reads from a geohash. *)
Definition lng_of (h : string) : integral :=
  parseInt2 (fst (separate (hexToBinary h) 0 EmptyString EmptyString)).
Definition lat_of (h : string) : integral :=
  parseInt2 (snd (separate (hexToBinary h) 0 EmptyString EmptyString)).

(** The largest integer in the bits of one axis of [h]. *)
Definition top (h : string) : Z := 2 ^ (2 * Z.of_nat (String.length h)) - 1.

(** The cell of [h] is not on the edge of the domain that [d] faces. *)
Definition can_go (h : string) (d : direction) : bool :=
  match d with
  | North => match lat_of h with IInt y => y <? top h | _ => false end
  | South => match lat_of h with IInt y => 0 <? y | _ => false end
  | East => match lng_of h with IInt x => x <? top h | _ => false end
  | West => match lng_of h with IInt x => 0 <? x | _ => false end
  end.

(** The cell of [h] touches no edge of the domain. *)
Definition interior (h : string) : bool :=
  can_go h North && can_go h East && can_go h South && can_go h West.

(** The moves that make up the entry of [neighbours] under a key. *)
Definition moves (key : string) : list direction :=
  if String.eqb key "n" then [North]
  else if String.eqb key "ne" then [North; East]
  else if String.eqb key "e" then [East]
  else if String.eqb key "se" then [South; East]
  else if String.eqb key "s" then [South]
  else if String.eqb key "sw" then [South; West]
  else if String.eqb key "w" then [West]
  else if String.eqb key "nw" then [North; West]
  else [].

(** The coordinates one cell away in direction [d]. *)
Definition moved (d : direction) (x y : Z) : Z * Z :=
  match d with
  | North => (x, y + 1)
  | South => (x, y - 1)
  | East => (x + 1, y)
  | West => (x - 1, y)
  end.

(** *** The standard library's binary64, to compare [round64] with *)

Definition SF2Q (x : spec_float) : Q :=
  match x with
  | S754_finite sign m e => (inject_Z (cond_Zopp sign (Zpos m)) * 2 ^ e)%Q
  | _ => 0%Q
  end.

Definition Z2SF (z : Z) : spec_float := binary_normalize 53 1024 z 0 false.

(** The pairs of integers from 1 to [k]. *)
Definition pairs (k : nat) : list (Z * Z) :=
  list_prod (map Z.of_nat (seq 1 k)) (map Z.of_nat (seq 1 k)).

(** i / j computed both ways. *)
Definition agree_div (p : Z * Z) : bool :=
  Qeq_bool (SF2Q (SFdiv 53 1024 (Z2SF (fst p)) (Z2SF (snd p))))
           (fdiv (inject_Z (fst p)) (inject_Z (snd p))).

(** i / 7 + j / 1000 and i / 7 - j / 1000 computed both ways. *)
Definition agree_add (p : Z * Z) : bool :=
  let a := SFdiv 53 1024 (Z2SF (fst p)) (Z2SF 7) in
  let b := SFdiv 53 1024 (Z2SF (snd p)) (Z2SF 1000) in
  Qeq_bool (SF2Q (SFadd 53 1024 a b)) (fadd (SF2Q a) (SF2Q b)) &&
  Qeq_bool (SF2Q (SFsub 53 1024 a b)) (fsub (SF2Q a) (SF2Q b)).

(** *** Notions of the further properties *)

Definition opposite (d : direction) : direction :=
  match d with
  | North => South
  | South => North
  | East => West
  | West => East
  end.

(** The coordinates under each key of [neighbours], in its order. *)
Definition around (x y : Z) : list (integral * integral) :=
  [(IInt x, IInt (y + 1)); (IInt (x + 1), IInt (y + 1)); (IInt (x + 1), IInt y);
   (IInt (x + 1), IInt (y - 1)); (IInt x, IInt (y - 1));
   (IInt (x - 1), IInt (y - 1)); (IInt (x - 1), IInt y);
   (IInt (x - 1), IInt (y + 1))].

(** The rectangle is column [x] and row [y] of the grid that [kx] bisections
    in longitude and [ky] in latitude make of the domain. *)
Definition grid (kx ky x y : Z) (b : bisection) : Prop :=
  (lonMin b == 68 + 30 * inject_Z x * 2 ^ (- kx) /\
   lonMax b == 68 + 30 * (inject_Z x + 1) * 2 ^ (- kx) /\
   latMin b == 6 + 30 * inject_Z y * 2 ^ (- ky) /\
   latMax b == 6 + 30 * (inject_Z y + 1) * 2 ^ (- ky))%Q.

(** The side, in degrees, of the cells of the length of [h]. *)
Definition side (h : string) : Q :=
  (30 * 2 ^ (- (2 * Z.of_nat (String.length h))))%Q.

(** The cell at column [x] and row [y] of the grid of cells of side [w]. *)
Definition at_grid (w : Q) (x y : Z) (c : cell) : Prop :=
  (lon (sw c) == 68 + inject_Z x * w /\ lon (ne c) == 68 + (inject_Z x + 1) * w /\
   lat (sw c) == 6 + inject_Z y * w /\ lat (ne c) == 6 + (inject_Z y + 1) * w)%Q.

(** Bit [n] of the index of a symbol, as [bounds] reads it. *)
Definition bit_at (idx : Z) (n : nat) : Z := Z.land (Z.shiftr idx (Z.of_nat n)) 1.

(** The step of a direction, in columns and in rows. *)
Definition east (d : direction) : Z :=
  match d with East => 1 | West => -1 | _ => 0 end.
Definition north (d : direction) : Z :=
  match d with North => 1 | South => -1 | _ => 0 end.

(** A value of binary64, the range of its exponent apart: 53 bits and a
    power of two. *)
Definition representable (q : Q) : Prop :=
  exists m k : Z, (q == inject_Z m * 2 ^ k)%Q /\ (Z.abs m < 2 ^ 53)%Z.

(** A rectangle of binary64 values in the domain, its corners in order. *)
Definition sound (b : bisection) : Prop :=
  representable (lonMin b) /\ representable (lonMax b) /\
  representable (latMin b) /\ representable (latMax b) /\
  (68 <= lonMin b /\ lonMin b <= lonMax b /\ lonMax b <= 98 /\
   6 <= latMin b /\ latMin b <= latMax b /\ latMax b <= 36)%Q.

(** The value of [lo, hi] nearest to [v]. *)
Definition clamp (lo hi : Q) (v : number) : number :=
  match v with
  | NaN => NaN
  | Inf negative => Fin (if negative then lo else hi)
  | Fin q => Fin (if Qle_bool q lo then lo else if Qle_bool hi q then hi else q)
  end.

(** ** The program on some inputs *)

Example encode_20_80 :
  encode (Fin 20) (Fin 80) (Some (Fin 4)) = Return "3d3d".
Proof. vm_compute. reflexivity. Qed.

Example bounds_3d3d :
  bounds "3d3d" =
  Return {| sw := {| lat := 2553 # 128; lon := 5117 # 64 |};
            ne := {| lat := 321 # 16; lon := 10249 # 128 |} |}.
Proof. vm_compute. reflexivity. Qed.

(** 20.00 and 80.01, the second as binary64 has it. *)
Example decode_3d3d :
  decode "3d3d" = Return {| lat := 20; lon := round64 (8001 # 100) |}.
Proof. vm_compute. reflexivity. Qed.

Example bounds_upper_case : bounds "3D3d" = bounds "3d3d".
Proof. vm_compute. reflexivity. Qed.

(** Twelve symbols do not reach (20, 80) exactly. *)
Example encode_20_80_inferred :
  encode (Fin 20) (Fin 80) None = Return "3d3d3d3d3d3d".
Proof. vm_compute. reflexivity. Qed.

Example encode_fraction :
  encode (Fin 20) (Fin 80) (Some (Fin (5 # 2))) = Return "3d3".
Proof. vm_compute. reflexivity. Qed.

Example encode_infinite_precision :
  encode (Fin 20) (Fin 80) (Some (Inf false)) = Diverge.
Proof. reflexivity. Qed.

Example neighbours_3d3d :
  neighbours "3d3d" =
  [("n", "3d68"); ("ne", "3d6a"); ("e", "3d3f"); ("se", "3d3e");
   ("s", "3d3c"); ("sw", "3d36"); ("w", "3d37"); ("nw", "3d62")].
Proof. vm_compute. reflexivity. Qed.

(** On the edges: 0 - 1 is written "-1" and 3 + 1 needs a third digit. *)
Example adjacent_south_of_0 : adjacent "0" South = "undefined".
Proof. vm_compute. reflexivity. Qed.

Example adjacent_north_of_f : adjacent "f" North = "6undefined".
Proof. vm_compute. reflexivity. Qed.

(** Twenty-seven symbols hold 54 bits for each axis, one more than binary64
    keeps: the latitude 2^54 - 2 less one is 2^54 - 4. *)
Example adjacent_rounds :
  adjacent "ffffffffffffffffffffffffffe" South = "ffffffffffffffffffffffffffa".
Proof. vm_compute. reflexivity. Qed.

(** ** Rounding to binary64 *)

Section Rounding.

Local Open Scope Q_scope.

Lemma pow2_pos (z : Z) : 0 < 2 ^ z.
Proof. apply Qpower_0_lt. reflexivity. Qed.

Lemma pow2_succ (z : Z) : 2 ^ (z + 1) == 2 * 2 ^ z.
Proof. rewrite Qpower_plus by discriminate. simpl (2 ^ 1). ring. Qed.

Lemma pow2_pred (z : Z) : 2 ^ z == 2 * 2 ^ (z - 1).
Proof. rewrite <- pow2_succ. replace (z - 1 + 1)%Z with z by ring. reflexivity. Qed.

Lemma pow2_inject (k : Z) : (0 <= k)%Z -> inject_Z (2 ^ k) == 2 ^ k.
Proof. intros H. rewrite Zpower_Qpower by assumption. reflexivity. Qed.

Lemma Qlog2_spec (q : Q) :
  0 < q -> 2 ^ Qlog2 q <= q /\ q < 2 ^ (Qlog2 q + 1).
Proof.
  intros Hq. unfold Qlog2.
  destruct q as [a b]. cbn [Qnum Qden].
  assert (Ha : (0 < a)%Z) by (unfold Qlt in Hq; simpl in Hq; lia).
  set (la := Z.log2 a). set (lb := Z.log2 (Zpos b)).
  destruct (Z.log2_spec a Ha) as [Ha1 Ha2].
  destruct (Z.log2_spec (Zpos b) ltac:(lia)) as [Hb1 Hb2].
  fold la in Ha1, Ha2. fold lb in Hb1, Hb2.
  assert (Hla : (0 <= la)%Z) by apply Z.log2_nonneg.
  assert (Hlb : (0 <= lb)%Z) by apply Z.log2_nonneg.
  assert (E0 : 2 ^ (la - lb) * inject_Z (2 ^ lb) == inject_Z (2 ^ la)).
  { rewrite !pow2_inject by assumption.
    rewrite Qpower_minus by discriminate. field.
    intro H. pose proof (pow2_pos lb). rewrite H in H0. discriminate. }
  assert (Eq : (a # b) * inject_Z (Zpos b) == inject_Z a).
  { rewrite (Qmake_Qdiv a b). field. discriminate. }
  set (t := 2 ^ (la - lb)) in *.
  assert (Ht : 0 < t) by apply pow2_pos.
  assert (HA1 : inject_Z (2 ^ la) <= inject_Z a) by (rewrite <- Zle_Qle; exact Ha1).
  assert (HA2 : inject_Z a < 2 * inject_Z (2 ^ la)).
  { change 2 with (inject_Z 2). rewrite <- inject_Z_mult, <- Zlt_Qlt.
    rewrite Z.pow_succ_r in Ha2 by assumption. exact Ha2. }
  assert (HB1 : inject_Z (2 ^ lb) <= inject_Z (Zpos b)) by (rewrite <- Zle_Qle; exact Hb1).
  assert (HB2 : inject_Z (Zpos b) < 2 * inject_Z (2 ^ lb)).
  { change 2 with (inject_Z 2). rewrite <- inject_Z_mult, <- Zlt_Qlt.
    rewrite Z.pow_succ_r in Hb2 by assumption. exact Hb2. }
  assert (HY : 0 < inject_Z (2 ^ lb)).
  { rewrite pow2_inject by assumption. apply pow2_pos. }
  set (X := inject_Z (2 ^ la)) in *. set (Y := inject_Z (2 ^ lb)) in *.
  set (A := inject_Z a) in *. set (B := inject_Z (Zpos b)) in *.
  set (q := a # b) in *.
  destruct (Qle_bool t q) eqn:Hc.
  - apply Qle_bool_iff in Hc. split; [exact Hc|].
    rewrite pow2_succ. fold t. nra.
  - assert (Hc' : q < t).
    { apply Qnot_le_lt. intro H. apply Qle_bool_iff in H. congruence. }
    replace (la - lb - 1 + 1)%Z with (la - lb)%Z by ring. fold t.
    split; [|exact Hc'].
    assert (Hp := pow2_pred (la - lb)). fold t in Hp.
    set (u := 2 ^ (la - lb - 1)) in *. nra.
Qed.

Lemma rne_comp (x y : Q) : x == y -> rne x = rne y.
Proof.
  intros H. unfold rne. rewrite (Qfloor_comp _ _ H).
  rewrite (Qcompare_comp (x - inject_Z (Qfloor y)) (y - inject_Z (Qfloor y))
             ltac:(rewrite H; reflexivity) (1 # 2) (1 # 2) ltac:(reflexivity)).
  reflexivity.
Qed.

Lemma rne_Z (z : Z) : rne (inject_Z z) = z.
Proof.
  unfold rne. rewrite Qfloor_Z.
  assert (H : (inject_Z z - inject_Z z ?= 1 # 2) = Lt).
  { apply (proj1 (Qlt_alt _ _)). generalize (inject_Z z). intros a. lra. }
  rewrite H. reflexivity.
Qed.

Lemma rne_error (x : Q) :
  - (1 # 2) <= inject_Z (rne x) - x <= 1 # 2.
Proof.
  unfold rne.
  pose proof (Qfloor_le x) as H1. pose proof (Qlt_floor x) as H2.
  rewrite inject_Z_plus in H2. change (inject_Z 1) with 1 in H2.
  destruct (x - inject_Z (Qfloor x) ?= 1 # 2) eqn:Hc.
  - apply Qeq_alt in Hc.
    destruct (Z.even (Qfloor x)); [|rewrite inject_Z_plus; change (inject_Z 1) with 1]; lra.
  - apply Qlt_alt in Hc. lra.
  - apply Qgt_alt in Hc. rewrite inject_Z_plus; change (inject_Z 1) with 1. lra.
Qed.

Lemma Qabs_pos_lt (q : Q) : ~ q == 0 -> 0 < Qabs q.
Proof.
  intros H. apply Qabs_case; intros H1.
  - destruct (Qlt_le_dec 0 q); [assumption|]. exfalso; apply H; lra.
  - destruct (Qlt_le_dec q 0); [lra|]. exfalso; apply H; lra.
Qed.

(** A value with at most 53 significant bits is not changed by rounding. *)
Lemma round64_exact (q : Q) (m k : Z) :
  q == inject_Z m * 2 ^ k -> (Z.abs m < 2 ^ 53)%Z -> round64 q = Qred q.
Proof.
  intros Hq Hm. unfold round64.
  destruct (Qeq_bool (Qred q) 0) eqn:H0.
  - apply Qeq_bool_iff in H0.
    pose proof (Qred_complete _ _ H0) as E. rewrite (Qred_complete _ _ (Qred_correct q)) in E.
    rewrite E. reflexivity.
  - assert (Hn0 : ~ q == 0).
    { intro H. rewrite <- (Qred_correct q) in H. apply Qeq_bool_iff in H. congruence. }
    apply Qred_complete.
    destruct (Qlog2_spec (Qabs (Qred q))) as [L1 L2].
    { apply Qabs_pos_lt. rewrite Qred_correct. exact Hn0. }
    set (e := Qlog2 (Qabs (Qred q))) in *.
    set (s := (52 - e)%Z).
    rewrite Qred_correct in L1, L2.
    assert (Es : e = (52 - s)%Z) by (unfold s; ring).
    rewrite Es in L1, L2.
    assert (S1 : 2 ^ 52 <= Qabs q * 2 ^ s).
    { replace 52%Z with ((52 - s) + s)%Z at 1 by ring.
      rewrite Qpower_plus by discriminate.
      apply Qmult_le_compat_r; [exact L1|]. apply Qlt_le_weak, pow2_pos. }
    (* the scaled value is the integer m * 2^(k+s) *)
    assert (Hks : (0 <= k + s)%Z).
    { destruct (Z.le_gt_cases 0 (k + s)) as [|Hneg]; [assumption|exfalso].
      assert (A : Qabs q * 2 ^ s == inject_Z (Z.abs m) * 2 ^ (k + s)).
      { rewrite Hq, Qabs_Qmult. change (Qabs (inject_Z m)) with (inject_Z (Z.abs m)).
        rewrite (Qabs_pos (2 ^ k)) by (apply Qlt_le_weak, pow2_pos).
        rewrite <- Qmult_assoc, <- Qpower_plus by discriminate. reflexivity. }
      rewrite A in S1.
      assert (B : 2 ^ (k + s) <= 2 ^ (-1)).
      { apply Qpower_le_compat_l; [lia|discriminate]. }
      assert (C : inject_Z (Z.abs m) < 2 ^ 53).
      { rewrite <- (pow2_inject 53) by lia. rewrite <- Zlt_Qlt. exact Hm. }
      assert (D : 0 <= inject_Z (Z.abs m)).
      { change 0 with (inject_Z 0). rewrite <- Zle_Qle. lia. }
      pose proof (pow2_pos (k + s)) as P.
      change (2 ^ (-1)) with (1 # 2) in B.
      change (2 ^ 52) with (inject_Z (2 ^ 52)) in S1.
      change (2 ^ 53) with (2 * inject_Z (2 ^ 52)) in C.
      set (M := inject_Z (Z.abs m)) in *. set (T := 2 ^ (k + s)) in *.
      set (W := inject_Z (2 ^ 52)) in *.
      assert (0 < W) by reflexivity. nra. }
    assert (E : q * 2 ^ s == inject_Z (m * 2 ^ (k + s))).
    { rewrite Hq, inject_Z_mult, (pow2_inject _ Hks).
      rewrite <- Qmult_assoc, <- Qpower_plus by discriminate. reflexivity. }
    assert (E' : Qred q * 2 ^ s == inject_Z (m * 2 ^ (k + s))).
    { rewrite Qred_correct. exact E. }
    rewrite (rne_comp _ _ E'), rne_Z, inject_Z_mult, (pow2_inject _ Hks).
    rewrite Hq. rewrite <- Qmult_assoc, <- Qpower_plus by discriminate.
    replace (k + s + - s)%Z with k by ring. reflexivity.
Qed.

Lemma round64_canon (q : Q) : Qred (round64 q) = round64 q.
Proof.
  unfold round64. destruct (Qeq_bool (Qred q) 0); [reflexivity|].
  apply Qred_complete, Qred_correct.
Qed.

(** Below 128 a value moves by at most 2^-47 when rounded. *)
Lemma round64_error (q : Q) :
  0 < q -> q < 128 -> - (2 ^ (-47)) <= round64 q - q <= 2 ^ (-47).
Proof.
  intros H0 H1. unfold round64.
  destruct (Qeq_bool (Qred q) 0) eqn:Hz.
  { apply Qeq_bool_iff in Hz. rewrite Qred_correct in Hz. lra. }
  destruct (Qlog2_spec (Qabs (Qred q))) as [L1 _].
  { rewrite Qred_correct, Qabs_pos by lra. exact H0. }
  set (e := Qlog2 (Qabs (Qred q))) in *.
  rewrite Qred_correct, Qabs_pos in L1 by lra.
  assert (He : (e < 7)%Z).
  { apply (Qpower_lt_compat_l_inv 2); [|reflexivity].
    change (2 ^ 7) with 128. lra. }
  rewrite Qred_correct.
  pose proof (rne_error (Qred q * 2 ^ (52 - e))) as [R1 R2].
  set (r := inject_Z (rne (Qred q * 2 ^ (52 - e)))) in *.
  assert (Hq : Qred q * 2 ^ (52 - e) == q * 2 ^ (52 - e)) by (rewrite Qred_correct; reflexivity).
  rewrite Hq in R1, R2.
  assert (P : 2 ^ (52 - e) * 2 ^ (- (52 - e)) == 1).
  { rewrite <- Qpower_plus by discriminate.
    replace (52 - e + - (52 - e))%Z with 0%Z by ring. reflexivity. }
  assert (B : 2 ^ (- (52 - e)) <= 2 ^ (-46)).
  { apply Qpower_le_compat_l; [lia|discriminate]. }
  assert (T : 2 ^ (-46) == 2 * 2 ^ (-47)) by reflexivity.
  pose proof (pow2_pos (- (52 - e))) as P1.
  pose proof (pow2_pos (52 - e)) as P2.
  set (u := 2 ^ (52 - e)) in *. set (v := 2 ^ (- (52 - e))) in *.
  set (w := 2 ^ (-47)) in *. set (w2 := 2 ^ (-46)) in *.
  assert (E : r * v - q == (r - q * u) * v).
  { setoid_replace q with (q * (u * v)) at 1 by (rewrite P; ring). ring. }
  rewrite E. split; nra.
Qed.

(** Sums and halves of the bounds that occur are exact: a multiple of
    2^-k (k <= 42) of magnitude at most 256 has fewer than 53 bits. *)
Lemma round64_small (q : Q) (A k : Z) :
  q == inject_Z A * 2 ^ (- k) -> (0 <= k <= 42)%Z -> Qabs q <= 256 ->
  round64 q = Qred q.
Proof.
  intros Hq Hk Hb. apply (round64_exact q A (- k) Hq).
  assert (E : inject_Z (Z.abs A) == Qabs q * 2 ^ k).
  { rewrite Hq, Qabs_Qmult. change (Qabs (inject_Z A)) with (inject_Z (Z.abs A)).
    rewrite (Qabs_pos (2 ^ (- k))) by (apply Qlt_le_weak, pow2_pos).
    rewrite <- Qmult_assoc, <- Qpower_plus by discriminate.
    replace (- k + k)%Z with 0%Z by ring. change (2 ^ 0) with 1. ring. }
  assert (K : 2 ^ k <= 2 ^ 42).
  { apply Qpower_le_compat_l; [lia|discriminate]. }
  assert (F : inject_Z (Z.abs A) < inject_Z (2 ^ 53)).
  { rewrite E. pose proof (pow2_pos k). pose proof (Qabs_nonneg q).
    change (inject_Z (2 ^ 53)) with (2048 * 2 ^ 42).
    set (u := 2 ^ k) in *. set (v := 2 ^ 42) in *. set (a := Qabs q) in *.
    assert (0 < v) by reflexivity. nra. }
  rewrite <- Zlt_Qlt in F. exact F.
Qed.

(** The double nearest to one tenth. *)
Example round64_tenth :
  round64 (1 # 10) = 3602879701896397 # 36028797018963968.
Proof. vm_compute. reflexivity. Qed.

(** 2^53 + 1 is a tie between 2^53 and 2^53 + 2 and goes to the even
    significand. *)
Example round64_tie :
  round64 (inject_Z (2 ^ 53 + 1)) = inject_Z (2 ^ 53) /\
  round64 (inject_Z (2 ^ 53 + 3)) = inject_Z (2 ^ 53 + 4).
Proof. split; vm_compute; reflexivity. Qed.

(** On these samples the operations agree with the IEEE 754 operations of
    [SpecFloat] at precision 53. *)
Example round64_agrees_with_SpecFloat :
  forallb agree_div (pairs 24) = true /\ forallb agree_add (pairs 24) = true.
Proof. split; vm_compute; reflexivity. Qed.

(** *** The number of decimals *)

Lemma pow10_pos (d : Z) : 0 < 10 ^ d.
Proof. apply Qpower_0_lt. reflexivity. Qed.

Lemma pow10_inject (k : Z) : (0 <= k)%Z -> inject_Z (10 ^ k) == 10 ^ k.
Proof. intros H. rewrite Zpower_Qpower by assumption. reflexivity. Qed.

Lemma ceil_log10_from_spec (fuel : nat) (t : Z) (x : Q) :
  10 ^ (t - 1) < x -> x <= 10 ^ (t + Z.of_nat fuel) ->
  10 ^ (ceil_log10_from fuel t x - 1) < x /\ x <= 10 ^ ceil_log10_from fuel t x.
Proof.
  revert t. induction fuel as [|fuel IH]; intros t Hlo Hhi; cbn [ceil_log10_from].
  - rewrite Z.add_0_r in Hhi. split; assumption.
  - destruct (Qle_bool x (10 ^ t)) eqn:E.
    + apply Qle_bool_iff in E. split; assumption.
    + apply IH.
      * replace (t + 1 - 1)%Z with t by ring.
        apply Qnot_le_lt. intro H. apply Qle_bool_iff in H. congruence.
      * replace (t + 1 + Z.of_nat fuel)%Z with (t + Z.of_nat (S fuel))%Z by lia.
        exact Hhi.
Qed.

(** [ceil_log10 x] is the least exponent of ten that reaches [x], which is
    the ceiling of its decimal logarithm. *)
Lemma ceil_log10_spec (x : Q) :
  0 < x -> 10 ^ (ceil_log10 x - 1) < x /\ x <= 10 ^ ceil_log10 x.
Proof.
  intros Hx. unfold ceil_log10. destruct x as [a b]. cbn [Qnum Qden].
  assert (Ha : (0 < a)%Z) by (unfold Qlt in Hx; simpl in Hx; lia).
  destruct (Z.log2_spec a Ha) as [_ Ha2].
  destruct (Z.log2_spec (Zpos b) ltac:(lia)) as [_ Hb2].
  pose proof (Z.log2_nonneg a) as Na. pose proof (Z.log2_nonneg (Zpos b)) as Nb.
  set (la := Z.log2 a) in *. set (lb := Z.log2 (Zpos b)) in *.
  assert (Pa : (a < 10 ^ (la + 1))%Z).
  { eapply Z.lt_le_trans; [exact Ha2|]. unfold Z.succ. apply Z.pow_le_mono_l. lia. }
  assert (Pb : (Zpos b < 10 ^ (lb + 1))%Z).
  { eapply Z.lt_le_trans; [exact Hb2|]. unfold Z.succ. apply Z.pow_le_mono_l. lia. }
  assert (Eq : (a # b) * inject_Z (Zpos b) == inject_Z a).
  { rewrite (Qmake_Qdiv a b). field. discriminate. }
  assert (QA : inject_Z a < 10 ^ (la + 1)).
  { rewrite <- pow10_inject by lia. rewrite <- Zlt_Qlt. exact Pa. }
  assert (QB : inject_Z (Zpos b) < 10 ^ (lb + 1)).
  { rewrite <- pow10_inject by lia. rewrite <- Zlt_Qlt. exact Pb. }
  assert (A1 : 1 <= inject_Z a) by (change 1 with (inject_Z 1); rewrite <- Zle_Qle; lia).
  assert (B1 : 1 <= inject_Z (Zpos b)) by (change 1 with (inject_Z 1); rewrite <- Zle_Qle; lia).
  assert (I : 10 ^ (- lb - 1 - 1) * 10 ^ (lb + 1) == 1 # 10).
  { rewrite <- Qpower_plus by discriminate.
    replace (- lb - 1 - 1 + (lb + 1))%Z with (-1)%Z by ring. reflexivity. }
  pose proof (pow10_pos (- lb - 1 - 1)) as P1. pose proof (pow10_pos (lb + 1)) as P2.
  apply ceil_log10_from_spec.
  - set (q := a # b) in *. set (A := inject_Z a) in *. set (B := inject_Z (Zpos b)) in *.
    set (u := 10 ^ (- lb - 1 - 1)) in *. set (v := 10 ^ (lb + 1)) in *. nra.
  - rewrite Z2Nat.id by lia. replace (- lb - 1 + (la + lb + 2))%Z with (la + 1)%Z by ring.
    set (q := a # b) in *. set (A := inject_Z a) in *. set (B := inject_Z (Zpos b)) in *.
    set (v := 10 ^ (la + 1)) in *. nra.
Qed.

End Rounding.
Section Bisection.

Local Open Scope Q_scope.

(** ** The bisection is exact for the first forty bits of an axis *)

Lemma dyadic_succ (k : Z) (q : Q) : dyadic k q -> dyadic (k + 1) q.
Proof.
  intros [C [A HA]]. split; [exact C|]. exists (2 * A)%Z.
  rewrite HA, inject_Z_mult. replace (- (k + 1))%Z with (- k + -1)%Z by ring.
  rewrite Qpower_plus by discriminate. change (2 ^ (-1)) with (1 # 2).
  change (inject_Z 2) with 2. ring.
Qed.

Lemma pow2_neg_succ (k : Z) : 2 ^ (- (k + 1)) == 2 ^ (- k) / 2.
Proof.
  replace (- (k + 1))%Z with (- k + -1)%Z by ring.
  rewrite Qpower_plus by discriminate. change (2 ^ (-1)) with (1 # 2).
  field.
Qed.

Lemma Qhalf (x : Q) : x / 2 == x * (1 # 2).
Proof. field. Qed.

Lemma mid_exact (lo : Q) (k : Z) (mn mx : Q) :
  axis lo k mn mx -> 0 <= lo -> lo <= 68 -> (0 <= k <= 40)%Z ->
  fdiv (fadd mn mx) 2 == (mn + mx) * (1 # 2) /\ dyadic (k + 1) (fdiv (fadd mn mx) 2).
Proof.
  intros [[Cn [A HA]] [[Cx [B HB]] [H1 [H2 H3]]]] L0 L1 Hk.
  pose proof (pow2_pos (- k)) as P.
  assert (S1 : fadd mn mx = Qred (mn + mx)).
  { unfold fadd. apply (round64_small _ (A + B) k).
    - rewrite HA, HB, inject_Z_plus. ring.
    - lia.
    - apply Qabs_Qle_condition. lra. }
  assert (S2 : fdiv (fadd mn mx) 2 = Qred (Qred (mn + mx) / 2)).
  { rewrite S1. unfold fdiv. apply (round64_small _ (A + B) (k + 1)).
    - rewrite Qred_correct, pow2_neg_succ, HA, HB, inject_Z_plus. field.
    - lia.
    - rewrite Qred_correct, Qhalf. apply Qabs_Qle_condition. lra. }
  rewrite S2. split.
  - rewrite !Qred_correct. apply Qhalf.
  - split.
    + apply Qred_complete, Qred_correct.
    + exists (A + B)%Z.
      rewrite !Qred_correct, pow2_neg_succ, HA, HB, inject_Z_plus. field.
Qed.

Lemma axis_lower (lo : Q) (k : Z) (mn mx : Q) :
  axis lo k mn mx -> 0 <= lo -> lo <= 68 -> (0 <= k <= 40)%Z ->
  axis lo (k + 1) mn (fdiv (fadd mn mx) 2).
Proof.
  intros H L0 L1 Hk. destruct (mid_exact lo k mn mx H L0 L1 Hk) as [E D].
  destruct H as [Dn [Dx [H1 [H2 H3]]]]. pose proof (pow2_pos (- k)) as P.
  split; [apply dyadic_succ; exact Dn|]. split; [exact D|].
  split; [exact H1|]. split.
  - rewrite E. lra.
  - rewrite E, pow2_neg_succ, Qhalf. lra.
Qed.

Lemma axis_upper (lo : Q) (k : Z) (mn mx : Q) :
  axis lo k mn mx -> 0 <= lo -> lo <= 68 -> (0 <= k <= 40)%Z ->
  axis lo (k + 1) (fdiv (fadd mn mx) 2) mx.
Proof.
  intros H L0 L1 Hk. destruct (mid_exact lo k mn mx H L0 L1 Hk) as [E D].
  destruct H as [Dn [Dx [H1 [H2 H3]]]]. pose proof (pow2_pos (- k)) as P.
  split; [exact D|]. split; [apply dyadic_succ; exact Dx|].
  split; [|split].
  - rewrite E. lra.
  - exact H2.
  - rewrite E, pow2_neg_succ, Qhalf. lra.
Qed.

Lemma axis_mid (lo : Q) (k : Z) (mn mx : Q) :
  axis lo k mn mx -> 0 <= lo -> lo <= 68 -> (0 <= k <= 40)%Z ->
  mn < fdiv (fadd mn mx) 2 /\ fdiv (fadd mn mx) 2 < mx.
Proof.
  intros H L0 L1 Hk. destruct (mid_exact lo k mn mx H L0 L1 Hk) as [E _].
  destruct H as [_ [_ [H1 [H2 H3]]]]. pose proof (pow2_pos (- k)) as P.
  rewrite E. split; lra.
Qed.

Lemma narrows_refl (b : bisection) : narrows b b.
Proof. unfold narrows. repeat split; apply Qle_refl. Qed.

Lemma narrows_trans (a b c : bisection) :
  narrows a b -> narrows b c -> narrows a c.
Proof. unfold narrows. intros [? [? [? ?]]] [? [? [? ?]]]. repeat split; lra. Qed.

Lemma exact_start : exact 0 0 start.
Proof.
  unfold exact, axis, dyadic, start. cbn [lonMin lonMax latMin latMax evenBit].
  repeat split; try reflexivity; try (apply Qle_refl); try lra; try lia.
  - exists 68%Z. reflexivity.
  - exists 98%Z. reflexivity.
  - exists 6%Z. reflexivity.
  - exists 36%Z. reflexivity.
Qed.

Lemma exact_bounds (kx ky : Z) (b : bisection) :
  exact kx ky b -> (ky <= kx <= ky + 1)%Z.
Proof. intros [_ [_ [_ H]]]. destruct (evenBit b); lia. Qed.

(** One bit of [bounds] keeps the rectangle exact and inside the old one. *)
Lemma bounds_bit_exact (bitN kx ky : Z) (b : bisection) :
  exact kx ky b -> (kx <= 40)%Z ->
  exact (if evenBit b then kx + 1 else kx) (if evenBit b then ky else ky + 1)
        (bounds_bit bitN b)
  /\ narrows b (bounds_bit bitN b).
Proof.
  intros [Hx [Hy [H0 Hk]]] Hle. unfold bounds_bit.
  destruct (evenBit b) eqn:Ev.
  - assert (K : (0 <= kx <= 40)%Z) by lia.
    destruct (axis_mid _ _ _ _ Hx ltac:(lra) ltac:(lra) K) as [M1 M2].
    destruct (bitN =? 1)%Z; unfold exact, narrows, flip, set_lonMin, set_lonMax;
      cbn [lonMin lonMax latMin latMax evenBit]; rewrite Ev; cbn [negb].
    + split; [split; [apply axis_upper; assumption || lra|]|].
      * split; [exact Hy|]. split; [exact H0|lia].
      * repeat split; lra.
    + split; [split; [apply axis_lower; assumption || lra|]|].
      * split; [exact Hy|]. split; [exact H0|lia].
      * repeat split; lra.
  - assert (K : (0 <= ky <= 40)%Z) by lia.
    destruct (axis_mid _ _ _ _ Hy ltac:(lra) ltac:(lra) K) as [M1 M2].
    destruct (bitN =? 1)%Z; unfold exact, narrows, flip, set_latMin, set_latMax;
      cbn [lonMin lonMax latMin latMax evenBit]; rewrite Ev; cbn [negb].
    + split; [split; [exact Hx|]|].
      * split; [apply axis_upper; assumption || lra|]. split; lia.
      * repeat split; lra.
    + split; [split; [exact Hx|]|].
      * split; [apply axis_lower; assumption || lra|]. split; lia.
      * repeat split; lra.
Qed.

Lemma bounds_bits_exact (k : nat) (idx kx ky : Z) (b : bisection) :
  exact kx ky b -> (kx + Z.of_nat k <= 41)%Z ->
  exists kx' ky',
    exact kx' ky' (bounds_bits k idx b) /\ narrows b (bounds_bits k idx b) /\
    (kx' + ky' = kx + ky + Z.of_nat k)%Z.
Proof.
  revert kx ky b. induction k as [|k IH]; intros kx ky b He Hle.
  - exists kx, ky. cbn [bounds_bits]. split; [exact He|]. split; [apply narrows_refl|lia].
  - cbn [bounds_bits].
    destruct (bounds_bit_exact (Z.land (Z.shiftr idx (Z.of_nat k)) 1) kx ky b He ltac:(lia))
      as [He1 Hn1].
    pose proof (exact_bounds _ _ _ He) as Hb.
    destruct (IH _ _ _ He1 ltac:(destruct (evenBit b); lia)) as [kx' [ky' [He2 [Hn2 Hs]]]].
    exists kx', ky'. split; [exact He2|]. split.
    + eapply narrows_trans; eassumption.
    + destruct (evenBit b); lia.
Qed.

(** One character: four bits, two for each axis. *)
Lemma bounds_char_exact (idx k : Z) (b : bisection) :
  exact k k b -> (k <= 37)%Z ->
  exact (k + 2) (k + 2) (bounds_bits 4 idx b) /\ narrows b (bounds_bits 4 idx b).
Proof.
  intros He Hk.
  destruct (bounds_bits_exact 4 idx k k b He ltac:(lia)) as [kx' [ky' [He' [Hn Hs]]]].
  pose proof (exact_bounds _ _ _ He') as Hb.
  assert (kx' = k + 2 /\ ky' = k + 2)%Z as [-> ->] by lia.
  split; assumption.
Qed.

(** The symbols of the alphabet and their values. *)
Lemma is_hex_index (c : ascii) :
  is_hex c = true ->
  (0 <= indexOf base16 c < 16)%Z /\ lower c = c /\
  charAt base16 (Z.to_nat (indexOf base16 c)) = String c EmptyString.
Proof.
  destruct c as [[] [] [] [] [] [] [] []]; cbv; intros H;
    try discriminate H; repeat split; congruence.
Qed.

Lemma bounds_chars_exact (h : string) (k : Z) (b : bisection) :
  all_hex h = true -> exact k k b ->
  (k + 2 * Z.of_nat (String.length h) <= 39)%Z ->
  exists bf, bounds_chars h b = Return bf /\
    exact (k + 2 * Z.of_nat (String.length h)) (k + 2 * Z.of_nat (String.length h)) bf /\
    narrows b bf.
Proof.
  revert k b. induction h as [|c h IH]; intros k b Hh He Hk.
  - exists b. cbn [bounds_chars String.length]. split; [reflexivity|].
    replace (k + 2 * Z.of_nat 0)%Z with k by lia. split; [exact He|apply narrows_refl].
  - unfold all_hex in Hh. cbn [list_ascii_of_string forallb] in Hh.
    apply andb_prop in Hh. destruct Hh as [Hc Hh].
    cbn [String.length] in Hk |- *.
    destruct (is_hex_index c Hc) as [Hi _].
    cbn [bounds_chars].
    destruct (Z.eqb_spec (indexOf base16 c) (-1)) as [E|_]; [lia|].
    destruct (bounds_char_exact (indexOf base16 c) k b He ltac:(lia)) as [He1 Hn1].
    destruct (IH (k + 2)%Z _ Hh He1 ltac:(lia)) as [bf [E [He2 Hn2]]].
    exists bf. split; [exact E|]. split.
    + replace (k + 2 * Z.of_nat (S (String.length h)))%Z
        with (k + 2 + 2 * Z.of_nat (String.length h))%Z by lia. exact He2.
    + eapply narrows_trans; eassumption.
Qed.

Lemma toLowerCase_hex (h : string) : all_hex h = true -> toLowerCase h = h.
Proof.
  unfold all_hex. induction h as [|c h IH]; cbn [list_ascii_of_string forallb toLowerCase].
  - reflexivity.
  - intros H. apply andb_prop in H. destruct H as [Hc Hh].
    destruct (is_hex_index c Hc) as [_ [-> _]]. rewrite (IH Hh). reflexivity.
Qed.

Lemma valid_geohash_inv (h : string) :
  valid_geohash h = true ->
  (1 <= String.length h <= 12)%nat /\ all_hex h = true.
Proof.
  unfold valid_geohash. intros H.
  apply andb_prop in H. destruct H as [H H3].
  apply andb_prop in H. destruct H as [H1 H2].
  apply Nat.leb_le in H1. apply Nat.leb_le in H2. auto.
Qed.

(** [bounds] on symbols of the alphabet, while the bisection is exact. *)
Lemma bounds_hex (h : string) :
  all_hex h = true -> (1 <= String.length h <= 19)%nat ->
  exists bf, bounds h = Return (cell_of bf) /\
    bounds_chars h start = Return bf /\
    exact (2 * Z.of_nat (String.length h)) (2 * Z.of_nat (String.length h)) bf.
Proof.
  intros Hh Hl.
  destruct (bounds_chars_exact h 0 start Hh exact_start ltac:(lia)) as [bf [E [He _]]].
  exists bf. split; [|split; [exact E|exact He]].
  unfold bounds. destruct (Nat.eqb_spec (String.length h) 0) as [E0|_]; [lia|].
  rewrite (toLowerCase_hex h Hh), E. reflexivity.
Qed.

Lemma axis_span (lo : Q) (k : Z) (mn mx : Q) :
  axis lo k mn mx -> mx - mn == 30 * 2 ^ (- k) /\ mn < mx.
Proof.
  intros [_ [_ [_ [_ H]]]]. split; [exact H|].
  pose proof (pow2_pos (- k)). lra.
Qed.

Lemma bounds_chars_app (h1 h2 : string) (b : bisection) :
  bounds_chars (h1 ++ h2) b = bind (bounds_chars h1 b) (bounds_chars h2).
Proof.
  revert b. induction h1 as [|c h1 IH]; intros b; cbn [append bounds_chars].
  - reflexivity.
  - destruct (indexOf base16 c =? -1)%Z; [reflexivity|apply IH].
Qed.

Lemma substring_all (h : string) : substring 0 (String.length h) h = h.
Proof. induction h as [|c h IH]; cbn; [reflexivity|]. f_equal. exact IH. Qed.

Lemma substring_split (k : nat) (h : string) :
  (k <= String.length h)%nat ->
  h = (substring 0 k h ++ substring k (String.length h - k) h)%string.
Proof.
  revert h. induction k as [|k IH]; intros h Hk.
  - rewrite Nat.sub_0_r, substring_all. destruct h; reflexivity.
  - destruct h as [|c h]; cbn [String.length] in Hk; [lia|].
    cbn [substring String.length append Nat.sub]. f_equal. apply IH. lia.
Qed.

Lemma all_hex_app (h1 h2 : string) :
  all_hex (h1 ++ h2) = all_hex h1 && all_hex h2.
Proof.
  unfold all_hex. induction h1 as [|c h1 IH]; cbn [append list_ascii_of_string forallb].
  - reflexivity.
  - rewrite IH. apply andb_assoc.
Qed.

Lemma length_app (h1 h2 : string) :
  String.length (h1 ++ h2) = (String.length h1 + String.length h2)%nat.
Proof. induction h1 as [|c h1 IH]; cbn; [reflexivity|]. f_equal. exact IH. Qed.

Lemma length_substring_0 (k : nat) (h : string) :
  (k <= String.length h)%nat -> String.length (substring 0 k h) = k.
Proof.
  revert h. induction k as [|k IH]; intros h Hk.
  - destruct h; reflexivity.
  - destruct h as [|c h]; cbn [String.length] in Hk; [lia|].
    cbn [substring String.length]. f_equal. apply IH. lia.
Qed.

(** C9. For every geohash of one to twelve symbols, [bounds] returns a
    cell whose south-west corner is strictly below and to the left of its
    north-east corner; the empty string is rejected. *)
Theorem C9_bounds_corners_strictly_ordered :
  (forall h, valid_geohash h = true ->
     exists c, bounds h = Return c /\
       lat (sw c) < lat (ne c) /\ lon (sw c) < lon (ne c)) /\
  bounds EmptyString = Throw Invalid_geohash.
Proof.
  split; [|reflexivity].
  intros h Hv. destruct (valid_geohash_inv h Hv) as [Hl Hh].
  destruct (bounds_hex h Hh ltac:(lia)) as [bf [E [_ [Hx [Hy _]]]]].
  exists (cell_of bf). split; [exact E|].
  cbn [cell_of sw ne lat lon]. split.
  - apply (axis_span _ _ _ _ Hy).
  - apply (axis_span _ _ _ _ Hx).
Qed.

Lemma C9_bounds_corners_strictly_ordered_witness :
  valid_geohash "3d3d" = true /\
  exists c, bounds "3d3d" = Return c /\
    lat (sw c) < lat (ne c) /\ lon (sw c) < lon (ne c).
Proof.
  split; [reflexivity|].
  apply (proj1 C9_bounds_corners_strictly_ordered "3d3d"). reflexivity.
Defined.

(** C8. The cell of a geohash lies within the cell of each of its proper
    prefixes and is strictly smaller in both directions. *)
Theorem C8_bounds_prefix_nesting (h : string) (k : nat) :
  valid_geohash h = true -> (1 <= k < String.length h)%nat ->
  exists c p,
    bounds h = Return c /\ bounds (substring 0 k h) = Return p /\
    within c p /\ lat_span c < lat_span p /\ lon_span c < lon_span p.
Proof.
  intros Hv Hk. destruct (valid_geohash_inv h Hv) as [Hl Hh].
  pose proof (substring_split k h ltac:(lia)) as Hs.
  set (pre := substring 0 k h) in *. set (suf := substring k (String.length h - k) h) in *.
  assert (Lp : String.length pre = k) by (apply length_substring_0; lia).
  assert (Ll : String.length h = (k + String.length suf)%nat).
  { rewrite Hs at 1. rewrite length_app, Lp. reflexivity. }
  assert (Hps : all_hex pre = true /\ all_hex suf = true).
  { rewrite Hs, all_hex_app in Hh. apply andb_prop in Hh. exact Hh. }
  destruct Hps as [Hp Hsf].
  destruct (bounds_hex pre Hp ltac:(lia)) as [bp [Ep [Cp Xp]]].
  destruct (bounds_chars_exact suf _ bp Hsf Xp ltac:(lia)) as [bf [Cf [Xf Nf]]].
  assert (Eh : bounds h = Return (cell_of bf)).
  { unfold bounds. destruct (Nat.eqb_spec (String.length h) 0) as [E0|_]; [lia|].
    rewrite (toLowerCase_hex h Hh). rewrite Hs at 1.
    rewrite bounds_chars_app, Cp. cbn [bind]. rewrite Cf. reflexivity. }
  exists (cell_of bf), (cell_of bp). split; [exact Eh|]. split; [exact Ep|].
  destruct Nf as [N1 [N2 [N3 N4]]].
  split; [unfold within; cbn [cell_of sw ne lat lon]; auto|].
  destruct Xp as [Px [Py _]]. destruct Xf as [Fx [Fy _]].
  destruct (axis_span _ _ _ _ Px) as [Sx _]. destruct (axis_span _ _ _ _ Py) as [Sy _].
  destruct (axis_span _ _ _ _ Fx) as [Tx _]. destruct (axis_span _ _ _ _ Fy) as [Ty _].
  assert (P : 2 ^ (- (2 * Z.of_nat (String.length pre) + 2 * Z.of_nat (String.length suf)))
              < 2 ^ (- (2 * Z.of_nat (String.length pre)))).
  { apply Qpower_lt_compat_l; [lia|reflexivity]. }
  unfold lat_span, lon_span. cbn [cell_of sw ne lat lon].
  rewrite Sx, Sy, Tx, Ty. split; lra.
Qed.

Lemma C8_bounds_prefix_nesting_witness :
  exists c p,
    bounds "3d3d" = Return c /\ bounds (substring 0 2 "3d3d") = Return p /\
    within c p /\ lat_span c < lat_span p /\ lon_span c < lon_span p.
Proof.
  apply (C8_bounds_prefix_nesting "3d3d" 2); [reflexivity|cbn; lia].
Defined.

(** Past the twelve symbols of a geohash binary64 runs out of bits: after
    twenty-seven symbols the two corners coincide. *)
Example bounds_of_twenty_seven_symbols :
  bounds "555555555555555555555555555" =
  Return {| sw := {| lat := 36; lon := 68 |}; ne := {| lat := 36; lon := 68 |} |}.
Proof. vm_compute. reflexivity. Qed.

(** ** Which strings [bounds] and [decode] reject *)

Lemma is_hex_ci_index (c : ascii) :
  is_hex_ci c = negb (indexOf base16 (lower c) =? -1)%Z.
Proof. destruct c as [[] [] [] [] [] [] [] []]; reflexivity. Qed.

Lemma bounds_chars_outcome (h : string) (b : bisection) :
  if forallb is_hex_ci (list_ascii_of_string h)
  then exists bf, bounds_chars (toLowerCase h) b = Return bf
  else bounds_chars (toLowerCase h) b = Throw Invalid_geohash.
Proof.
  revert b. induction h as [|c h IH]; intros b;
    cbn [list_ascii_of_string forallb toLowerCase bounds_chars].
  - exists b. reflexivity.
  - rewrite is_hex_ci_index.
    destruct (indexOf base16 (lower c) =? -1)%Z; cbn [negb andb]; [reflexivity|apply IH].
Qed.

Lemma bounds_outcome (h : string) :
  if accepted h then exists c, bounds h = Return c
  else bounds h = Throw Invalid_geohash.
Proof.
  unfold accepted, bounds.
  destruct (String.length h =? 0)%nat; cbn [negb andb]; [reflexivity|].
  pose proof (bounds_chars_outcome h start) as H.
  destruct (forallb is_hex_ci (list_ascii_of_string h)).
  - destruct H as [bf ->]. cbn [bind]. eexists. reflexivity.
  - rewrite H. reflexivity.
Qed.

Lemma toFixed_outcome (x : Q) (d : number) :
  (exists s, toFixed x d = Return s) \/ (exists m, toFixed x d = Throw (RangeError m)).
Proof.
  unfold toFixed. destruct (toInteger d) as [f|]; [|right; eexists; reflexivity].
  destruct ((f <? 0)%Z || (100 <? f)%Z); [right|left]; eexists; reflexivity.
Qed.

Lemma decode_outcome (h : string) :
  if accepted h
  then (exists p, decode h = Return p) \/ (exists m, decode h = Throw (RangeError m))
  else decode h = Throw Invalid_geohash.
Proof.
  unfold decode. pose proof (bounds_outcome h) as H.
  destruct (accepted h).
  - destruct H as [c ->]. cbn [bind].
    destruct (toFixed_outcome (fdiv (fadd (lat (sw c)) (lat (ne c))) 2)
                (floor_2_minus_log10 (fsub (lat (ne c)) (lat (sw c)))))
      as [[s1 ->]|[m ->]]; cbn [bind]; [|right; eexists; reflexivity].
    destruct (toFixed_outcome (fdiv (fadd (lon (sw c)) (lon (ne c))) 2)
                (floor_2_minus_log10 (fsub (lon (ne c)) (lon (sw c)))))
      as [[s2 ->]|[m ->]]; cbn [bind]; [left|right]; eexists; reflexivity.
  - rewrite H. reflexivity.
Qed.

(** ** The loop of [encode] *)

Lemma encode_step_eq (lat lon : number) (s : encoder) :
  encode_step lat lon s =
  let bitN := bit_of (decision lat lon (area s)) in
  if (bit s + 1 =? 4)%Z
  then {| idx := 0; bit := 0;
          geohash := geohash s ++ charAt base16 (Z.to_nat (idx s * 2 + bitN));
          area := bounds_bit bitN (area s) |}
  else {| idx := idx s * 2 + bitN; bit := bit s + 1; geohash := geohash s;
          area := bounds_bit bitN (area s) |}.
Proof.
  unfold encode_step, decision, bounds_bit.
  destruct (evenBit (area s)).
  - destruct (greater lon _); cbn [bit_of Z.eqb Pos.eqb]; rewrite ?Z.add_0_r; reflexivity.
  - destruct (greater lat _); cbn [bit_of Z.eqb Pos.eqb]; rewrite ?Z.add_0_r; reflexivity.
Qed.

Lemma charAt_base16 (i : Z) :
  (0 <= i < 16)%Z ->
  exists c, is_hex c = true /\ charAt base16 (Z.to_nat i) = String c EmptyString /\
            indexOf base16 c = i.
Proof.
  intros H.
  assert (C : (i = 0 \/ i = 1 \/ i = 2 \/ i = 3 \/ i = 4 \/ i = 5 \/ i = 6 \/ i = 7 \/
               i = 8 \/ i = 9 \/ i = 10 \/ i = 11 \/ i = 12 \/ i = 13 \/ i = 14 \/
               i = 15)%Z) by lia.
  repeat (destruct C as [-> | C]); try subst i;
    eexists; (split; [|split; [reflexivity|]]); reflexivity.
Qed.

Lemma bit_of_range (d : bool) : (0 <= bit_of d <= 1)%Z.
Proof. destruct d; cbn; lia. Qed.

Lemma encode_step_partial (lat lon : number) (s : encoder) :
  partial s -> partial (encode_step lat lon s).
Proof.
  intros [Hb Hi]. rewrite encode_step_eq. cbv zeta.
  pose proof (bit_of_range (decision lat lon (area s))) as Hd.
  unfold partial.
  destruct (Z.eqb_spec (bit s + 1) 4) as [E|E]; cbn [idx bit].
  - cbn. lia.
  - split; [lia|]. rewrite Z.pow_add_r by lia. change (2 ^ 1)%Z with 2%Z. lia.
Qed.

Lemma encode_step_length (lat lon : number) (s : encoder) :
  partial s ->
  String.length (geohash (encode_step lat lon s)) =
  (if (bit s + 1 =? 4)%Z then S (String.length (geohash s)) else String.length (geohash s)).
Proof.
  intros [Hb Hi]. rewrite encode_step_eq. cbv zeta.
  pose proof (bit_of_range (decision lat lon (area s))) as Hd.
  destruct (Z.eqb_spec (bit s + 1) 4) as [E|E]; cbn [geohash]; [|reflexivity].
  assert (B : bit s = 3%Z) by lia. rewrite B in Hi. change (2 ^ 3)%Z with 8%Z in Hi.
  destruct (charAt_base16 (idx s * 2 + bit_of (decision lat lon (area s))) ltac:(lia))
    as [c [_ [-> _]]].
  rewrite length_app. cbn. lia.
Qed.

Lemma shorter_spec (g : string) (q : Q) :
  shorter g (Fin q) = (String.length g <? Z.to_nat (Qceiling q))%nat.
Proof.
  unfold shorter, less, greater.
  destruct (Nat.ltb_spec (String.length g) (Z.to_nat (Qceiling q))) as [H|H].
  - destruct (Qle_bool q (inject_Z (Z.of_nat (String.length g)))) eqn:E; [|reflexivity].
    apply Qle_bool_iff in E. apply Qceiling_resp_le in E. rewrite Qceiling_Z in E. lia.
  - destruct (Qle_bool q (inject_Z (Z.of_nat (String.length g)))) eqn:E; [reflexivity|].
    exfalso. assert (F : q <= inject_Z (Z.of_nat (String.length g))).
    { eapply Qle_trans; [apply Qle_ceiling|]. rewrite <- Zle_Qle. lia. }
    apply Qle_bool_iff in F. congruence.
Qed.

(** The loop ends after four iterations for each missing character. *)
Lemma encode_loop_run (lat lon : number) (q : Q) (r : nat) (s : encoder) :
  partial s ->
  (Z.of_nat r =
   4 * (Z.of_nat (Z.to_nat (Qceiling q)) - Z.of_nat (String.length (geohash s))) - bit s)%Z ->
  encode_loop r lat lon (Fin q) s = Some (geohash (steps r lat lon s)).
Proof.
  revert s. induction r as [|r IH]; intros s Hp Hr.
  - cbn [encode_loop steps]. rewrite shorter_spec.
    destruct Hp as [Hb _].
    destruct (Nat.ltb_spec (String.length (geohash s)) (Z.to_nat (Qceiling q))); [lia|].
    reflexivity.
  - cbn [encode_loop steps]. rewrite shorter_spec.
    pose proof Hp as [Hb _].
    destruct (Nat.ltb_spec (String.length (geohash s)) (Z.to_nat (Qceiling q))); [|lia].
    apply IH; [apply encode_step_partial; exact Hp|].
    rewrite (encode_step_length lat lon s Hp).
    rewrite encode_step_eq. cbv zeta.
    destruct (Z.eqb_spec (bit s + 1) 4); cbn [bit]; lia.
Qed.

(** More fuel does not change what the loop returns. *)
Lemma encode_loop_more_fuel (lat lon precision : number) (r r' : nat)
      (s : encoder) (g : string) :
  encode_loop r lat lon precision s = Some g -> (r <= r')%nat ->
  encode_loop r' lat lon precision s = Some g.
Proof.
  revert r' s. induction r as [|r IH]; intros r' s H Hr.
  - destruct r'; cbn [encode_loop] in H |- *;
      destruct (shorter (geohash s) precision); congruence.
  - destruct r' as [|r']; [lia|]. cbn [encode_loop] in H |- *.
    destruct (shorter (geohash s) precision); [|exact H].
    apply IH; [exact H|lia].
Qed.

Lemma partial_start : partial encoder_start.
Proof. unfold partial. cbn. lia. Qed.

(** With a finite precision [encode] returns what the iterations built. *)
Lemma encode_to_finite (lat lon : number) (q : Q) :
  isNaN lat = false -> isNaN lon = false ->
  encode_to lat lon (Fin q) =
  Return (geohash (steps (4 * Z.to_nat (Qceiling q)) lat lon encoder_start)).
Proof.
  intros H1 H2. unfold encode_to. rewrite H1, H2. cbn [isNaN orb iterations].
  rewrite (encode_loop_run lat lon q _ encoder_start partial_start); [reflexivity|].
  cbn [encoder_start geohash bit String.length]. lia.
Qed.

Lemma steps_add (r1 r2 : nat) (lat lon : number) (s : encoder) :
  steps (r1 + r2) lat lon s = steps r2 lat lon (steps r1 lat lon s).
Proof.
  revert s. induction r1 as [|r1 IH]; intros s; cbn [Nat.add steps]; [reflexivity|apply IH].
Qed.

(** Four iterations from a character boundary append one character. *)
Lemma steps_four (lat lon : number) (s : encoder) :
  bit s = 0%Z -> idx s = 0%Z ->
  let q3 := bit_of (decision lat lon (area s)) in
  let b1 := bounds_bit q3 (area s) in
  let q2 := bit_of (decision lat lon b1) in
  let b2 := bounds_bit q2 b1 in
  let q1 := bit_of (decision lat lon b2) in
  let b3 := bounds_bit q1 b2 in
  let q0 := bit_of (decision lat lon b3) in
  let b4 := bounds_bit q0 b3 in
  steps 4 lat lon s =
  {| idx := 0; bit := 0;
     geohash := geohash s ++ charAt base16 (Z.to_nat (((q3 * 2 + q2) * 2 + q1) * 2 + q0));
     area := b4 |}.
Proof.
  intros Hb Hi. cbv zeta. cbn [steps].
  rewrite (encode_step_eq lat lon s). cbv zeta. rewrite Hb, Hi.
  cbn [Z.add Z.eqb Pos.eqb Z.mul Pos.add].
  rewrite encode_step_eq. cbv zeta. cbn [idx bit geohash area Z.add Z.eqb Pos.eqb Pos.add].
  rewrite encode_step_eq. cbv zeta. cbn [idx bit geohash area Z.add Z.eqb Pos.eqb Pos.add Pos.succ].
  rewrite encode_step_eq. cbv zeta. cbn [idx bit geohash area Z.add Z.eqb Pos.eqb Pos.add Pos.succ].
  reflexivity.
Qed.

Lemma char_of_bits (q3 q2 q1 q0 : bool) (b : bisection) :
  exists c, is_hex c = true /\
    charAt base16
      (Z.to_nat (((bit_of q3 * 2 + bit_of q2) * 2 + bit_of q1) * 2 + bit_of q0)) =
    String c EmptyString /\
    bounds_bits 4 (indexOf base16 c) b =
    bounds_bit (bit_of q0) (bounds_bit (bit_of q1) (bounds_bit (bit_of q2)
      (bounds_bit (bit_of q3) b))).
Proof.
  destruct q3, q2, q1, q0; eexists; (split; [|split; [reflexivity|]]); reflexivity.
Qed.

Lemma steps_char (lat lon : number) (s : encoder) :
  bit s = 0%Z -> idx s = 0%Z ->
  exists c, is_hex c = true /\
    steps 4 lat lon s =
    {| idx := 0; bit := 0; geohash := geohash s ++ String c EmptyString;
       area := bounds_bits 4 (indexOf base16 c) (area s) |}.
Proof.
  intros Hb Hi. rewrite (steps_four lat lon s Hb Hi). cbv zeta.
  match goal with
  | |- context [Z.to_nat (((bit_of ?q3 * 2 + bit_of ?q2) * 2 + bit_of ?q1) * 2
                          + bit_of ?q0)] =>
      destruct (char_of_bits q3 q2 q1 q0 (area s)) as [c [Hc [E1 E2]]]
  end.
  exists c. split; [exact Hc|]. rewrite E1, E2. reflexivity.
Qed.

Lemma append_assoc (a b c : string) : ((a ++ b) ++ c = a ++ (b ++ c))%string.
Proof. induction a as [|x a IH]; cbn; [reflexivity|]. f_equal. exact IH. Qed.

Lemma append_nil_r (a : string) : (a ++ EmptyString)%string = a.
Proof. induction a as [|x a IH]; cbn; [reflexivity|]. f_equal. exact IH. Qed.

(** [4 * m] iterations append [m] symbols; [bounds] reads them back to the
    rectangle that [encode] reached. *)
Lemma steps_chars (lat lon : number) (m : nat) (s : encoder) :
  bit s = 0%Z -> idx s = 0%Z ->
  exists suffix,
    all_hex suffix = true /\ String.length suffix = m /\
    geohash (steps (4 * m) lat lon s) = (geohash s ++ suffix)%string /\
    bounds_chars suffix (area s) = Return (area (steps (4 * m) lat lon s)).
Proof.
  revert s. induction m as [|m IH]; intros s Hb Hi.
  - exists EmptyString. cbn [Nat.mul steps]. rewrite append_nil_r. repeat split; reflexivity.
  - replace (4 * S m)%nat with (4 + 4 * m)%nat by lia. rewrite steps_add.
    destruct (steps_char lat lon s Hb Hi) as [c [Hc E]].
    destruct (IH (steps 4 lat lon s)) as [suffix [H1 [H2 [H3 H4]]]];
      [rewrite E; reflexivity|rewrite E; reflexivity|].
    assert (G : geohash (steps 4 lat lon s) = (geohash s ++ String c EmptyString)%string)
      by (rewrite E; reflexivity).
    assert (A : area (steps 4 lat lon s) = bounds_bits 4 (indexOf base16 c) (area s))
      by (rewrite E; reflexivity).
    rewrite G in H3. rewrite A in H4.
    exists (String c suffix). split; [|split; [|split]].
    + unfold all_hex in *. cbn [list_ascii_of_string forallb]. rewrite Hc, H1. reflexivity.
    + cbn [String.length]. rewrite H2. reflexivity.
    + rewrite H3, append_assoc. reflexivity.
    + cbn [bounds_chars]. destruct (is_hex_index c Hc) as [Hr _].
      destruct (Z.eqb_spec (indexOf base16 c) (-1)); [lia|]. exact H4.
Qed.

(** ** The encoded cell contains the point *)

Lemma area_step (lat lon : number) (s : encoder) :
  area (encode_step lat lon s) =
  bounds_bit (bit_of (decision lat lon (area s))) (area s).
Proof.
  rewrite encode_step_eq. cbv zeta. destruct (bit s + 1 =? 4)%Z; reflexivity.
Qed.

Lemma greater_true (q y : Q) : greater (Fin q) y = true -> y < q.
Proof.
  unfold greater. intros H. apply negb_true_iff in H.
  apply Qnot_le_lt. intro L. apply Qle_bool_iff in L. congruence.
Qed.

Lemma greater_false (q y : Q) : greater (Fin q) y = false -> q <= y.
Proof.
  unfold greater. intros H. apply negb_false_iff in H. apply Qle_bool_iff. exact H.
Qed.

Lemma contains_step (y x : Q) (b : bisection) :
  contains (cell_of b) y x ->
  contains (cell_of (bounds_bit (bit_of (decision (Fin y) (Fin x) b)) b)) y x.
Proof.
  unfold contains, decision, bounds_bit. cbn [cell_of sw ne lat lon].
  intros [[H1 H2] [H3 H4]].
  destruct (evenBit b).
  - destruct (greater (Fin x) _) eqn:G; cbn [bit_of Z.eqb Pos.eqb];
      unfold flip, set_lonMin, set_lonMax; cbn [latMin latMax lonMin lonMax];
      [apply greater_true in G|apply greater_false in G]; repeat split; lra.
  - destruct (greater (Fin y) _) eqn:G; cbn [bit_of Z.eqb Pos.eqb];
      unfold flip, set_latMin, set_latMax; cbn [latMin latMax lonMin lonMax];
      [apply greater_true in G|apply greater_false in G]; repeat split; lra.
Qed.

Lemma contains_steps (y x : Q) (r : nat) (s : encoder) :
  contains (cell_of (area s)) y x ->
  contains (cell_of (area (steps r (Fin y) (Fin x) s))) y x.
Proof.
  revert s. induction r as [|r IH]; intros s H; cbn [steps]; [exact H|].
  apply IH. rewrite area_step. apply contains_step. exact H.
Qed.

(** [encode] to [k] symbols, read back by [bounds]. *)
Lemma encode_then_bounds (lat lon : number) (k : nat) :
  isNaN lat = false -> isNaN lon = false -> (1 <= k)%nat ->
  exists h,
    encode lat lon (Some (Fin (inject_Z (Z.of_nat k)))) = Return h /\
    all_hex h = true /\ String.length h = k /\
    bounds h = Return (cell_of (area (steps (4 * k) lat lon encoder_start))).
Proof.
  intros H1 H2 Hk. cbn [encode]. rewrite (encode_to_finite lat lon _ H1 H2).
  rewrite Qceiling_Z, Nat2Z.id.
  destruct (steps_chars lat lon k encoder_start eq_refl eq_refl) as [h [A [B [C D]]]].
  cbn [encoder_start geohash area append] in C, D.
  exists h. rewrite C. split; [reflexivity|]. split; [exact A|]. split; [exact B|].
  unfold bounds. destruct (Nat.eqb_spec (String.length h) 0); [lia|].
  rewrite (toLowerCase_hex h A), D. reflexivity.
Qed.

(** C2. For a precision from 1 to 12 and a point of the working domain,
    the rectangle that [bounds] returns for the encoded hash contains the
    point. *)
Theorem C2_bounds_of_encode_contains (p : Z) (y x : Q) :
  (1 <= p <= 12)%Z -> 6 <= y <= 36 -> 68 <= x <= 98 ->
  exists h c,
    encode (Fin y) (Fin x) (Some (Fin (inject_Z p))) = Return h /\
    bounds h = Return c /\ contains c y x.
Proof.
  intros Hp Hy Hx.
  destruct (encode_then_bounds (Fin y) (Fin x) (Z.to_nat p) eq_refl eq_refl ltac:(lia))
    as [h [E [_ [_ B]]]].
  rewrite Z2Nat.id in E by lia.
  exists h. eexists. split; [exact E|]. split; [exact B|].
  apply contains_steps. unfold contains. cbn. lra.
Qed.

Lemma C2_bounds_of_encode_contains_witness :
  exists h c,
    encode (Fin 20) (Fin 80) (Some (Fin (inject_Z 4))) = Return h /\
    bounds h = Return c /\ contains c 20 80.
Proof.
  apply (C2_bounds_of_encode_contains 4 20 80); [lia| |]; split; discriminate.
Defined.

(** C6. In any iteration of [encode], a coordinate equal to the midpoint of
    the active axis gives bit 0: [idx] is doubled and nothing is added, and
    the upper bound of that axis becomes the midpoint. *)
Theorem C6_midpoint_is_below (lat lon : number) (s : encoder) :
  let b := area s in
  let mid := if evenBit b then fdiv (fadd (lonMin b) (lonMax b)) 2
             else fdiv (fadd (latMin b) (latMax b)) 2 in
  equal mid (if evenBit b then lon else lat) = true ->
  let b' := flip (if evenBit b then set_lonMax mid b else set_latMax mid b) in
  encode_step lat lon s =
  if (bit s + 1 =? 4)%Z
  then {| idx := 0; bit := 0;
          geohash := geohash s ++ charAt base16 (Z.to_nat (idx s * 2));
          area := b' |}
  else {| idx := idx s * 2; bit := bit s + 1; geohash := geohash s; area := b' |}.
Proof.
  cbv zeta. intros H. unfold encode_step.
  destruct (evenBit (area s)).
  - destruct lon as [| |q]; cbn [equal] in H; try discriminate H.
    apply Qeq_bool_iff in H.
    assert (G : greater (Fin q) (fdiv (fadd (lonMin (area s)) (lonMax (area s))) 2) = false).
    { unfold greater. apply negb_false_iff, Qle_bool_iff. rewrite H. apply Qle_refl. }
    rewrite G. reflexivity.
  - destruct lat as [| |q]; cbn [equal] in H; try discriminate H.
    apply Qeq_bool_iff in H.
    assert (G : greater (Fin q) (fdiv (fadd (latMin (area s)) (latMax (area s))) 2) = false).
    { unfold greater. apply negb_false_iff, Qle_bool_iff. rewrite H. apply Qle_refl. }
    rewrite G. reflexivity.
Qed.

Lemma C6_midpoint_is_below_witness :
  encode_step (Fin 21) (Fin 83) encoder_start =
  {| idx := 0; bit := 1; geohash := EmptyString;
     area := {| evenBit := false; latMin := 6; latMax := 36;
                lonMin := 68; lonMax := 83 |} |}.
Proof.
  apply (C6_midpoint_is_below (Fin 21) (Fin 83) encoder_start). reflexivity.
Defined.

(** ** [decode] on a geohash: the rounded centre stays inside the cell *)

(** The number of decimals for each length, and the room that rounding to
    them and back to binary64 leaves inside half a cell. *)
Lemma digits_table (L : nat) :
  (1 <= L <= 12)%nat ->
  exists d : Z,
    toInteger (floor_2_minus_log10 (Qred (30 * 2 ^ (- (2 * Z.of_nat L))))) = Some d /\
    (0 <= d <= 100)%Z /\
    (1 # 2) * / 10 ^ d + 2 ^ (-47) < 30 * 2 ^ (- (2 * Z.of_nat L)) * (1 # 2).
Proof.
  intros H.
  destruct L as [|L]; [lia|].
  do 12 (destruct L as [|L]; [eexists; split; [vm_compute; reflexivity|];
                              split; [lia|vm_compute; reflexivity]|]).
  lia.
Qed.

(** Rounding the centre [c] of [mn, mx] to [d] decimals. *)
Lemma toFixed_inside (mn mx c : Q) (dn : number) (d : Z) :
  toInteger dn = Some d -> (0 <= d <= 100)%Z ->
  6 <= mn -> mx <= 98 -> c == (mn + mx) * (1 # 2) ->
  (1 # 2) * / 10 ^ d + 2 ^ (-47) < (mx - mn) * (1 # 2) ->
  exists s, toFixed c dn = Return s /\ mn < Number s /\ Number s < mx.
Proof.
  intros Hd Hr H6 H98 Hc Hm. unfold toFixed. rewrite Hd.
  destruct (Z.ltb_spec d 0); [lia|]. destruct (Z.ltb_spec 100 d); [lia|]. cbn [orb].
  pose proof (pow10_pos d) as P10.
  assert (Pinv : 0 < / 10 ^ d) by (apply Qinv_lt_0_compat; exact P10).
  assert (P47 : 0 < 2 ^ (-47)) by reflexivity.
  assert (Hc0 : 0 <= c) by (rewrite Hc; lra).
  apply Qle_bool_iff in Hc0. rewrite Hc0.
  eexists. split; [reflexivity|]. unfold Number. cbn [digits fraction].
  set (n := Qfloor (c * 10 ^ d + (1 # 2))).
  pose proof (Qfloor_le (c * 10 ^ d + (1 # 2))) as F1.
  pose proof (Qlt_floor (c * 10 ^ d + (1 # 2))) as F2.
  fold n in F1, F2. rewrite inject_Z_plus in F2. change (inject_Z 1) with 1 in F2.
  set (y := inject_Z n / 10 ^ d).
  assert (Ey : inject_Z n == y * 10 ^ d).
  { unfold y. field. intro Z0. rewrite Z0 in P10. discriminate. }
  assert (I : 10 ^ d * / 10 ^ d == 1).
  { apply Qmult_inv_r. intro Z0. rewrite Z0 in P10. discriminate. }
  rewrite Ey in F1, F2.
  set (t := 10 ^ d) in *. set (u := / t) in *.
  assert (Y1 : y <= c + (1 # 2) * u).
  { setoid_replace y with (y * t * u) by (rewrite <- Qmult_assoc, I; ring).
    setoid_replace (c + (1 # 2) * u) with ((c * t + (1 # 2)) * u)
      by (rewrite Qmult_plus_distr_l, <- Qmult_assoc, I; ring).
    apply Qmult_le_compat_r; [exact F1|lra]. }
  assert (Y2 : c - (1 # 2) * u < y).
  { setoid_replace y with (y * t * u) by (rewrite <- Qmult_assoc, I; ring).
    setoid_replace (c - (1 # 2) * u) with ((c * t + (1 # 2) - 1) * u).
    - apply Qmult_lt_compat_r; [exact Pinv|lra].
    - setoid_replace ((c * t + (1 # 2) - 1) * u) with (c * (t * u) - (1 # 2) * u) by ring.
      rewrite I. ring. }
  destruct (round64_error y) as [R1 R2]; [lra|lra|].
  split; lra.
Qed.

Lemma fsub_exact (lo : Q) (k : Z) (mn mx : Q) :
  axis lo k mn mx -> 0 <= lo -> lo <= 68 -> (0 <= k <= 40)%Z ->
  fsub mx mn = Qred (30 * 2 ^ (- k)).
Proof.
  intros [[_ [A HA]] [[_ [B HB]] [H1 [H2 H3]]]] L0 L1 Hk.
  pose proof (pow2_pos (- k)) as P.
  unfold fsub. rewrite (round64_small _ (B - A) k).
  - apply Qred_complete. exact H3.
  - rewrite HA, HB. unfold Z.sub. rewrite inject_Z_plus, inject_Z_opp. ring.
  - lia.
  - apply Qabs_Qle_condition. lra.
Qed.

Lemma decode_valid (h : string) :
  valid_geohash h = true ->
  exists c p,
    bounds h = Return c /\ decode h = Return p /\
    lat (sw c) < lat p /\ lat p < lat (ne c) /\
    lon (sw c) < lon p /\ lon p < lon (ne c).
Proof.
  intros Hv. destruct (valid_geohash_inv h Hv) as [Hl Hh].
  destruct (bounds_hex h Hh ltac:(lia)) as [bf [E [_ [Hx [Hy _]]]]].
  destruct (digits_table (String.length h) Hl) as [d [Hd [Hr Hm]]].
  set (k := (2 * Z.of_nat (String.length h))%Z) in *.
  assert (Hk : (0 <= k <= 40)%Z) by (unfold k; lia).
  destruct (mid_exact _ _ _ _ Hx ltac:(lra) ltac:(lra) Hk) as [Mx _].
  destruct (mid_exact _ _ _ _ Hy ltac:(lra) ltac:(lra) Hk) as [My _].
  pose proof (fsub_exact _ _ _ _ Hx ltac:(lra) ltac:(lra) Hk) as Sx.
  pose proof (fsub_exact _ _ _ _ Hy ltac:(lra) ltac:(lra) Hk) as Sy.
  destruct (axis_span _ _ _ _ Hx) as [Wx _]. destruct (axis_span _ _ _ _ Hy) as [Wy _].
  pose proof Hx as [_ [_ [X1 [X2 _]]]]. pose proof Hy as [_ [_ [Y1 [Y2 _]]]].
  destruct (toFixed_inside (latMin bf) (latMax bf)
              (fdiv (fadd (latMin bf) (latMax bf)) 2)
              (floor_2_minus_log10 (fsub (latMax bf) (latMin bf))) d)
    as [s1 [T1 [A1 A2]]];
    [rewrite Sy; exact Hd|exact Hr|lra|lra|exact My|rewrite Wy; exact Hm|].
  destruct (toFixed_inside (lonMin bf) (lonMax bf)
              (fdiv (fadd (lonMin bf) (lonMax bf)) 2)
              (floor_2_minus_log10 (fsub (lonMax bf) (lonMin bf))) d)
    as [s2 [T2 [B1 B2]]];
    [rewrite Sx; exact Hd|exact Hr|lra|lra|exact Mx|rewrite Wx; exact Hm|].
  exists (cell_of bf). eexists. split; [exact E|]. split.
  - unfold decode. rewrite E. cbn [bind cell_of sw ne lat lon].
    rewrite T1. cbn [bind]. rewrite T2. cbn [bind]. reflexivity.
  - cbn [cell_of sw ne lat lon]. auto.
Qed.

(** ** Encoding a point of a cell gives the hash of the cell *)

Lemma decision_follow (y x : Q) (bitN : Z) (b bf : bisection) :
  (bitN = 0 \/ bitN = 1)%Z -> narrows (bounds_bit bitN b) bf -> half_open y x bf ->
  bit_of (decision (Fin y) (Fin x) b) = bitN.
Proof.
  unfold narrows, half_open, decision, bounds_bit.
  intros Hb [N1 [N2 [N3 N4]]] [P1 [P2 [P3 P4]]].
  destruct (evenBit b).
  - destruct Hb as [-> | ->]; cbn [Z.eqb Pos.eqb] in *;
      unfold flip, set_lonMin, set_lonMax in *; cbn [latMin latMax lonMin lonMax] in *.
    + destruct (greater (Fin x) _) eqn:G; [apply greater_true in G; lra|reflexivity].
    + destruct (greater (Fin x) _) eqn:G; [reflexivity|apply greater_false in G; lra].
  - destruct Hb as [-> | ->]; cbn [Z.eqb Pos.eqb] in *;
      unfold flip, set_latMin, set_latMax in *; cbn [latMin latMax lonMin lonMax] in *.
    + destruct (greater (Fin y) _) eqn:G; [apply greater_true in G; lra|reflexivity].
    + destruct (greater (Fin y) _) eqn:G; [reflexivity|apply greater_false in G; lra].
Qed.

Lemma follow_four (y x : Q) (q3 q2 q1 q0 k : Z) (b bf : bisection) :
  (q3 = 0 \/ q3 = 1)%Z -> (q2 = 0 \/ q2 = 1)%Z ->
  (q1 = 0 \/ q1 = 1)%Z -> (q0 = 0 \/ q0 = 1)%Z ->
  exact k k b -> (k <= 37)%Z ->
  narrows (bounds_bit q0 (bounds_bit q1 (bounds_bit q2 (bounds_bit q3 b)))) bf ->
  half_open y x bf ->
  bit_of (decision (Fin y) (Fin x) b) = q3 /\
  bit_of (decision (Fin y) (Fin x) (bounds_bit q3 b)) = q2 /\
  bit_of (decision (Fin y) (Fin x) (bounds_bit q2 (bounds_bit q3 b))) = q1 /\
  bit_of (decision (Fin y) (Fin x) (bounds_bit q1 (bounds_bit q2 (bounds_bit q3 b)))) = q0.
Proof.
  intros H3 H2 H1 H0 He Hk Hn Hp.
  pose proof (exact_bounds _ _ _ He) as Bd0.
  destruct (bounds_bit_exact q3 _ _ _ He ltac:(lia)) as [E1 N1].
  pose proof (exact_bounds _ _ _ E1) as Bd1.
  destruct (bounds_bit_exact q2 _ _ _ E1 ltac:(destruct (evenBit b); lia)) as [E2 N2].
  pose proof (exact_bounds _ _ _ E2) as Bd2.
  destruct (bounds_bit_exact q1 _ _ _ E2
              ltac:(destruct (evenBit b), (evenBit (bounds_bit q3 b)); lia)) as [E3 N3].
  pose proof (exact_bounds _ _ _ E3) as Bd3.
  destruct (bounds_bit_exact q0 _ _ _ E3
              ltac:(destruct (evenBit b), (evenBit (bounds_bit q3 b)),
                      (evenBit (bounds_bit q2 (bounds_bit q3 b))); lia)) as [_ N4].
  assert (M3 : narrows (bounds_bit q1 (bounds_bit q2 (bounds_bit q3 b))) bf)
    by (eapply narrows_trans; eassumption).
  assert (M2 : narrows (bounds_bit q2 (bounds_bit q3 b)) bf)
    by (eapply narrows_trans; eassumption).
  assert (M1 : narrows (bounds_bit q3 b) bf)
    by (eapply narrows_trans; eassumption).
  repeat split; eapply decision_follow; eassumption.
Qed.

Lemma bits_of_char (c : ascii) (b : bisection) :
  is_hex c = true ->
  exists q3 q2 q1 q0 : Z,
    (q3 = 0 \/ q3 = 1)%Z /\ (q2 = 0 \/ q2 = 1)%Z /\
    (q1 = 0 \/ q1 = 1)%Z /\ (q0 = 0 \/ q0 = 1)%Z /\
    bounds_bits 4 (indexOf base16 c) b =
    bounds_bit q0 (bounds_bit q1 (bounds_bit q2 (bounds_bit q3 b))) /\
    charAt base16 (Z.to_nat (((q3 * 2 + q2) * 2 + q1) * 2 + q0)) = String c EmptyString.
Proof.
  destruct c as [[] [] [] [] [] [] [] []]; intros H; try discriminate H;
    match type of H with
    | is_hex ?c = true =>
        let q3 := eval vm_compute in (Z.land (Z.shiftr (indexOf base16 c) 3) 1) in
        let q2 := eval vm_compute in (Z.land (Z.shiftr (indexOf base16 c) 2) 1) in
        let q1 := eval vm_compute in (Z.land (Z.shiftr (indexOf base16 c) 1) 1) in
        let q0 := eval vm_compute in (Z.land (Z.shiftr (indexOf base16 c) 0) 1) in
        exists q3, q2, q1, q0
    end;
    (split; [auto|]); (split; [auto|]); (split; [auto|]); (split; [auto|]);
    split; reflexivity.
Qed.

Lemma steps_follow_char (y x : Q) (c : ascii) (k : Z) (s : encoder) (bf : bisection) :
  is_hex c = true -> bit s = 0%Z -> idx s = 0%Z ->
  exact k k (area s) -> (k <= 37)%Z ->
  narrows (bounds_bits 4 (indexOf base16 c) (area s)) bf -> half_open y x bf ->
  steps 4 (Fin y) (Fin x) s =
  {| idx := 0; bit := 0; geohash := geohash s ++ String c EmptyString;
     area := bounds_bits 4 (indexOf base16 c) (area s) |}.
Proof.
  intros Hc Hb Hi He Hk Hn Hp.
  destruct (bits_of_char c (area s) Hc) as [q3 [q2 [q1 [q0 [H3 [H2 [H1 [H0 [Eb Ec]]]]]]]]].
  rewrite Eb in Hn |- *.
  destruct (follow_four y x q3 q2 q1 q0 k (area s) bf H3 H2 H1 H0 He Hk Hn Hp)
    as [D3 [D2 [D1 D0]]].
  rewrite (steps_four (Fin y) (Fin x) s Hb Hi). cbv zeta.
  rewrite D3, D2, D1, D0, Ec. reflexivity.
Qed.

Lemma steps_follow (y x : Q) (h : string) (k : Z) (s : encoder) (bf : bisection) :
  all_hex h = true -> bit s = 0%Z -> idx s = 0%Z ->
  exact k k (area s) -> (k + 2 * Z.of_nat (String.length h) <= 39)%Z ->
  bounds_chars h (area s) = Return bf -> half_open y x bf ->
  geohash (steps (4 * String.length h) (Fin y) (Fin x) s) = (geohash s ++ h)%string.
Proof.
  revert k s. induction h as [|c h IH]; intros k s Hh Hb Hi He Hk Hr Hp.
  - cbn [String.length Nat.mul steps]. rewrite append_nil_r. reflexivity.
  - unfold all_hex in Hh. cbn [list_ascii_of_string forallb] in Hh.
    apply andb_prop in Hh. destruct Hh as [Hc Hh].
    cbn [String.length] in Hk |- *.
    replace (4 * S (String.length h))%nat with (4 + 4 * String.length h)%nat by lia.
    rewrite steps_add.
    cbn [bounds_chars] in Hr. destruct (is_hex_index c Hc) as [Hi16 _].
    destruct (Z.eqb_spec (indexOf base16 c) (-1)) as [|_]; [lia|].
    destruct (bounds_char_exact (indexOf base16 c) k (area s) He ltac:(lia)) as [He1 _].
    destruct (bounds_chars_exact h (k + 2) _ Hh He1 ltac:(lia)) as [bf' [Er [_ Hn]]].
    rewrite Hr in Er. injection Er as <-.
    rewrite (steps_follow_char y x c k s bf Hc Hb Hi He ltac:(lia) Hn Hp).
    rewrite (IH (k + 2)%Z
               {| idx := 0; bit := 0; geohash := geohash s ++ String c EmptyString;
                  area := bounds_bits 4 (indexOf base16 c) (area s) |}
               Hh eq_refl eq_refl He1 ltac:(lia) Hr Hp).
    cbn [geohash]. apply append_assoc.
Qed.

(** A point strictly inside the cell of [h] is encoded to [h]. *)
Lemma encode_in_cell (y x : Q) (h : string) (c : cell) :
  valid_geohash h = true -> bounds h = Return c ->
  lat (sw c) < y -> y <= lat (ne c) -> lon (sw c) < x -> x <= lon (ne c) ->
  encode (Fin y) (Fin x) (Some (Fin (inject_Z (Z.of_nat (String.length h))))) = Return h.
Proof.
  intros Hv Hb Y1 Y2 X1 X2. destruct (valid_geohash_inv h Hv) as [Hl Hh].
  destruct (bounds_hex h Hh ltac:(lia)) as [bf [E [Ec _]]].
  rewrite Hb in E. injection E as ->. cbn [cell_of sw ne lat lon] in *.
  cbn [encode]. rewrite (encode_to_finite (Fin y) (Fin x) _ eq_refl eq_refl).
  rewrite Qceiling_Z, Nat2Z.id.
  rewrite (steps_follow y x h 0 encoder_start bf Hh eq_refl eq_refl exact_start
             ltac:(lia) Ec).
  - reflexivity.
  - unfold half_open. auto.
Qed.

(** C1. Decoding a geohash of one to twelve symbols and encoding the
    rounded centre at the same precision gives the geohash back; so it is
    for the hash of (20, 80) at precision 4. *)
Theorem C1_encode_of_decode :
  (forall h, valid_geohash h = true ->
     exists p, decode h = Return p /\
       encode (Fin (lat p)) (Fin (lon p))
         (Some (Fin (inject_Z (Z.of_nat (String.length h))))) = Return h) /\
  (exists h p,
     encode (Fin 20) (Fin 80) (Some (Fin 4)) = Return h /\ decode h = Return p /\
     encode (Fin (lat p)) (Fin (lon p)) (Some (Fin 4)) = Return h).
Proof.
  split.
  - intros h Hv. destruct (decode_valid h Hv) as [c [p [Hb [Hd [Y1 [Y2 [X1 X2]]]]]]].
    exists p. split; [exact Hd|].
    apply (encode_in_cell _ _ h c Hv Hb); lra.
  - exists "3d3d". eexists. split; [vm_compute; reflexivity|].
    split; [vm_compute; reflexivity|]. vm_compute. reflexivity.
Qed.

Lemma C1_encode_of_decode_witness :
  exists p, decode "3d3d" = Return p /\
    encode (Fin (lat p)) (Fin (lon p))
      (Some (Fin (inject_Z (Z.of_nat (String.length "3d3d"))))) = Return "3d3d".
Proof.
  apply (proj1 C1_encode_of_decode "3d3d"). reflexivity.
Defined.

(** C7. [bounds] and [decode] throw the invalid-geohash error exactly for
    the empty string and for strings with a character that is not one of
    the sixteen symbols in either case; so they do for the empty string and
    for "xyz", and a geohash of one to twelve symbols makes neither of them
    throw. *)
Theorem C7_invalid_geohash_rejected :
  (forall h, bounds h = Throw Invalid_geohash <-> accepted h = false) /\
  (forall h, decode h = Throw Invalid_geohash <-> accepted h = false) /\
  bounds EmptyString = Throw Invalid_geohash /\
  bounds "xyz" = Throw Invalid_geohash /\
  (forall h, accepted h = true -> exists c, bounds h = Return c) /\
  (forall h, valid_geohash h = true ->
     exists c p, bounds h = Return c /\ decode h = Return p).
Proof.
  split; [|split; [|split; [reflexivity|split; [reflexivity|split]]]].
  - intros h. pose proof (bounds_outcome h) as H. destruct (accepted h).
    + destruct H as [c ->]. split; discriminate.
    + rewrite H. split; reflexivity.
  - intros h. pose proof (decode_outcome h) as H. destruct (accepted h).
    + destruct H as [[p ->]|[m ->]]; split; discriminate.
    + rewrite H. split; reflexivity.
  - intros h Ha. pose proof (bounds_outcome h) as H. rewrite Ha in H. exact H.
  - intros h Hv. destruct (decode_valid h Hv) as [c [p [Hb [Hd _]]]].
    exists c, p. split; assumption.
Qed.

Lemma C7_invalid_geohash_rejected_witness :
  (exists c, bounds "3D" = Return c) /\
  (exists c p, bounds "3d3d" = Return c /\ decode "3d3d" = Return p).
Proof.
  destruct C7_invalid_geohash_rejected as [_ [_ [_ [_ [A B]]]]].
  split; [apply (A "3D"); reflexivity|apply (B "3d3d"); reflexivity].
Defined.

(** ** Inferring the precision *)

Lemma encode_valid (lat lon : number) (p : Z) :
  isNaN lat = false -> isNaN lon = false -> (1 <= p <= 12)%Z ->
  exists h posn,
    encode_to lat lon (Fin (inject_Z p)) = Return h /\ decode h = Return posn.
Proof.
  intros H1 H2 Hp.
  destruct (encode_then_bounds lat lon (Z.to_nat p) H1 H2 ltac:(lia)) as [h [E [A [L _]]]].
  rewrite Z2Nat.id in E by lia. cbn [encode] in E.
  assert (Hv : valid_geohash h = true).
  { unfold valid_geohash. rewrite A, L.
    destruct (Nat.leb_spec 1 (Z.to_nat p)); [|lia].
    destruct (Nat.leb_spec (Z.to_nat p) 12); [reflexivity|lia]. }
  destruct (decode_valid h Hv) as [c [posn [_ [Hd _]]]].
  exists h, posn. split; assumption.
Qed.

(** What the loop over [p] does from [p0] on. *)
Lemma encode_infer_spec (lat lon : number) (n : nat) (p0 : Z) :
  isNaN lat = false -> isNaN lon = false ->
  (1 <= p0)%Z -> (p0 + Z.of_nat n = 13)%Z ->
  (exists p hash,
     (p0 <= p <= 12)%Z /\ matches lat lon p /\
     (forall p', (p0 <= p' < p)%Z -> ~ matches lat lon p') /\
     encode_to lat lon (Fin (inject_Z p)) = Return hash /\
     encode_infer n p0 lat lon = Return (Some hash))
  \/ ((forall p', (p0 <= p' <= 12)%Z -> ~ matches lat lon p') /\
      encode_infer n p0 lat lon = Return None).
Proof.
  intros H1 H2. revert p0. induction n as [|n IH]; intros p0 Hp Hn.
  - right. split; [intros p' Hp'; lia|reflexivity].
  - destruct (encode_valid lat lon p0 H1 H2 ltac:(lia)) as [h [posn [E D]]].
    cbn [encode_infer]. rewrite E. cbn [bind]. rewrite D. cbn [bind].
    destruct (equal (Geohash.lat posn) lat && equal (Geohash.lon posn) lon) eqn:M.
    + left. exists p0, h. split; [lia|].
      split; [|split; [intros p' Hp'; lia|split; [exact E|reflexivity]]].
      apply andb_prop in M. destruct M as [M1 M2].
      exists h, posn. cbn [encode]. auto.
    + assert (N0 : ~ matches lat lon p0).
      { intros [h' [posn' [E' [D' [M1 M2]]]]]. cbn [encode] in E'.
        rewrite E in E'. injection E' as <-. rewrite D in D'. injection D' as <-.
        rewrite M1, M2 in M. discriminate. }
      destruct (IH (p0 + 1)%Z ltac:(lia) ltac:(lia)) as [[p [hash [R1 [R2 [R3 [R4 R5]]]]]]|[R1 R2]].
      * left. exists p, hash. split; [lia|]. split; [exact R2|]. split; [|split; assumption].
        intros p' Hp'. destruct (Z.eq_dec p' p0) as [->|]; [exact N0|apply R3; lia].
      * right. split; [|exact R2].
        intros p' Hp'. destruct (Z.eq_dec p' p0) as [->|]; [exact N0|apply R1; lia].
Qed.

(** C5. Without a precision, [encode] returns the hash of the least
    precision from 1 to 12 whose decoded hash is exactly the given point,
    and the hash of precision 12 when there is none. *)
Theorem C5_inferred_precision (lat lon : number) :
  isNaN lat = false -> isNaN lon = false ->
  (forall p, (1 <= p <= 12)%Z -> matches lat lon p ->
     (forall p', (1 <= p' < p)%Z -> ~ matches lat lon p') ->
     encode lat lon None = encode lat lon (Some (Fin (inject_Z p)))) /\
  ((forall p, (1 <= p <= 12)%Z -> ~ matches lat lon p) ->
   encode lat lon None = encode lat lon (Some (Fin 12))).
Proof.
  intros H1 H2.
  destruct (encode_infer_spec lat lon 12 1 H1 H2 ltac:(lia) ltac:(lia))
    as [[p0 [hash [R1 [R2 [R3 [R4 R5]]]]]]|[R1 R2]].
  - split.
    + intros p Hp Hm Hmin.
      assert (p = p0).
      { destruct (Z.lt_trichotomy p p0) as [L|[L|L]]; [|exact L|].
        - exfalso. apply (R3 p); [lia|exact Hm].
        - exfalso. apply (Hmin p0); [lia|exact R2]. }
      subst p0. cbn [encode]. rewrite R5. cbn [bind]. symmetry. exact R4.
    + intros Hnone. exfalso. apply (Hnone p0 R1 R2).
  - split.
    + intros p Hp Hm _. exfalso. apply (R1 p Hp Hm).
    + intros _. cbn [encode]. rewrite R2. reflexivity.
Qed.

Lemma C5_inferred_precision_witness :
  encode (Fin (round64 (98 # 10))) (Fin (round64 (718 # 10))) None =
  encode (Fin (round64 (98 # 10))) (Fin (round64 (718 # 10))) (Some (Fin (inject_Z 1))).
Proof.
  apply (proj1 (C5_inferred_precision (Fin (round64 (98 # 10)))
                  (Fin (round64 (718 # 10))) eq_refl eq_refl) 1%Z).
  - lia.
  - exists "0". eexists. split; [vm_compute; reflexivity|].
    split; [vm_compute; reflexivity|]. split; vm_compute; reflexivity.
  - intros p' Hp'. lia.
Defined.

(** ** Which inputs [encode] rejects *)

(** An infinite precision keeps the loop running whatever the fuel. *)
Lemma encode_loop_infinite (fuel : nat) (lat lon : number) (s : encoder) :
  encode_loop fuel lat lon (Inf false) s = None.
Proof.
  revert s. induction fuel as [|fuel IH]; intros s; cbn [encode_loop];
    unfold shorter, less, greater; cbn [negb]; [reflexivity|apply IH].
Qed.

Lemma encode_to_outcome (lat lon precision : number) :
  if isNaN lat || isNaN lon || isNaN precision
  then encode_to lat lon precision = Throw Invalid_geohash
  else forall e, encode_to lat lon precision <> Throw e.
Proof.
  unfold encode_to. destruct (isNaN lat || isNaN lon || isNaN precision); [reflexivity|].
  intros e. destruct (encode_loop _ _ _ _ _); discriminate.
Qed.

(** C10. With a precision, [encode] throws exactly when one of its three
    arguments is NaN, and returns when they are numbers and the precision
    is finite; without one, it throws exactly when [lat] or [lon] is NaN and
    returns otherwise. *)
Theorem C10_encode_rejects_nan :
  (forall lat lon precision,
     (encode lat lon (Some precision) = Throw Invalid_geohash <->
      isNaN lat || isNaN lon || isNaN precision = true) /\
     (isNaN lat || isNaN lon || isNaN precision = false ->
      (forall e, encode lat lon (Some precision) <> Throw e) /\
      (forall q, precision = Fin q ->
         exists h, encode lat lon (Some precision) = Return h))) /\
  (forall lat lon,
     (encode lat lon None = Throw Invalid_geohash <-> isNaN lat || isNaN lon = true) /\
     (isNaN lat || isNaN lon = false -> exists h, encode lat lon None = Return h)).
Proof.
  split.
  - intros lat lon precision. cbn [encode].
    pose proof (encode_to_outcome lat lon precision) as H.
    destruct (isNaN lat || isNaN lon || isNaN precision) eqn:N.
    + rewrite H. split; [split; reflexivity|discriminate].
    + split; [split; [intros E; exfalso; exact (H _ E)|discriminate]|].
      intros _. split; [exact H|].
      intros q ->. apply orb_false_elim in N. destruct N as [N _].
      apply orb_false_elim in N. destruct N as [N1 N2].
      rewrite (encode_to_finite lat lon q N1 N2). eexists. reflexivity.
  - intros lat lon. cbn [encode].
    destruct (isNaN lat || isNaN lon) eqn:N.
    + assert (E : encode_to lat lon (Fin (inject_Z 1)) = Throw Invalid_geohash).
      { unfold encode_to. rewrite N. reflexivity. }
      cbn [encode_infer]. rewrite E. cbn [bind].
      split; [split; reflexivity|discriminate].
    + apply orb_false_elim in N. destruct N as [N1 N2].
      assert (R : exists h, bind (encode_infer 12 1 lat lon)
                    (fun found => match found with
                                  | Some hash => Return hash
                                  | None => encode_to lat lon (Fin 12)
                                  end) = Return h).
      { destruct (encode_infer_spec lat lon 12 1 N1 N2 ltac:(lia) ltac:(lia))
          as [[p [hash [_ [_ [_ [_ R]]]]]]|[_ R]]; rewrite R; cbn [bind].
        - eexists. reflexivity.
        - rewrite (encode_to_finite lat lon 12 N1 N2). eexists. reflexivity. }
      destruct R as [h R]. rewrite R.
      split; [split; discriminate|]. intros _. exists h. reflexivity.
Qed.

Lemma C10_encode_rejects_nan_witness :
  (forall e, encode (Fin 20) (Fin 80) (Some (Fin 4)) <> Throw e) /\
  (exists h, encode (Fin 20) (Fin 80) (Some (Fin 4)) = Return h) /\
  (exists h, encode (Fin 20) (Fin 80) None = Return h).
Proof.
  destruct C10_encode_rejects_nan as [A B].
  destruct (A (Fin 20) (Fin 80) (Fin 4)) as [_ A2].
  destruct (A2 eq_refl) as [A3 A4].
  split; [exact A3|]. split; [apply (A4 4); reflexivity|].
  apply (proj2 (B (Fin 20) (Fin 80))). reflexivity.
Defined.
End Bisection.

(** ** Bit strings *)

Section Neighbours.

Lemma hexToBinary_loop_acc (h acc : string) :
  hexToBinary_loop h acc = (acc ++ hexToBinary h)%string.
Proof.
  unfold hexToBinary. revert acc. induction h as [|c h IH]; intros acc; cbn [hexToBinary_loop].
  - rewrite append_nil_r. reflexivity.
  - rewrite IH. rewrite (IH (append_property EmptyString _)).
    unfold append_property. cbn [append]. rewrite append_assoc. reflexivity.
Qed.

Lemma binaryToHex_loop_acc (v acc : string) :
  binaryToHex_loop v acc = (acc ++ binaryToHex v)%string.
Proof.
  unfold binaryToHex.
  assert (G : forall m v acc, (String.length v <= m)%nat ->
            binaryToHex_loop v acc = (acc ++ binaryToHex_loop v EmptyString)%string).
  { clear. induction m as [|m IH]; intros v acc Hl.
    - destruct v; cbn in Hl; [|lia]. cbn. rewrite append_nil_r. reflexivity.
    - destruct v as [|a [|b [|c [|d rest]]]]; cbn [binaryToHex_loop];
        try (unfold append_property; cbn [append]; reflexivity).
      + rewrite append_nil_r. reflexivity.
      + cbn [String.length] in Hl. rewrite (IH rest) by lia.
        rewrite (IH rest (append_property EmptyString _)) by lia.
        unfold append_property. cbn [append]. rewrite append_assoc. reflexivity. }
  apply (G (String.length v)). lia.
Qed.

Lemma hexToBinary_cons (c : ascii) (h : string) :
  hexToBinary (String c h) =
  (append_property EmptyString (lookup hexBinaryMap (String c EmptyString))
   ++ hexToBinary h)%string.
Proof. unfold hexToBinary at 1. cbn [hexToBinary_loop]. apply hexToBinary_loop_acc. Qed.

Lemma binaryToHex_four (a b c d : ascii) (rest : string) :
  binaryToHex (String a (String b (String c (String d rest)))) =
  (append_property EmptyString
     (lookup binaryHexMap (String a (String b (String c (String d EmptyString)))))
   ++ binaryToHex rest)%string.
Proof. unfold binaryToHex at 1. cbn [binaryToHex_loop]. apply binaryToHex_loop_acc. Qed.

(** The four bits of a symbol. *)
Lemma nibble (c : ascii) :
  is_hex c = true ->
  exists b3 b2 b1 b0,
    is_bit b3 = true /\ is_bit b2 = true /\ is_bit b1 = true /\ is_bit b0 = true /\
    append_property EmptyString (lookup hexBinaryMap (String c EmptyString)) =
    String b3 (String b2 (String b1 (String b0 EmptyString))) /\
    append_property EmptyString
      (lookup binaryHexMap (String b3 (String b2 (String b1 (String b0 EmptyString))))) =
    String c EmptyString.
Proof.
  destruct c as [[] [] [] [] [] [] [] []]; intros H; try discriminate H;
    do 4 eexists; repeat split; reflexivity.
Qed.

(** Four bits are a symbol. *)
Lemma symbol (b3 b2 b1 b0 : ascii) :
  is_bit b3 = true -> is_bit b2 = true -> is_bit b1 = true -> is_bit b0 = true ->
  exists c, is_hex c = true /\
    append_property EmptyString
      (lookup binaryHexMap (String b3 (String b2 (String b1 (String b0 EmptyString))))) =
    String c EmptyString /\
    append_property EmptyString (lookup hexBinaryMap (String c EmptyString)) =
    String b3 (String b2 (String b1 (String b0 EmptyString))).
Proof.
  unfold is_bit. intros H3 H2 H1 H0.
  apply orb_prop in H3, H2, H1, H0.
  destruct H3 as [H3|H3], H2 as [H2|H2], H1 as [H1|H1], H0 as [H0|H0];
    apply Ascii.eqb_eq in H3, H2, H1, H0; subst;
    eexists; repeat split; reflexivity.
Qed.

Lemma hexToBinary_bits (h : string) :
  all_hex h = true ->
  bitstring (hexToBinary h) = true /\
  String.length (hexToBinary h) = (4 * String.length h)%nat /\
  binaryToHex (hexToBinary h) = h.
Proof.
  unfold all_hex. induction h as [|c h IH]; cbn [list_ascii_of_string forallb]; intros H.
  - repeat split; reflexivity.
  - apply andb_prop in H. destruct H as [Hc Hh]. destruct (IH Hh) as [I1 [I2 I3]].
    destruct (nibble c Hc) as [b3 [b2 [b1 [b0 [B3 [B2 [B1 [B0 [E1 E2]]]]]]]]].
    rewrite hexToBinary_cons, E1. cbn [append]. split; [|split].
    + unfold bitstring in *. cbn [list_ascii_of_string forallb].
      rewrite B3, B2, B1, B0, I1. reflexivity.
    + cbn [String.length]. rewrite I2. lia.
    + rewrite binaryToHex_four, E2, I3. reflexivity.
Qed.

Lemma binaryToHex_bits (m : nat) (v : string) :
  bitstring v = true -> String.length v = (4 * m)%nat ->
  all_hex (binaryToHex v) = true /\ String.length (binaryToHex v) = m /\
  hexToBinary (binaryToHex v) = v.
Proof.
  revert v. induction m as [|m IH]; intros v Hb Hl.
  - destruct v; cbn in Hl; [|lia]. repeat split; reflexivity.
  - destruct v as [|b3 [|b2 [|b1 [|b0 rest]]]]; cbn [String.length] in Hl; try lia.
    unfold bitstring in Hb. cbn [list_ascii_of_string forallb] in Hb.
    apply andb_prop in Hb. destruct Hb as [B3 Hb].
    apply andb_prop in Hb. destruct Hb as [B2 Hb].
    apply andb_prop in Hb. destruct Hb as [B1 Hb].
    apply andb_prop in Hb. destruct Hb as [B0 Hb].
    destruct (IH rest Hb ltac:(lia)) as [I1 [I2 I3]].
    destruct (symbol b3 b2 b1 b0 B3 B2 B1 B0) as [c [Hc [E1 E2]]].
    rewrite binaryToHex_four, E1. cbn [append]. split; [|split].
    + unfold all_hex in *. cbn [list_ascii_of_string forallb]. rewrite Hc, I1. reflexivity.
    + cbn [String.length]. rewrite I2. reflexivity.
    + rewrite hexToBinary_cons, E2, I3. reflexivity.
Qed.

(** ** Separating and interleaving *)

Lemma separate_unzip (v : string) (i : nat) (lngs lats : string) :
  separate v i lngs lats =
  if (i mod 2 =? 0)%nat
  then ((lngs ++ fst (unzip v))%string, (lats ++ snd (unzip v))%string)
  else ((lngs ++ snd (unzip v))%string, (lats ++ fst (unzip v))%string).
Proof.
  revert i lngs lats. induction v as [|c v IH]; intros i lngs lats; cbn [separate unzip].
  - cbn [fst snd]. rewrite !append_nil_r. destruct (i mod 2 =? 0)%nat; reflexivity.
  - assert (P : ((S i) mod 2 =? 0)%nat = negb (i mod 2 =? 0)%nat).
    { pose proof (Nat.mod_upper_bound i 2 ltac:(lia)) as U.
      replace (S i) with (1 + i)%nat by lia.
      rewrite <- Nat.Div0.add_mod_idemp_r.
      destruct (i mod 2)%nat as [|[|r]] eqn:M; [reflexivity|reflexivity|lia]. }
    rewrite !IH, P. destruct (unzip v) as [a b]. cbn [fst snd].
    destruct (i mod 2 =? 0)%nat; cbn [negb]; rewrite append_assoc; reflexivity.
Qed.

Lemma separate_start (v : string) : separate v 0 EmptyString EmptyString = unzip v.
Proof. rewrite separate_unzip. cbn. destruct (unzip v); reflexivity. Qed.

Lemma interleave_loop_zip (a b acc : string) :
  String.length a = String.length b ->
  interleave_loop a b acc = (acc ++ zip a b)%string.
Proof.
  revert b acc. induction a as [|x a IH]; intros b acc Hl.
  - cbn. rewrite append_nil_r. reflexivity.
  - destruct b as [|y b]; cbn [String.length] in Hl; [lia|].
    cbn [interleave_loop zip]. rewrite IH by lia.
    unfold charAt. cbn [String.get]. rewrite !append_assoc. reflexivity.
Qed.

Lemma unzip_zip (a b : string) :
  String.length a = String.length b -> unzip (zip a b) = (a, b).
Proof.
  revert b. induction a as [|x a IH]; intros b Hl.
  - destruct b; cbn in Hl; [reflexivity|lia].
  - destruct b as [|y b]; cbn [String.length] in Hl; [lia|].
    cbn [zip unzip]. rewrite IH by lia. reflexivity.
Qed.

Lemma zip_unzip (m : nat) (v : string) :
  String.length v = (2 * m)%nat ->
  zip (fst (unzip v)) (snd (unzip v)) = v /\
  String.length (fst (unzip v)) = m /\ String.length (snd (unzip v)) = m.
Proof.
  revert v. induction m as [|m IH]; intros v Hl.
  - destruct v; cbn in Hl; [|lia]. repeat split; reflexivity.
  - destruct v as [|x [|y v]]; cbn [String.length] in Hl; try lia.
    destruct (IH v ltac:(lia)) as [I1 [I2 I3]].
    cbn [unzip]. destruct (unzip v) as [a b]. cbn [fst snd] in *.
    cbn [zip String.length]. rewrite I1, I2, I3. repeat split; reflexivity.
Qed.

Lemma bitstring_zip (a b : string) :
  bitstring a = true -> bitstring b = true -> bitstring (zip a b) = true.
Proof.
  unfold bitstring. revert b. induction a as [|x a IH]; intros b Ha Hb; [reflexivity|].
  destruct b as [|y b]; [reflexivity|].
  cbn [zip list_ascii_of_string forallb] in *.
  apply andb_prop in Ha, Hb. destruct Ha as [-> Ha], Hb as [-> Hb].
  rewrite (IH b Ha Hb). reflexivity.
Qed.

Lemma bitstring_unzip (v : string) :
  bitstring v = true ->
  bitstring (fst (unzip v)) = true /\ bitstring (snd (unzip v)) = true.
Proof.
  unfold bitstring. induction v as [|x v IH]; cbn [list_ascii_of_string forallb unzip].
  - auto.
  - intros H. apply andb_prop in H. destruct H as [Hx Hv].
    destruct (IH Hv) as [I1 I2]. destruct (unzip v) as [a b]. cbn [fst snd] in *.
    cbn [list_ascii_of_string forallb]. rewrite Hx, I1, I2. auto.
Qed.

Lemma length_zip (a b : string) :
  String.length a = String.length b ->
  String.length (zip a b) = (2 * String.length a)%nat.
Proof.
  revert b. induction a as [|x a IH]; intros b Hl.
  - reflexivity.
  - destruct b as [|y b]; cbn [String.length] in Hl; [lia|].
    cbn [zip String.length]. rewrite IH by lia. lia.
Qed.

Lemma leftpad_loop_acc (num : nat) (r : string) :
  leftpad_loop num r = (r ++ leftpad_loop num EmptyString)%string.
Proof.
  revert r. induction num as [|num IH]; intros r; cbn [leftpad_loop].
  - rewrite append_nil_r. reflexivity.
  - rewrite IH, (IH (EmptyString ++ "0")%string). rewrite append_assoc. reflexivity.
Qed.

Lemma leftpad_succ (s0 : string) (num : nat) :
  leftpad s0 (S num) = String "0" (leftpad s0 num).
Proof.
  unfold leftpad. cbn [leftpad_loop]. rewrite leftpad_loop_acc. reflexivity.
Qed.

Lemma leftpad_zero (s0 : string) : leftpad s0 0 = s0.
Proof. reflexivity. Qed.

Lemma leftpad_length (s0 : string) (num : nat) :
  String.length (leftpad s0 num) = (num + String.length s0)%nat.
Proof.
  induction num as [|num IH]; [reflexivity|].
  rewrite leftpad_succ. cbn [String.length]. rewrite IH. reflexivity.
Qed.

(** [interleave] pads the shorter string and alternates the two. *)
Lemma interleave_pad_left (a b : string) :
  (String.length a <= String.length b)%nat ->
  interleave a b = zip (leftpad a (String.length b - String.length a)) b.
Proof.
  intros Hl. unfold interleave.
  destruct (Nat.ltb_spec (String.length a) (String.length b)) as [L|L].
  - rewrite leftpad_length.
    replace (String.length b - String.length a + String.length a)%nat
      with (String.length b) by lia.
    rewrite Nat.ltb_irrefl. rewrite interleave_loop_zip; [reflexivity|].
    rewrite leftpad_length. lia.
  - assert (E : String.length a = String.length b) by lia.
    rewrite E, Nat.ltb_irrefl, Nat.sub_diag, leftpad_zero.
    apply interleave_loop_zip. exact E.
Qed.

Lemma interleave_pad_right (a b : string) :
  (String.length b <= String.length a)%nat ->
  interleave a b = zip a (leftpad b (String.length a - String.length b)).
Proof.
  intros Hl. unfold interleave.
  destruct (Nat.ltb_spec (String.length a) (String.length b)) as [L|L]; [lia|].
  destruct (Nat.ltb_spec (String.length b) (String.length a)) as [M|M].
  - rewrite interleave_loop_zip; [reflexivity|]. rewrite leftpad_length. lia.
  - assert (E : String.length a = String.length b) by lia.
    rewrite E, Nat.sub_diag, leftpad_zero. apply interleave_loop_zip. exact E.
Qed.

(** ** Binary numerals *)

Lemma binval_acc (s0 : string) (acc : Z) :
  binval s0 acc = acc * 2 ^ Z.of_nat (String.length s0) + binval s0 0.
Proof.
  revert acc. induction s0 as [|c r IH]; intros acc; cbn [binval String.length].
  - change (2 ^ Z.of_nat 0) with 1. lia.
  - rewrite IH, (IH (2 * 0 + _)). rewrite Nat2Z.inj_succ, Z.pow_succ_r by lia.
    destruct (Ascii.eqb c "1"); lia.
Qed.

Lemma binval_bound (s0 : string) :
  0 <= binval s0 0 < 2 ^ Z.of_nat (String.length s0).
Proof.
  induction s0 as [|c r IH]; cbn [binval String.length].
  - change (2 ^ Z.of_nat 0) with 1. lia.
  - rewrite binval_acc, Nat2Z.inj_succ, Z.pow_succ_r by lia.
    destruct (Ascii.eqb c "1"); lia.
Qed.

Lemma binval_snoc (s0 : string) (c : ascii) (acc : Z) :
  binval (s0 ++ String c EmptyString) acc =
  2 * binval s0 acc + (if Ascii.eqb c "1" then 1 else 0).
Proof.
  revert acc. induction s0 as [|x r IH]; intros acc; cbn [append binval].
  - reflexivity.
  - apply IH.
Qed.

Lemma is_bit_value (x y : ascii) :
  is_bit x = true -> is_bit y = true ->
  (if Ascii.eqb x "1" then 1 else 0) = (if Ascii.eqb y "1" then 1 else 0) :> Z ->
  x = y.
Proof.
  unfold is_bit. intros Hx Hy.
  apply orb_prop in Hx, Hy.
  destruct Hx as [Hx|Hx], Hy as [Hy|Hy]; apply Ascii.eqb_eq in Hx, Hy; subst;
    cbn; intros H; congruence.
Qed.

(** Bit strings of one length that spell the same number are equal. *)
Lemma binval_inj (a b : string) :
  bitstring a = true -> bitstring b = true ->
  String.length a = String.length b -> binval a 0 = binval b 0 -> a = b.
Proof.
  unfold bitstring. revert b. induction a as [|x a IH]; intros b Ha Hb Hl Hv.
  - destruct b; cbn in Hl; [reflexivity|lia].
  - destruct b as [|y b]; cbn [String.length] in Hl; [lia|].
    cbn [list_ascii_of_string forallb] in Ha, Hb.
    apply andb_prop in Ha, Hb. destruct Ha as [Hx Ha], Hb as [Hy Hb].
    cbn [binval] in Hv. rewrite (binval_acc a), (binval_acc b) in Hv.
    pose proof (binval_bound a) as Ba. pose proof (binval_bound b) as Bb.
    assert (El : String.length a = String.length b) by lia.
    rewrite <- El in Bb, Hv.
    set (P := 2 ^ Z.of_nat (String.length a)) in *.
    assert (Ex : (if Ascii.eqb x "1" then 1 else 0) = (if Ascii.eqb y "1" then 1 else 0) :> Z).
    { destruct (Ascii.eqb x "1"), (Ascii.eqb y "1"); nia. }
    rewrite (is_bit_value x y Hx Hy Ex). f_equal.
    apply IH; try assumption. rewrite Ex in Hv. lia.
Qed.

Lemma bitstring_app (a b : string) :
  bitstring (a ++ b) = bitstring a && bitstring b.
Proof.
  unfold bitstring. induction a as [|x a IH]; cbn [append list_ascii_of_string forallb].
  - reflexivity.
  - rewrite IH. apply andb_assoc.
Qed.

Lemma bin_spec (k : nat) (z : Z) :
  0 <= z < 2 ^ Z.of_nat k ->
  bitstring (bin k z) = true /\ String.length (bin k z) = k /\ binval (bin k z) 0 = z.
Proof.
  revert z. induction k as [|k IH]; intros z Hz.
  - change (2 ^ Z.of_nat 0) with 1 in Hz. cbn. repeat split. lia.
  - rewrite Nat2Z.inj_succ, Z.pow_succ_r in Hz by lia.
    destruct (IH (z / 2)) as [I1 [I2 I3]].
    { split; [apply Z.div_pos; lia|apply Z.div_lt_upper_bound; lia]. }
    cbn [bin]. split; [|split].
    + rewrite bitstring_app, I1. destruct (Z.odd z); reflexivity.
    + rewrite length_app, I2. destruct (Z.odd z); cbn; lia.
    + pose proof (Zdiv2_odd_eqn z) as E. rewrite Z.div2_div in E.
      destruct (Z.odd z); rewrite binval_snoc, I3;
        [change (Ascii.eqb "1" "1") with true|change (Ascii.eqb "0" "1") with false];
        cbv iota; lia.
Qed.

(** A bit string is the numeral of its value. *)
Lemma bin_binval (a : string) :
  bitstring a = true -> bin (String.length a) (binval a 0) = a.
Proof.
  intros Ha. destruct (bin_spec (String.length a) (binval a 0) (binval_bound a))
    as [B1 [B2 B3]].
  apply binval_inj; assumption.
Qed.

Lemma bits_of_pos_spec (p : positive) :
  bitstring (bits_of_pos p) = true /\ binval (bits_of_pos p) 0 = Zpos p /\
  forall k : nat, Zpos p < 2 ^ Z.of_nat k -> (String.length (bits_of_pos p) <= k)%nat.
Proof.
  induction p as [p [I1 [I2 I3]]|p [I1 [I2 I3]]|]; cbn [bits_of_pos].
  - split; [rewrite bitstring_app, I1; reflexivity|].
    split; [rewrite binval_snoc, I2; cbn; lia|].
    intros k Hk. destruct k as [|k]; [change (2 ^ Z.of_nat 0) with 1 in Hk; lia|].
    rewrite Nat2Z.inj_succ, Z.pow_succ_r in Hk by lia.
    rewrite length_app. cbn [String.length]. specialize (I3 k ltac:(lia)). lia.
  - split; [rewrite bitstring_app, I1; reflexivity|].
    split; [rewrite binval_snoc, I2; cbn; lia|].
    intros k Hk. destruct k as [|k]; [change (2 ^ Z.of_nat 0) with 1 in Hk; lia|].
    rewrite Nat2Z.inj_succ, Z.pow_succ_r in Hk by lia.
    rewrite length_app. cbn [String.length]. specialize (I3 k ltac:(lia)). lia.
  - split; [reflexivity|]. split; [reflexivity|].
    intros k Hk. destruct k as [|k]; [change (2 ^ Z.of_nat 0) with 1 in Hk; lia|].
    cbn. lia.
Qed.

Lemma toString2_spec (z : Z) (k : nat) :
  0 <= z < 2 ^ Z.of_nat k -> (1 <= k)%nat ->
  bitstring (toString2 (IInt z)) = true /\ binval (toString2 (IInt z)) 0 = z /\
  (String.length (toString2 (IInt z)) <= k)%nat.
Proof.
  intros Hz Hk. destruct z as [|p|p]; [| |lia]; cbn [toString2].
  - split; [reflexivity|]. split; [reflexivity|]. cbn. lia.
  - destruct (bits_of_pos_spec p) as [B1 [B2 B3]].
    split; [exact B1|]. split; [exact B2|apply B3; lia].
Qed.

Lemma leftpad_bits (s0 : string) (num : nat) :
  bitstring (leftpad s0 num) = bitstring s0 /\ binval (leftpad s0 num) 0 = binval s0 0.
Proof.
  induction num as [|num [I1 I2]]; [split; reflexivity|].
  rewrite leftpad_succ. split.
  - unfold bitstring in *. cbn [list_ascii_of_string forallb]. rewrite I1. reflexivity.
  - cbn [binval]. exact I2.
Qed.

(** The numeral of [z], padded to [k] digits. *)
Lemma leftpad_toString2 (z : Z) (k : nat) :
  0 <= z < 2 ^ Z.of_nat k -> (1 <= k)%nat ->
  (String.length (toString2 (IInt z)) <= k)%nat /\
  leftpad (toString2 (IInt z)) (k - String.length (toString2 (IInt z))) = bin k z.
Proof.
  intros Hz Hk. destruct (toString2_spec z k Hz Hk) as [T1 [T2 T3]].
  split; [exact T3|].
  destruct (bin_spec k z Hz) as [B1 [B2 B3]].
  destruct (leftpad_bits (toString2 (IInt z)) (k - String.length (toString2 (IInt z))))
    as [L1 L2].
  apply binval_inj.
  - rewrite L1. exact T1.
  - exact B1.
  - rewrite leftpad_length, B2. lia.
  - rewrite L2, T2, B3. reflexivity.
Qed.

(** ** [parseInt] and the arithmetic of [adjacent] *)

Lemma integral_of_Z_small (z : Z) :
  Z.abs z < 2 ^ 53 -> integral_of_Z z = IInt z.
Proof.
  intros Hz. unfold integral_of_Z.
  assert (E : round64 (inject_Z z) = Qred (inject_Z z)).
  { apply (round64_exact _ z 0); [|exact Hz].
    change (2 ^ 0)%Q with 1%Q. ring. }
  rewrite E.
  assert (F : Qle_bool (2 ^ 1024) (Qabs (Qred (inject_Z z))) = false).
  { destruct (Qle_bool (2 ^ 1024) (Qabs (Qred (inject_Z z)))) eqn:B; [exfalso|reflexivity].
    apply Qle_bool_iff in B. rewrite Qred_correct in B.
    change (Qabs (inject_Z z)) with (inject_Z (Z.abs z)) in B.
    change ((2 ^ 1024)%Q) with (inject_Z (2 ^ 1024)) in B.
    rewrite <- Zle_Qle in B.
    assert (2 ^ 53 < 2 ^ 1024) by (apply Z.pow_lt_mono_r; lia). lia. }
  rewrite F. f_equal. rewrite (Qfloor_comp _ _ (Qred_correct (inject_Z z))).
  apply Qfloor_Z.
Qed.

Lemma is_bit_cases (c : ascii) : is_bit c = true -> c = "0"%char \/ c = "1"%char.
Proof.
  unfold is_bit. intros H. apply orb_prop in H.
  destruct H as [H|H]; apply Ascii.eqb_eq in H; auto.
Qed.

Lemma parse_bits_some (s0 : string) (a : Z) :
  bitstring s0 = true -> parse_bits s0 (Some a) = Some (binval s0 a).
Proof.
  unfold bitstring. revert a. induction s0 as [|c r IH]; intros a H.
  - reflexivity.
  - cbn [list_ascii_of_string forallb] in H. apply andb_prop in H. destruct H as [Hc Hr].
    destruct (is_bit_cases c Hc) as [-> | ->]; cbn [parse_bits binval].
    + rewrite IH by exact Hr. change (Ascii.eqb "0" "1") with false. cbv iota.
      rewrite Z.add_0_r. reflexivity.
    + rewrite IH by exact Hr. reflexivity.
Qed.

Lemma parseInt2_bits (s0 : string) :
  bitstring s0 = true -> s0 <> EmptyString ->
  parseInt2 s0 = integral_of_Z (binval s0 0).
Proof.
  intros H Hn. destruct s0 as [|c r]; [congruence|].
  unfold bitstring in H. cbn [list_ascii_of_string forallb] in H.
  apply andb_prop in H. destruct H as [Hc Hr].
  destruct (is_bit_cases c Hc) as [-> | ->]; unfold parseInt2.
  - change (skip_spaces (String "0" r)) with (String "0" r). cbv beta iota zeta.
    cbn [parse_bits binval]. rewrite parse_bits_some by exact Hr.
    rewrite Z.mul_1_l. reflexivity.
  - change (skip_spaces (String "1" r)) with (String "1" r). cbv beta iota zeta.
    cbn [parse_bits binval]. rewrite parse_bits_some by exact Hr.
    rewrite Z.mul_1_l. reflexivity.
Qed.

Lemma pow2_le_53 (k : nat) : (k <= 52)%nat -> 2 ^ Z.of_nat k < 2 ^ 53.
Proof. intros H. apply Z.pow_lt_mono_r; lia. Qed.

(** A coordinate read, moved by one and written back in [k] digits. *)
Lemma moved_numeral (a : string) (d : Z) :
  bitstring a = true -> (1 <= String.length a <= 52)%nat ->
  (d = 1 \/ d = -1) ->
  0 <= binval a 0 + d < 2 ^ Z.of_nat (String.length a) ->
  let t := toString2 (iadd (parseInt2 a) d) in
  (String.length t <= String.length a)%nat /\
  leftpad t (String.length a - String.length t) = bin (String.length a) (binval a 0 + d).
Proof.
  intros Ha Hl Hd Hr. cbv zeta.
  pose proof (binval_bound a) as Hb. pose proof (pow2_le_53 _ (proj2 Hl)) as Hp.
  rewrite parseInt2_bits; [|exact Ha|destruct a; [cbn in Hl; lia|discriminate]].
  rewrite integral_of_Z_small by lia. cbn [iadd].
  rewrite integral_of_Z_small by lia.
  apply leftpad_toString2; [exact Hr|lia].
Qed.

(** The geohash of the cell with the coordinates [x] and [y]. *)
Lemma hash_of_coordinates (L : nat) (x y : Z) :
  (1 <= L <= 12)%nat ->
  0 <= x < 2 ^ Z.of_nat (2 * L) -> 0 <= y < 2 ^ Z.of_nat (2 * L) ->
  let h := binaryToHex (zip (bin (2 * L) x) (bin (2 * L) y)) in
  valid_geohash h = true /\ String.length h = L /\
  unzip (hexToBinary h) = (bin (2 * L) x, bin (2 * L) y).
Proof.
  intros HL Hx Hy. cbv zeta.
  destruct (bin_spec _ _ Hx) as [X1 [X2 X3]]. destruct (bin_spec _ _ Hy) as [Y1 [Y2 Y3]].
  assert (Hz : String.length (zip (bin (2 * L) x) (bin (2 * L) y)) = (4 * L)%nat).
  { rewrite length_zip by congruence. rewrite X2. lia. }
  destruct (binaryToHex_bits L _ (bitstring_zip _ _ X1 Y1) Hz) as [B1 [B2 B3]].
  split; [|split; [exact B2|]].
  - unfold valid_geohash. rewrite B1, B2.
    destruct (Nat.leb_spec 1 L); [|lia]. destruct (Nat.leb_spec L 12); [reflexivity|lia].
  - rewrite B3. apply unzip_zip. congruence.
Qed.

(** What [adjacent] reads from a geohash. *)
Lemma coordinates (h : string) :
  valid_geohash h = true ->
  exists x y,
    0 <= x < 2 ^ Z.of_nat (2 * String.length h) /\
    0 <= y < 2 ^ Z.of_nat (2 * String.length h) /\
    separate (hexToBinary h) 0 EmptyString EmptyString =
      (bin (2 * String.length h) x, bin (2 * String.length h) y) /\
    lng_of h = IInt x /\ lat_of h = IInt y /\
    h = binaryToHex (zip (bin (2 * String.length h) x) (bin (2 * String.length h) y)).
Proof.
  intros Hv. destruct (valid_geohash_inv h Hv) as [Hl Hh].
  destruct (hexToBinary_bits h Hh) as [V1 [V2 V3]].
  destruct (zip_unzip (2 * String.length h) (hexToBinary h) ltac:(lia)) as [Z1 [Z2 Z3]].
  destruct (bitstring_unzip _ V1) as [A1 A2].
  set (a := fst (unzip (hexToBinary h))) in *. set (b := snd (unzip (hexToBinary h))) in *.
  pose proof (binval_bound a) as Ba. pose proof (binval_bound b) as Bb.
  rewrite Z2 in Ba. rewrite Z3 in Bb.
  pose proof (bin_binval a A1) as Ea. pose proof (bin_binval b A2) as Eb.
  rewrite Z2 in Ea. rewrite Z3 in Eb.
  assert (Es : separate (hexToBinary h) 0 EmptyString EmptyString = (a, b)).
  { rewrite separate_start. unfold a, b. destruct (unzip (hexToBinary h)); reflexivity. }
  pose proof (pow2_le_53 (2 * String.length h) ltac:(lia)) as Hp.
  exists (binval a 0), (binval b 0).
  split; [exact Ba|]. split; [exact Bb|]. split; [rewrite Ea, Eb; exact Es|].
  unfold lng_of, lat_of. rewrite Es. cbn [fst snd].
  assert (Na : a <> EmptyString) by (intros E0; rewrite E0 in Z2; cbn in Z2; lia).
  assert (Nb : b <> EmptyString) by (intros E0; rewrite E0 in Z3; cbn in Z3; lia).
  rewrite (parseInt2_bits a A1 Na), (parseInt2_bits b A2 Nb).
  rewrite !integral_of_Z_small by lia.
  split; [reflexivity|]. split; [reflexivity|].
  rewrite Ea, Eb, Z1, V3. reflexivity.
Qed.

(** ** [adjacent] away from the edges *)

Lemma coordinates_of_hash (L : nat) (x y : Z) :
  (1 <= L <= 12)%nat ->
  0 <= x < 2 ^ Z.of_nat (2 * L) -> 0 <= y < 2 ^ Z.of_nat (2 * L) ->
  let h := binaryToHex (zip (bin (2 * L) x) (bin (2 * L) y)) in
  valid_geohash h = true /\ String.length h = L /\
  lng_of h = IInt x /\ lat_of h = IInt y.
Proof.
  intros HL Hx Hy. cbv zeta.
  destruct (hash_of_coordinates L x y HL Hx Hy) as [Hv [Hl Hu]].
  split; [exact Hv|]. split; [exact Hl|].
  destruct (bin_spec _ _ Hx) as [X1 [X2 X3]]. destruct (bin_spec _ _ Hy) as [Y1 [Y2 Y3]].
  pose proof (pow2_le_53 (2 * L) ltac:(lia)) as Hp.
  unfold lng_of, lat_of. rewrite separate_start, Hu. cbn [fst snd].
  rewrite !parseInt2_bits; try assumption;
    try (intros E0; rewrite E0 in *; cbn in X2, Y2; lia).
  rewrite X3, Y3, !integral_of_Z_small by lia. split; reflexivity.
Qed.

Lemma can_go_range (h : string) (d : direction) (x y : Z) :
  lng_of h = IInt x -> lat_of h = IInt y -> can_go h d = true ->
  0 <= x < 2 ^ Z.of_nat (2 * String.length h) ->
  0 <= y < 2 ^ Z.of_nat (2 * String.length h) ->
  0 <= fst (moved d x y) < 2 ^ Z.of_nat (2 * String.length h) /\
  0 <= snd (moved d x y) < 2 ^ Z.of_nat (2 * String.length h).
Proof.
  intros Hx Hy Hc Rx Ry. unfold can_go, top in Hc. rewrite Hx, Hy in Hc.
  rewrite Nat2Z.inj_mul in *. change (Z.of_nat 2) with 2 in *.
  destruct d; cbn [moved fst snd]; apply Z.ltb_lt in Hc; lia.
Qed.

(** One move that stays in the domain: the result is the geohash of the
    moved coordinates. *)
Lemma adjacent_move (h : string) (d : direction) :
  valid_geohash h = true -> can_go h d = true ->
  exists x y,
    lng_of h = IInt x /\ lat_of h = IInt y /\
    adjacent h d =
    binaryToHex (zip (bin (2 * String.length h) (fst (moved d x y)))
                     (bin (2 * String.length h) (snd (moved d x y)))) /\
    0 <= fst (moved d x y) < 2 ^ Z.of_nat (2 * String.length h) /\
    0 <= snd (moved d x y) < 2 ^ Z.of_nat (2 * String.length h).
Proof.
  intros Hv Hc. destruct (valid_geohash_inv h Hv) as [Hl _].
  destruct (coordinates h Hv) as [x [y [Rx [Ry [Es [Ex [Ey _]]]]]]].
  exists x, y. split; [exact Ex|]. split; [exact Ey|].
  destruct (can_go_range h d x y Ex Ey Hc Rx Ry) as [Mx My].
  split; [|split; assumption].
  destruct (bin_spec _ _ Rx) as [X1 [X2 X3]]. destruct (bin_spec _ _ Ry) as [Y1 [Y2 Y3]].
  set (k := (2 * String.length h)%nat) in *.
  unfold adjacent. rewrite Es.
  destruct d; cbn [moved fst snd] in Mx, My |- *.
  - destruct (moved_numeral (bin k y) 1 Y1 ltac:(lia) ltac:(auto))
      as [T1 T2]; [rewrite Y2, Y3; exact My|].
    rewrite Y2 in T1. rewrite Y2, Y3 in T2.
    rewrite interleave_pad_right by (rewrite X2; exact T1).
    rewrite X2, T2. reflexivity.
  - destruct (moved_numeral (bin k x) 1 X1 ltac:(lia) ltac:(auto))
      as [T1 T2]; [rewrite X2, X3; exact Mx|].
    rewrite X2 in T1. rewrite X2, X3 in T2.
    rewrite interleave_pad_left by (rewrite Y2; exact T1).
    rewrite Y2, T2. reflexivity.
  - destruct (moved_numeral (bin k x) (-1) X1 ltac:(lia) ltac:(auto))
      as [T1 T2]; [rewrite X2, X3; exact Mx|].
    rewrite X2 in T1. rewrite X2, X3 in T2.
    rewrite interleave_pad_left by (rewrite Y2; exact T1).
    rewrite Y2, T2. reflexivity.
  - destruct (moved_numeral (bin k y) (-1) Y1 ltac:(lia) ltac:(auto))
      as [T1 T2]; [rewrite Y2, Y3; exact My|].
    rewrite Y2 in T1. rewrite Y2, Y3 in T2.
    rewrite interleave_pad_right by (rewrite X2; exact T1).
    rewrite X2, T2. reflexivity.
Qed.

(** After such a move the geohash is valid, as long as before, and holds
    the moved coordinates. *)
Lemma adjacent_valid (h : string) (d : direction) :
  valid_geohash h = true -> can_go h d = true ->
  exists x y,
    lng_of h = IInt x /\ lat_of h = IInt y /\
    valid_geohash (adjacent h d) = true /\
    String.length (adjacent h d) = String.length h /\
    lng_of (adjacent h d) = IInt (fst (moved d x y)) /\
    lat_of (adjacent h d) = IInt (snd (moved d x y)).
Proof.
  intros Hv Hc. destruct (valid_geohash_inv h Hv) as [Hl _].
  destruct (adjacent_move h d Hv Hc) as [x [y [Ex [Ey [Ea [Mx My]]]]]].
  exists x, y. split; [exact Ex|]. split; [exact Ey|]. rewrite Ea.
  apply (coordinates_of_hash (String.length h) _ _ Hl Mx My).
Qed.

(** A geohash is determined by its length and its two coordinates. *)
Lemma geohash_determined (h h' : string) :
  valid_geohash h = true -> valid_geohash h' = true ->
  String.length h = String.length h' ->
  lng_of h = lng_of h' -> lat_of h = lat_of h' -> h = h'.
Proof.
  intros Hv Hv' Hl Hx Hy.
  destruct (coordinates h Hv) as [x [y [_ [_ [_ [Ex [Ey E]]]]]]].
  destruct (coordinates h' Hv') as [x' [y' [_ [_ [_ [Ex' [Ey' E']]]]]]].
  rewrite Ex, Ex' in Hx. rewrite Ey, Ey' in Hy.
  injection Hx as <-. injection Hy as <-.
  rewrite E, E', Hl. reflexivity.
Qed.

Lemma can_go_after (h : string) (d d2 : direction) :
  valid_geohash h = true -> can_go h d = true ->
  (d = North \/ d = South) -> (d2 = East \/ d2 = West) ->
  can_go (adjacent h d) d2 = can_go h d2.
Proof.
  intros Hv Hc Hd Hd2.
  destruct (adjacent_valid h d Hv Hc) as [x [y [Ex [Ey [_ [Hl [Ex' _]]]]]]].
  unfold can_go, top. rewrite Hl.
  destruct Hd as [-> | ->], Hd2 as [-> | ->]; cbn [moved fst] in Ex'; rewrite Ex', Ex;
    reflexivity.
Qed.

Lemma two_moves (h : string) (d d2 : direction) :
  valid_geohash h = true -> can_go h d = true -> can_go h d2 = true ->
  (d = North \/ d = South) -> (d2 = East \/ d2 = West) ->
  valid_geohash (adjacent (adjacent h d) d2) = true /\
  String.length (adjacent (adjacent h d) d2) = String.length h.
Proof.
  intros Hv Hc Hc2 Hd Hd2.
  destruct (adjacent_valid h d Hv Hc) as [x [y [_ [_ [Hv1 [Hl1 _]]]]]].
  rewrite <- (can_go_after h d d2 Hv Hc Hd Hd2) in Hc2.
  destruct (adjacent_valid _ d2 Hv1 Hc2) as [x' [y' [_ [_ [Hv2 [Hl2 _]]]]]].
  split; [exact Hv2|congruence].
Qed.

Lemma one_move (h : string) (d : direction) :
  valid_geohash h = true -> can_go h d = true ->
  valid_geohash (adjacent h d) = true /\
  String.length (adjacent h d) = String.length h.
Proof.
  intros Hv Hc.
  destruct (adjacent_valid h d Hv Hc) as [x [y [_ [_ [Hv1 [Hl1 _]]]]]]. auto.
Qed.

(** C3, amended.  [neighbours] returns the eight keys n, ne, e, se, s, sw,
    w, nw; for a geohash of one to twelve symbols the value under a key is
    a geohash of the same length whenever the cell does not lie on an edge
    of the domain that the key faces. *)
Theorem C3_neighbours_away_from_edges (h : string) :
  valid_geohash h = true ->
  map fst (neighbours h) = ["n"; "ne"; "e"; "se"; "s"; "sw"; "w"; "nw"] /\
  forall key v, In (key, v) (neighbours h) ->
    forallb (can_go h) (moves key) = true ->
    valid_geohash v = true /\ String.length v = String.length h.
Proof.
  intros Hv. split; [reflexivity|].
  intros key v Hin Hgo. unfold neighbours in Hin. cbn [In] in Hin.
  repeat (destruct Hin as [Hin|Hin]; [injection Hin as <- <-|]); [..|contradiction];
    cbn in Hgo; rewrite ?andb_true_r in Hgo;
    try (apply one_move; assumption);
    apply andb_prop in Hgo; destruct Hgo as [G1 G2];
    apply two_moves; auto.
Qed.

Lemma C3_neighbours_away_from_edges_witness :
  map fst (neighbours "3d3d") = ["n"; "ne"; "e"; "se"; "s"; "sw"; "w"; "nw"] /\
  forall key v, In (key, v) (neighbours "3d3d") ->
    forallb (can_go "3d3d") (moves key) = true ->
    valid_geohash v = true /\ String.length v = String.length "3d3d".
Proof.
  apply (C3_neighbours_away_from_edges "3d3d"). reflexivity.
Defined.

(** C3, as stated, fails on the edge of the domain: south of "0" there is
    no geohash but the string "undefined". *)
Lemma C3_neighbours_on_the_edge :
  ~ (forall h, h <> EmptyString -> all_hex h = true ->
     map fst (neighbours h) = ["n"; "ne"; "e"; "se"; "s"; "sw"; "w"; "nw"] /\
     forall key v, In (key, v) (neighbours h) ->
       (v <> EmptyString /\ all_hex v = true) /\
       String.length v = String.length h).
Proof.
  intros H.
  destruct (H "0" ltac:(discriminate) eq_refl) as [_ H0].
  assert (I : In ("s", "undefined") (neighbours "0")).
  { vm_compute. right. right. right. right. left. reflexivity. }
  destruct (H0 "s" "undefined" I) as [[_ A] _].
  vm_compute in A. discriminate A.
Qed.

(** C4. For a geohash of one to twelve symbols whose cell touches no edge
    of the domain, going east then west, or north then south, leads back to
    it. *)
Theorem C4_adjacent_there_and_back (h : string) :
  valid_geohash h = true -> interior h = true ->
  adjacent (adjacent h East) West = h /\ adjacent (adjacent h North) South = h.
Proof.
  intros Hv Hi. unfold interior in Hi.
  apply andb_prop in Hi. destruct Hi as [Hi Gw].
  apply andb_prop in Hi. destruct Hi as [Hi Gs].
  apply andb_prop in Hi. destruct Hi as [Gn Ge].
  split.
  - destruct (adjacent_valid h East Hv Ge) as [x [y [Ex [Ey [Hv1 [Hl1 [Ex1 Ey1]]]]]]].
    cbn [moved fst snd] in Ex1, Ey1.
    assert (Gw1 : can_go (adjacent h East) West = true).
    { unfold can_go in Gw |- *. rewrite Ex in Gw. rewrite Ex1.
      apply Z.ltb_lt in Gw. apply Z.ltb_lt. lia. }
    destruct (adjacent_valid _ West Hv1 Gw1) as [x' [y' [Ex' [Ey' [Hv2 [Hl2 [Ex2 Ey2]]]]]]].
    cbn [moved fst snd] in Ex2, Ey2.
    rewrite Ex1 in Ex'. injection Ex' as <-. rewrite Ey1 in Ey'. injection Ey' as <-.
    apply geohash_determined; try assumption; try congruence.
    rewrite Ex2, Ex. f_equal. lia.
  - destruct (adjacent_valid h North Hv Gn) as [x [y [Ex [Ey [Hv1 [Hl1 [Ex1 Ey1]]]]]]].
    cbn [moved fst snd] in Ex1, Ey1.
    assert (Gs1 : can_go (adjacent h North) South = true).
    { unfold can_go in Gs |- *. rewrite Ey in Gs. rewrite Ey1.
      apply Z.ltb_lt in Gs. apply Z.ltb_lt. lia. }
    destruct (adjacent_valid _ South Hv1 Gs1) as [x' [y' [Ex' [Ey' [Hv2 [Hl2 [Ex2 Ey2]]]]]]].
    cbn [moved fst snd] in Ex2, Ey2.
    rewrite Ex1 in Ex'. injection Ex' as <-. rewrite Ey1 in Ey'. injection Ey' as <-.
    apply geohash_determined; try assumption; try congruence.
    rewrite Ey2, Ey. f_equal. lia.
Qed.

Lemma C4_adjacent_there_and_back_witness :
  adjacent (adjacent "3d3d" East) West = "3d3d" /\ adjacent (adjacent "3d3d" North) South = "3d3d".
Proof.
  apply (C4_adjacent_there_and_back "3d3d"); vm_compute; reflexivity.
Defined.
End Neighbours.

(** ** More on the bit codec, [leftpad] and [interleave] *)

Section Codec.

(** X1. On symbols of the alphabet [binaryToHex] undoes [hexToBinary], which
    writes four binary digits for each symbol. *)
Theorem X1_binaryToHex_of_hexToBinary (h : string) :
  all_hex h = true ->
  binaryToHex (hexToBinary h) = h /\
  bitstring (hexToBinary h) = true /\
  String.length (hexToBinary h) = (4 * String.length h)%nat.
Proof.
  intros H. destruct (hexToBinary_bits h H) as [A [B C]]. auto.
Qed.

Lemma X1_binaryToHex_of_hexToBinary_witness :
  binaryToHex (hexToBinary "3d3d") = "3d3d" /\
  bitstring (hexToBinary "3d3d") = true /\
  String.length (hexToBinary "3d3d") = (4 * String.length "3d3d")%nat.
Proof. apply (X1_binaryToHex_of_hexToBinary "3d3d"). reflexivity. Defined.

(** X2. On binary digits in groups of four [hexToBinary] undoes
    [binaryToHex], which writes one symbol of the alphabet for each group. *)
Theorem X2_hexToBinary_of_binaryToHex (v : string) (m : nat) :
  bitstring v = true -> String.length v = (4 * m)%nat ->
  hexToBinary (binaryToHex v) = v /\
  all_hex (binaryToHex v) = true /\ String.length (binaryToHex v) = m.
Proof.
  intros Hb Hl. destruct (binaryToHex_bits m v Hb Hl) as [A [B C]]. auto.
Qed.

Lemma X2_hexToBinary_of_binaryToHex_witness :
  hexToBinary (binaryToHex "00111101") = "00111101" /\
  all_hex (binaryToHex "00111101") = true /\
  String.length (binaryToHex "00111101") = 2%nat.
Proof. apply (X2_hexToBinary_of_binaryToHex "00111101" 2); reflexivity. Defined.

Lemma lookup_binaryHexMap (r x : string) :
  lookup binaryHexMap r = Some x ->
  bitstring r = true /\ String.length r = 4%nat /\
  exists c, is_hex c = true /\ x = String c EmptyString.
Proof.
  unfold binaryHexMap. cbn [lookup].
  repeat (match goal with
          | |- (if String.eqb ?k r then _ else _) = _ -> _ =>
              destruct (String.eqb k r) eqn:E;
              [apply String.eqb_eq in E; subst r; intros H; injection H as <-;
               split; [reflexivity|]; split; [reflexivity|];
               eexists; split; [|reflexivity]; reflexivity|clear E]
          end).
  discriminate.
Qed.

Lemma all_hex_undefined (t : string) : all_hex ("undefined" ++ t) = false.
Proof. reflexivity. Qed.

Lemma bitstring_undefined (t : string) : bitstring ("undefined" ++ t) = false.
Proof. reflexivity. Qed.

Lemma binaryToHex_short (v : string) :
  (1 <= String.length v <= 3)%nat -> binaryToHex v = "undefined".
Proof.
  intros H. unfold binaryToHex.
  destruct v as [|a [|b [|c [|d rest]]]]; cbn [String.length] in H; try lia;
    cbn [binaryToHex_loop];
    (destruct (lookup binaryHexMap _) as [x|] eqn:E; [|reflexivity]);
    apply lookup_binaryHexMap in E; destruct E as [_ [E _]]; discriminate E.
Qed.

Lemma binaryToHex_alphabet (m : nat) (v : string) :
  (String.length v <= m)%nat ->
  all_hex (binaryToHex v) = bitstring v && (String.length v mod 4 =? 0)%nat.
Proof.
  revert v. induction m as [|m IH]; intros v Hl.
  - destruct v; cbn in Hl; [reflexivity|lia].
  - destruct v as [|a [|b [|c [|d rest]]]];
      try (rewrite binaryToHex_short by (cbn; lia); cbn [String.length];
           rewrite andb_comm; reflexivity).
    + reflexivity.
    + rewrite binaryToHex_four. cbn [String.length] in Hl |- *.
      replace (S (S (S (S (String.length rest))))) with (String.length rest + 1 * 4)%nat by lia.
      rewrite Nat.Div0.mod_add.
      destruct (lookup binaryHexMap (String a (String b (String c (String d EmptyString)))))
        as [x|] eqn:E.
      * destruct (lookup_binaryHexMap _ _ E) as [Hb [_ [c0 [Hc ->]]]].
        unfold append_property. cbn [append].
        unfold all_hex at 1. cbn [list_ascii_of_string forallb]. rewrite Hc. cbn [andb].
        fold (all_hex (binaryToHex rest)). rewrite (IH rest) by lia.
        unfold bitstring in Hb |- *. cbn [list_ascii_of_string forallb] in Hb |- *.
        apply andb_prop in Hb. destruct Hb as [-> Hb].
        apply andb_prop in Hb. destruct Hb as [-> Hb].
        apply andb_prop in Hb. destruct Hb as [-> Hb].
        apply andb_prop in Hb. destruct Hb as [-> _]. reflexivity.
      * unfold append_property. cbn [append].
        change (String "u" (String "n" (String "d" (String "e" (String "f"
                 (String "i" (String "n" (String "e" (String "d" (binaryToHex rest))))))))))
          with ("undefined" ++ binaryToHex rest)%string.
        rewrite all_hex_undefined.
        destruct (bitstring (String a (String b (String c (String d rest))))) eqn:Hb;
          [exfalso|reflexivity].
        unfold bitstring in Hb. cbn [list_ascii_of_string forallb] in Hb.
        apply andb_prop in Hb. destruct Hb as [Ba Hb].
        apply andb_prop in Hb. destruct Hb as [Bb Hb].
        apply andb_prop in Hb. destruct Hb as [Bc Hb].
        apply andb_prop in Hb. destruct Hb as [Bd _].
        destruct (symbol a b c d Ba Bb Bc Bd) as [c0 [_ [E1 _]]].
        unfold append_property in E1. rewrite E in E1. discriminate E1.
Qed.

(** X3. [binaryToHex] returns symbols of the alphabet only for binary
    digits in groups of four: any other character, or a last group of one
    to three, puts the letters of "undefined" into the result. *)
Theorem X3_binaryToHex_alphabet (v : string) :
  all_hex (binaryToHex v) = bitstring v && (String.length v mod 4 =? 0)%nat.
Proof. apply (binaryToHex_alphabet (String.length v)). lia. Qed.

Lemma hexBinaryMap_entry (c : ascii) :
  if is_hex c
  then bitstring (append_property EmptyString
                    (lookup hexBinaryMap (String c EmptyString))) = true
  else append_property EmptyString (lookup hexBinaryMap (String c EmptyString))
       = "undefined".
Proof. destruct c as [[] [] [] [] [] [] [] []]; reflexivity. Qed.

(** X4. [hexToBinary] returns binary digits only for symbols of the
    alphabet in lower case; it does not fold the case as [bounds] does. *)
Theorem X4_hexToBinary_digits (h : string) :
  bitstring (hexToBinary h) = all_hex h.
Proof.
  induction h as [|c h IH]; [reflexivity|].
  rewrite hexToBinary_cons, bitstring_app, IH.
  unfold all_hex. cbn [list_ascii_of_string forallb].
  pose proof (hexBinaryMap_entry c) as H. destruct (is_hex c).
  - rewrite H. reflexivity.
  - rewrite H. reflexivity.
Qed.

Lemma leftpad_nonempty (s0 : string) (num : nat) :
  s0 <> EmptyString -> leftpad s0 num <> EmptyString.
Proof.
  intros H E. apply (f_equal String.length) in E. rewrite leftpad_length in E.
  destruct s0; [congruence|]. cbn in E. lia.
Qed.

(** X5. [leftpad] puts [num] characters before the string, and before the
    digits of a binary numeral they do not change the number that
    [parseInt] reads. *)
Theorem X5_leftpad_keeps_number (s0 : string) (num : nat) :
  bitstring s0 = true -> s0 <> EmptyString ->
  String.length (leftpad s0 num) = (num + String.length s0)%nat /\
  bitstring (leftpad s0 num) = true /\
  parseInt2 (leftpad s0 num) = parseInt2 s0.
Proof.
  intros Hb Hn. destruct (leftpad_bits s0 num) as [L1 L2].
  split; [apply leftpad_length|]. split; [rewrite L1; exact Hb|].
  rewrite (parseInt2_bits (leftpad s0 num)); [|rewrite L1; exact Hb|apply leftpad_nonempty; exact Hn].
  rewrite (parseInt2_bits s0 Hb Hn), L2. reflexivity.
Qed.

Lemma X5_leftpad_keeps_number_witness :
  String.length (leftpad "101" 3) = (3 + String.length "101")%nat /\
  bitstring (leftpad "101" 3) = true /\
  parseInt2 (leftpad "101" 3) = parseInt2 "101".
Proof. apply (X5_leftpad_keeps_number "101" 3); [reflexivity|discriminate]. Defined.

Lemma interleave_zip (a b : string) :
  interleave a b =
  zip (leftpad a (String.length b - String.length a))
      (leftpad b (String.length a - String.length b)).
Proof.
  destruct (Nat.le_ge_cases (String.length a) (String.length b)) as [H|H].
  - rewrite interleave_pad_left by exact H.
    replace (String.length a - String.length b)%nat with 0%nat by lia.
    rewrite leftpad_zero. reflexivity.
  - rewrite interleave_pad_right by exact H.
    replace (String.length b - String.length a)%nat with 0%nat by lia.
    rewrite leftpad_zero. reflexivity.
Qed.

(** X6. Separating what [interleave] returns gives the two strings back,
    the shorter one padded to the length of the longer one; the result has
    twice that length. *)
Theorem X6_separate_of_interleave (a b : string) :
  separate (interleave a b) 0 EmptyString EmptyString =
    (leftpad a (String.length b - String.length a),
     leftpad b (String.length a - String.length b)) /\
  String.length (interleave a b) =
    (2 * Nat.max (String.length a) (String.length b))%nat.
Proof.
  rewrite interleave_zip, separate_start.
  assert (E : String.length (leftpad a (String.length b - String.length a)) =
              String.length (leftpad b (String.length a - String.length b))).
  { rewrite !leftpad_length. lia. }
  split; [apply unzip_zip; exact E|].
  rewrite length_zip by exact E. rewrite leftpad_length. lia.
Qed.

(** X7. Interleaving what the loop of [adjacent] separates from a string of
    even length gives the string back. *)
Theorem X7_interleave_of_separate (v : string) :
  Nat.even (String.length v) = true ->
  interleave (fst (separate v 0 EmptyString EmptyString))
             (snd (separate v 0 EmptyString EmptyString)) = v.
Proof.
  intros He. apply Nat.even_spec in He. destruct He as [m Hm].
  destruct (zip_unzip m v Hm) as [Z1 [Z2 Z3]].
  rewrite separate_start, interleave_zip, Z2, Z3, Nat.sub_diag, !leftpad_zero.
  exact Z1.
Qed.

Lemma X7_interleave_of_separate_witness :
  interleave (fst (separate "00111101" 0 EmptyString EmptyString))
             (snd (separate "00111101" 0 EmptyString EmptyString)) = "00111101".
Proof. apply (X7_interleave_of_separate "00111101"). reflexivity. Defined.
End Codec.

(** ** More on [adjacent] and [neighbours] *)

Section Moves.

Lemma coordinates_range (h : string) (x y : Z) :
  valid_geohash h = true -> lng_of h = IInt x -> lat_of h = IInt y ->
  0 <= x <= top h /\ 0 <= y <= top h.
Proof.
  intros Hv Ex Ey.
  destruct (coordinates h Hv) as [x0 [y0 [Rx [Ry [_ [Ex0 [Ey0 _]]]]]]].
  rewrite Ex in Ex0. injection Ex0 as <-. rewrite Ey in Ey0. injection Ey0 as <-.
  unfold top. rewrite Nat2Z.inj_mul in Rx, Ry. change (Z.of_nat 2) with 2 in Rx, Ry. lia.
Qed.

Lemma can_go_opposite (h : string) (d : direction) :
  valid_geohash h = true -> can_go h d = true ->
  can_go (adjacent h d) (opposite d) = true.
Proof.
  intros Hv Hc.
  destruct (adjacent_valid h d Hv Hc) as [x [y [Ex [Ey [_ [Hl [Ex1 Ey1]]]]]]].
  destruct (coordinates_range h x y Hv Ex Ey) as [Rx Ry].
  unfold can_go, top in *. rewrite Hl. rewrite Ex, Ey in Hc.
  destruct d; cbn [opposite moved fst snd] in *; rewrite ?Ex1, ?Ey1;
    apply Z.ltb_lt in Hc; apply Z.ltb_lt; lia.
Qed.

(** X8. A move that stays in the domain is undone by the move in the
    opposite direction, whichever of the four it is. *)
Theorem X8_adjacent_opposite (h : string) (d : direction) :
  valid_geohash h = true -> can_go h d = true ->
  adjacent (adjacent h d) (opposite d) = h.
Proof.
  intros Hv Hc.
  pose proof (can_go_opposite h d Hv Hc) as Hc1.
  destruct (adjacent_valid h d Hv Hc) as [x [y [Ex [Ey [Hv1 [Hl1 [Ex1 Ey1]]]]]]].
  destruct (adjacent_valid _ _ Hv1 Hc1) as [x' [y' [Ex' [Ey' [Hv2 [Hl2 [Ex2 Ey2]]]]]]].
  rewrite Ex1 in Ex'. injection Ex' as <-. rewrite Ey1 in Ey'. injection Ey' as <-.
  apply geohash_determined; try assumption; try congruence.
  - rewrite Ex2, Ex. destruct d; cbn [opposite moved fst snd]; f_equal; lia.
  - rewrite Ey2, Ey. destruct d; cbn [opposite moved fst snd]; f_equal; lia.
Qed.

Lemma X8_adjacent_opposite_witness :
  adjacent (adjacent "3d3d" West) (opposite West) = "3d3d".
Proof. apply (X8_adjacent_opposite "3d3d" West); vm_compute; reflexivity. Defined.

(** A move along one axis leaves the room along the other. *)
Lemma can_go_across (h : string) (d d2 : direction) :
  valid_geohash h = true -> can_go h d = true ->
  d2 <> d -> d2 <> opposite d ->
  can_go (adjacent h d) d2 = can_go h d2.
Proof.
  intros Hv Hc N1 N2.
  destruct (adjacent_valid h d Hv Hc) as [x [y [Ex [Ey [_ [Hl [Ex1 Ey1]]]]]]].
  unfold can_go, top. rewrite Hl.
  destruct d, d2; cbn [opposite] in N1, N2; try congruence;
    cbn [moved fst snd] in Ex1, Ey1; rewrite ?Ex1, ?Ey1, ?Ex, ?Ey; reflexivity.
Qed.

(** The coordinates after two moves along different axes. *)
Lemma two_moves_coordinates (h : string) (d d2 : direction) (x y : Z) :
  valid_geohash h = true -> lng_of h = IInt x -> lat_of h = IInt y ->
  can_go h d = true -> can_go h d2 = true -> d2 <> d -> d2 <> opposite d ->
  let h2 := adjacent (adjacent h d) d2 in
  valid_geohash h2 = true /\ String.length h2 = String.length h /\
  lng_of h2 = IInt (fst (moved d2 (fst (moved d x y)) (snd (moved d x y)))) /\
  lat_of h2 = IInt (snd (moved d2 (fst (moved d x y)) (snd (moved d x y)))).
Proof.
  intros Hv Ex Ey Hc Hc2 N1 N2. cbv zeta.
  destruct (adjacent_valid h d Hv Hc) as [x0 [y0 [Ex0 [Ey0 [Hv1 [Hl1 [Ex1 Ey1]]]]]]].
  rewrite Ex in Ex0. injection Ex0 as <-. rewrite Ey in Ey0. injection Ey0 as <-.
  rewrite <- (can_go_across h d d2 Hv Hc N1 N2) in Hc2.
  destruct (adjacent_valid _ d2 Hv1 Hc2) as [x' [y' [Ex' [Ey' [Hv2 [Hl2 [Ex2 Ey2]]]]]]].
  rewrite Ex1 in Ex'. injection Ex' as <-. rewrite Ey1 in Ey'. injection Ey' as <-.
  split; [exact Hv2|]. split; [congruence|]. split; assumption.
Qed.

(** X9. Two moves along different axes that stay in the domain lead to the
    same geohash in either order: a diagonal entry of [neighbours] does not
    depend on the order in which the code makes its two moves. *)
Theorem X9_adjacent_commutes (h : string) (d d2 : direction) :
  valid_geohash h = true -> can_go h d = true -> can_go h d2 = true ->
  d2 <> d -> d2 <> opposite d ->
  adjacent (adjacent h d) d2 = adjacent (adjacent h d2) d.
Proof.
  intros Hv Hc Hc2 N1 N2.
  destruct (coordinates h Hv) as [x [y [_ [_ [_ [Ex [Ey _]]]]]]].
  assert (M1 : d <> d2) by congruence.
  assert (M2 : d <> opposite d2) by (destruct d, d2; cbn in *; congruence).
  destruct (two_moves_coordinates h d d2 x y Hv Ex Ey Hc Hc2 N1 N2) as [A1 [A2 [A3 A4]]].
  destruct (two_moves_coordinates h d2 d x y Hv Ex Ey Hc2 Hc M1 M2) as [B1 [B2 [B3 B4]]].
  apply geohash_determined; try assumption; try congruence.
  - rewrite A3, B3. destruct d, d2; cbn [moved fst snd]; try congruence; f_equal; lia.
  - rewrite A4, B4. destruct d, d2; cbn [moved fst snd]; try congruence; f_equal; lia.
Qed.

Lemma X9_adjacent_commutes_witness :
  adjacent (adjacent "3d3d" North) East = adjacent (adjacent "3d3d" East) North.
Proof.
  apply (X9_adjacent_commutes "3d3d" North East);
    try (vm_compute; reflexivity); discriminate.
Defined.

(** *** Off the edge *)

Lemma bitstring_zip_both (a b : string) :
  String.length a = String.length b ->
  bitstring (zip a b) = bitstring a && bitstring b.
Proof.
  unfold bitstring. revert b. induction a as [|x a IH]; intros b Hl.
  - destruct b; [reflexivity|cbn in Hl; lia].
  - destruct b as [|y b]; cbn [String.length] in Hl; [lia|].
    cbn [zip list_ascii_of_string forallb]. rewrite (IH b) by lia.
    destruct (is_bit x), (is_bit y), (forallb is_bit (list_ascii_of_string a)); reflexivity.
Qed.

Lemma interleave_shape (a b : string) :
  bitstring (interleave a b) = bitstring a && bitstring b /\
  String.length (interleave a b) =
    (2 * Nat.max (String.length a) (String.length b))%nat.
Proof.
  rewrite interleave_zip.
  assert (E : String.length (leftpad a (String.length b - String.length a)) =
              String.length (leftpad b (String.length a - String.length b))).
  { rewrite !leftpad_length. lia. }
  split.
  - rewrite bitstring_zip_both by exact E.
    rewrite (proj1 (leftpad_bits a _)), (proj1 (leftpad_bits b _)). reflexivity.
  - rewrite length_zip by exact E. rewrite leftpad_length. lia.
Qed.

(** The numeral of [2 ^ k] has one digit more than [k]. *)
Lemma numeral_over (k : nat) :
  (1 <= k)%nat ->
  bitstring (toString2 (IInt (2 ^ Z.of_nat k))) = true /\
  String.length (toString2 (IInt (2 ^ Z.of_nat k))) = S k.
Proof.
  intros Hk.
  assert (P : 0 < 2 ^ Z.of_nat k) by (apply Z.pow_pos_nonneg; lia).
  destruct (toString2_spec (2 ^ Z.of_nat k) (S k)) as [T1 [T2 T3]].
  { rewrite Nat2Z.inj_succ, Z.pow_succ_r by lia. lia. }
  { lia. }
  split; [exact T1|].
  pose proof (binval_bound (toString2 (IInt (2 ^ Z.of_nat k)))) as B.
  rewrite T2 in B. destruct B as [_ B].
  apply Z.pow_lt_mono_r_iff in B; lia.
Qed.

Lemma odd_pairs (L : nat) : ((2 * S (2 * L)) mod 4 =? 0)%nat = false.
Proof.
  replace (2 * S (2 * L))%nat with (2 + L * 4)%nat by lia.
  rewrite Nat.Div0.mod_add. reflexivity.
Qed.

(** A move off the edge of the domain gives no geohash: the numeral of the
    moved coordinate is [-1] or has a digit too many. *)
Lemma adjacent_off_edge (h : string) (d : direction) :
  valid_geohash h = true -> can_go h d = false ->
  all_hex (adjacent h d) = false.
Proof.
  intros Hv Hc. destruct (valid_geohash_inv h Hv) as [Hl _].
  destruct (coordinates h Hv) as [x [y [Rx [Ry [Es [Ex [Ey _]]]]]]].
  set (k := (2 * String.length h)%nat) in *.
  destruct (bin_spec k x Rx) as [X1 [X2 X3]]. destruct (bin_spec k y Ry) as [Y1 [Y2 Y3]].
  pose proof (pow2_le_53 k ltac:(lia)) as Hp.
  assert (Nx : bin k x <> EmptyString) by (intros E0; rewrite E0 in X2; cbn in X2; lia).
  assert (Ny : bin k y <> EmptyString) by (intros E0; rewrite E0 in Y2; cbn in Y2; lia).
  assert (Px : parseInt2 (bin k x) = IInt x).
  { rewrite parseInt2_bits, X3 by assumption. apply integral_of_Z_small. lia. }
  assert (Py : parseInt2 (bin k y) = IInt y).
  { rewrite parseInt2_bits, Y3 by assumption. apply integral_of_Z_small. lia. }
  assert (Ht : top h = 2 ^ Z.of_nat k - 1).
  { unfold top, k. rewrite Nat2Z.inj_mul. reflexivity. }
  destruct (numeral_over k ltac:(lia)) as [O1 O2].
  unfold can_go in Hc. rewrite Ex, Ey, Ht in Hc.
  unfold adjacent. rewrite Es. rewrite Px, Py. cbn [iadd].
  destruct d; apply Z.ltb_ge in Hc;
    rewrite (binaryToHex_alphabet _ _ (Nat.le_refl _)).
  - replace (y + 1) with (2 ^ Z.of_nat k) by lia.
    rewrite integral_of_Z_small by lia.
    destruct (interleave_shape (bin k x) (toString2 (IInt (2 ^ Z.of_nat k)))) as [_ ->].
    rewrite X2, O2. replace (Nat.max k (S k)) with (S (2 * String.length h)) by lia.
    rewrite odd_pairs. apply andb_false_r.
  - replace (x + 1) with (2 ^ Z.of_nat k) by lia.
    rewrite integral_of_Z_small by lia.
    destruct (interleave_shape (toString2 (IInt (2 ^ Z.of_nat k))) (bin k y)) as [_ ->].
    rewrite Y2, O2. replace (Nat.max (S k) k) with (S (2 * String.length h)) by lia.
    rewrite odd_pairs. apply andb_false_r.
  - replace (x + -1) with (-1) by lia.
    rewrite integral_of_Z_small by (cbn; lia).
    destruct (interleave_shape (toString2 (IInt (-1))) (bin k y)) as [-> _].
    reflexivity.
  - replace (y + -1) with (-1) by lia.
    rewrite integral_of_Z_small by (cbn; lia).
    destruct (interleave_shape (bin k x) (toString2 (IInt (-1)))) as [-> _].
    rewrite X1. reflexivity.
Qed.

(** X10. For a geohash [h], the result of [adjacent] is a geohash exactly
    when the cell of [h] is not on the edge that the direction faces; off
    the edge the result is not even made of symbols of the alphabet. *)
Theorem X10_adjacent_valid_iff (h : string) (d : direction) :
  valid_geohash h = true ->
  valid_geohash (adjacent h d) = can_go h d /\
  all_hex (adjacent h d) = can_go h d.
Proof.
  intros Hv. destruct (can_go h d) eqn:Hc.
  - destruct (adjacent_valid h d Hv Hc) as [x [y [_ [_ [Hv1 _]]]]].
    split; [exact Hv1|]. apply valid_geohash_inv in Hv1. apply Hv1.
  - pose proof (adjacent_off_edge h d Hv Hc) as H.
    split; [|exact H]. unfold valid_geohash. rewrite H. apply andb_false_r.
Qed.

Lemma X10_adjacent_valid_iff_witness :
  valid_geohash (adjacent "ff" North) = can_go "ff" North /\
  all_hex (adjacent "ff" North) = can_go "ff" North.
Proof. apply (X10_adjacent_valid_iff "ff" North). reflexivity. Defined.

(** *** The eight neighbours *)

Lemma neighbours_coordinates (h : string) (x y : Z) :
  valid_geohash h = true -> interior h = true ->
  lng_of h = IInt x -> lat_of h = IInt y ->
  map (fun kv => (lng_of (snd kv), lat_of (snd kv))) (neighbours h) = around x y /\
  Forall (fun kv => valid_geohash (snd kv) = true /\
                    String.length (snd kv) = String.length h) (neighbours h).
Proof.
  intros Hv Hi Ex Ey. unfold interior in Hi.
  apply andb_prop in Hi. destruct Hi as [Hi HW].
  apply andb_prop in Hi. destruct Hi as [Hi HS].
  apply andb_prop in Hi. destruct Hi as [HN HE].
  assert (One : forall d, can_go h d = true ->
            valid_geohash (adjacent h d) = true /\
            String.length (adjacent h d) = String.length h /\
            lng_of (adjacent h d) = IInt (fst (moved d x y)) /\
            lat_of (adjacent h d) = IInt (snd (moved d x y))).
  { intros d Hc.
    destruct (adjacent_valid h d Hv Hc) as [x0 [y0 [Ex0 [Ey0 R]]]].
    rewrite Ex in Ex0. injection Ex0 as <-. rewrite Ey in Ey0. injection Ey0 as <-.
    exact R. }
  destruct (One North HN) as [N1 [N2 [N3 N4]]].
  destruct (One East HE) as [E1 [E2 [E3 E4]]].
  destruct (One South HS) as [S1 [S2 [S3 S4]]].
  destruct (One West HW) as [W1 [W2 [W3 W4]]].
  destruct (two_moves_coordinates h North East x y Hv Ex Ey HN HE
              ltac:(discriminate) ltac:(discriminate)) as [A1 [A2 [A3 A4]]].
  destruct (two_moves_coordinates h South East x y Hv Ex Ey HS HE
              ltac:(discriminate) ltac:(discriminate)) as [B1 [B2 [B3 B4]]].
  destruct (two_moves_coordinates h South West x y Hv Ex Ey HS HW
              ltac:(discriminate) ltac:(discriminate)) as [C1 [C2 [C3 C4]]].
  destruct (two_moves_coordinates h North West x y Hv Ex Ey HN HW
              ltac:(discriminate) ltac:(discriminate)) as [D1 [D2 [D3 D4]]].
  cbn [moved fst snd] in *.
  split.
  - unfold neighbours, around. cbn [map snd].
    rewrite N3, N4, E3, E4, S3, S4, W3, W4, A3, A4, B3, B4, C3, C4, D3, D4.
    reflexivity.
  - unfold neighbours. repeat (apply Forall_cons; [cbn [snd]; split; assumption|]).
    apply Forall_nil.
Qed.

Lemma around_distinct (x y : Z) :
  NoDup (around x y) /\ ~ In (IInt x, IInt y) (around x y).
Proof.
  split.
  - unfold around.
    repeat (apply NoDup_cons;
            [cbn [In]; intros H;
             repeat (destruct H as [H|H]; [injection H; lia|]); exact H|]).
    apply NoDup_nil.
  - unfold around. cbn [In]. intros H.
    repeat (destruct H as [H|H]; [injection H; lia|]). exact H.
Qed.

(** X11. Away from the edges of the domain the eight entries of
    [neighbours] are geohashes of the length of the argument, at the
    coordinates one step away in the direction of their key: north adds one
    to the latitude number, east one to the longitude number. *)
Theorem X11_neighbours_coordinates (h : string) (x y : Z) :
  valid_geohash h = true -> interior h = true ->
  lng_of h = IInt x -> lat_of h = IInt y ->
  map fst (neighbours h) = ["n"; "ne"; "e"; "se"; "s"; "sw"; "w"; "nw"]%string /\
  map (fun kv => (lng_of (snd kv), lat_of (snd kv))) (neighbours h) = around x y /\
  Forall (fun kv => valid_geohash (snd kv) = true /\
                    String.length (snd kv) = String.length h) (neighbours h).
Proof.
  intros Hv Hi Ex Ey. split; [reflexivity|].
  apply neighbours_coordinates; assumption.
Qed.

Lemma X11_neighbours_coordinates_witness :
  map fst (neighbours "3d3d") = ["n"; "ne"; "e"; "se"; "s"; "sw"; "w"; "nw"]%string /\
  map (fun kv => (lng_of (snd kv), lat_of (snd kv))) (neighbours "3d3d") = around 102 119 /\
  Forall (fun kv => valid_geohash (snd kv) = true /\
                    String.length (snd kv) = String.length "3d3d") (neighbours "3d3d").
Proof.
  apply (X11_neighbours_coordinates "3d3d" 102 119); vm_compute; reflexivity.
Defined.

(** X12. Away from the edges of the domain the eight neighbours are eight
    different geohashes, none of them the argument. *)
Theorem X12_neighbours_distinct (h : string) :
  valid_geohash h = true -> interior h = true ->
  NoDup (map snd (neighbours h)) /\ ~ In h (map snd (neighbours h)).
Proof.
  intros Hv Hi.
  destruct (coordinates h Hv) as [x [y [_ [_ [_ [Ex [Ey _]]]]]]].
  destruct (neighbours_coordinates h x y Hv Hi Ex Ey) as [Hm _].
  destruct (around_distinct x y) as [A1 A2].
  rewrite <- Hm in A1, A2.
  rewrite <- (map_map snd (fun g => (lng_of g, lat_of g))) in A1, A2.
  split.
  - apply (NoDup_map_inv _ _ A1).
  - intros H. apply A2. rewrite <- Ex, <- Ey.
    apply (in_map (fun g => (lng_of g, lat_of g))). exact H.
Qed.

Lemma X12_neighbours_distinct_witness :
  NoDup (map snd (neighbours "3d3d")) /\ ~ In "3d3d" (map snd (neighbours "3d3d")).
Proof. apply (X12_neighbours_distinct "3d3d"); vm_compute; reflexivity. Defined.
End Moves.

(** ** The cells as a grid *)

Section Grid.

Local Open Scope Q_scope.

Lemma exact_even (kx ky : Z) (b : bisection) :
  exact kx ky b -> evenBit b = (kx =? ky)%Z.
Proof.
  intros [_ [_ [_ H]]]. destruct (evenBit b); subst kx; symmetry.
  - apply Z.eqb_refl.
  - apply Z.eqb_neq. lia.
Qed.

Lemma bit_at_cases (idx : Z) (n : nat) : bit_at idx n = 0%Z \/ bit_at idx n = 1%Z.
Proof.
  unfold bit_at. change (Z.land (Z.shiftr idx (Z.of_nat n)) 1)
    with (Z.land (Z.shiftr idx (Z.of_nat n)) (Z.ones 1)).
  rewrite Z.land_ones by lia.
  pose proof (Z.mod_pos_bound (Z.shiftr idx (Z.of_nat n)) (2 ^ 1) ltac:(lia)) as H.
  change (2 ^ 1)%Z with 2%Z in *. lia.
Qed.

(** One bit of [bounds] halves the cell along the active axis and doubles
    its number there, adding the bit. *)
Lemma grid_bit (t kx ky x y : Z) (b : bisection) :
  exact kx ky b -> (kx <= 40)%Z -> (t = 0 \/ t = 1)%Z -> grid kx ky x y b ->
  grid (if evenBit b then kx + 1 else kx) (if evenBit b then ky else ky + 1)
       (if evenBit b then 2 * x + t else x) (if evenBit b then y else 2 * y + t)
       (bounds_bit t b).
Proof.
  intros He Hle Ht [G1 [G2 [G3 G4]]].
  pose proof (exact_bounds _ _ _ He) as Hb.
  destruct He as [Hx [Hy [H0 Hk]]]. unfold bounds_bit.
  destruct (evenBit b) eqn:Ev.
  - destruct (mid_exact 68 kx _ _ Hx ltac:(lra) ltac:(lra) ltac:(lia)) as [M _].
    destruct Ht as [-> | ->]; cbn [Z.eqb Pos.eqb];
      unfold grid, flip, set_lonMin, set_lonMax; cbn [lonMin lonMax latMin latMax];
      (split; [|split; [|split; assumption]]);
      rewrite ?M, ?G1, ?G2, ?inject_Z_plus, ?inject_Z_mult, ?pow2_neg_succ;
      change (inject_Z 2) with 2; change (inject_Z 1) with 1; change (inject_Z 0) with 0;
      field.
  - destruct (mid_exact 6 ky _ _ Hy ltac:(lra) ltac:(lra) ltac:(lia)) as [M _].
    destruct Ht as [-> | ->]; cbn [Z.eqb Pos.eqb];
      unfold grid, flip, set_latMin, set_latMax; cbn [lonMin lonMax latMin latMax];
      (split; [assumption|split; [assumption|split]]);
      rewrite ?M, ?G3, ?G4, ?inject_Z_plus, ?inject_Z_mult, ?pow2_neg_succ;
      change (inject_Z 2) with 2; change (inject_Z 1) with 1; change (inject_Z 0) with 0;
      field.
Qed.

(** One symbol: four bits, longitude first. *)
Lemma grid_char (idx k x y : Z) (b : bisection) :
  exact k k b -> (k <= 37)%Z -> grid k k x y b ->
  grid (k + 2) (k + 2)
       (4 * x + 2 * bit_at idx 3 + bit_at idx 1)
       (4 * y + 2 * bit_at idx 2 + bit_at idx 0)
       (bounds_bits 4 idx b).
Proof.
  intros He Hk G. cbn [bounds_bits]. fold (bit_at idx 3) (bit_at idx 2) (bit_at idx 1).
  change (Z.land (Z.shiftr idx (Z.of_nat 0)) 1) with (bit_at idx 0).
  pose proof (exact_even _ _ _ He) as E0. rewrite Z.eqb_refl in E0.
  destruct (bounds_bit_exact (bit_at idx 3) _ _ _ He ltac:(lia)) as [He1 _].
  pose proof (grid_bit (bit_at idx 3) _ _ _ _ _ He ltac:(lia) (bit_at_cases idx 3) G) as G1.
  rewrite E0 in He1, G1. set (b1 := bounds_bit (bit_at idx 3) b) in *.
  pose proof (exact_even _ _ _ He1) as E1.
  replace (k + 1 =? k)%Z with false in E1 by (symmetry; apply Z.eqb_neq; lia).
  destruct (bounds_bit_exact (bit_at idx 2) _ _ _ He1 ltac:(lia)) as [He2 _].
  pose proof (grid_bit (bit_at idx 2) _ _ _ _ _ He1 ltac:(lia) (bit_at_cases idx 2) G1) as G2.
  rewrite E1 in He2, G2. set (b2 := bounds_bit (bit_at idx 2) b1) in *.
  pose proof (exact_even _ _ _ He2) as E2. rewrite Z.eqb_refl in E2.
  destruct (bounds_bit_exact (bit_at idx 1) _ _ _ He2 ltac:(lia)) as [He3 _].
  pose proof (grid_bit (bit_at idx 1) _ _ _ _ _ He2 ltac:(lia) (bit_at_cases idx 1) G2) as G3.
  rewrite E2 in He3, G3. set (b3 := bounds_bit (bit_at idx 1) b2) in *.
  pose proof (exact_even _ _ _ He3) as E3.
  replace (k + 1 + 1 =? k + 1)%Z with false in E3 by (symmetry; apply Z.eqb_neq; lia).
  pose proof (grid_bit (bit_at idx 0) _ _ _ _ _ He3 ltac:(lia) (bit_at_cases idx 0) G3) as G4.
  rewrite E3 in G4.
  replace (k + 2)%Z with (k + 1 + 1)%Z by ring.
  replace (4 * x + 2 * bit_at idx 3 + bit_at idx 1)%Z
    with (2 * (2 * x + bit_at idx 3) + bit_at idx 1)%Z by ring.
  replace (4 * y + 2 * bit_at idx 2 + bit_at idx 0)%Z
    with (2 * (2 * y + bit_at idx 2) + bit_at idx 0)%Z by ring.
  exact G4.
Qed.

Lemma unzip_two (c1 c2 : ascii) (rest : string) :
  unzip (String c1 (String c2 rest)) =
  (String c1 (fst (unzip rest)), String c2 (snd (unzip rest))).
Proof. cbn [unzip]. destruct (unzip rest); reflexivity. Qed.

(** The bits that [hexToBinary] writes for a symbol are those that [bounds]
    reads from its index. *)
Lemma char_coordinates (c : ascii) (rest : string) (x y : Z) :
  is_hex c = true ->
  let nib := append_property EmptyString (lookup hexBinaryMap (String c EmptyString)) in
  let idx := indexOf base16 c in
  binval (fst (unzip (nib ++ rest))) x =
    binval (fst (unzip rest)) (4 * x + 2 * bit_at idx 3 + bit_at idx 1) /\
  binval (snd (unzip (nib ++ rest))) y =
    binval (snd (unzip rest)) (4 * y + 2 * bit_at idx 2 + bit_at idx 0).
Proof.
  intros Hc. cbv zeta.
  destruct c as [[] [] [] [] [] [] [] []]; try discriminate Hc;
    match goal with
    | |- context [append_property EmptyString ?l] =>
        let v := eval vm_compute in (append_property EmptyString l) in
        change (append_property EmptyString l) with v
    end;
    match goal with
    | |- context [indexOf base16 ?a] =>
        let v := eval vm_compute in (indexOf base16 a) in
        change (indexOf base16 a) with v
    end;
    cbn [append]; rewrite !unzip_two; cbn [fst snd binval];
    split; f_equal; vm_compute bit_at; cbn [Ascii.eqb Bool.eqb]; lia.
Qed.

(** The loop of [bounds] arrives at the cell whose numbers are spelled by
    the alternate bits of the symbols. *)
Lemma bounds_chars_grid (h : string) (k x y : Z) (b : bisection) :
  all_hex h = true -> exact k k b -> grid k k x y b ->
  (k + 2 * Z.of_nat (String.length h) <= 39)%Z ->
  exists bf, bounds_chars h b = Return bf /\
    grid (k + 2 * Z.of_nat (String.length h)) (k + 2 * Z.of_nat (String.length h))
         (binval (fst (unzip (hexToBinary h))) x)
         (binval (snd (unzip (hexToBinary h))) y) bf.
Proof.
  revert k x y b. induction h as [|c h IH]; intros k x y b Hh He G Hk.
  - exists b. split; [reflexivity|]. cbn [String.length].
    replace (k + 2 * Z.of_nat 0)%Z with k by lia. exact G.
  - unfold all_hex in Hh. cbn [list_ascii_of_string forallb] in Hh.
    apply andb_prop in Hh. destruct Hh as [Hc Hh].
    cbn [String.length] in Hk |- *. cbn [bounds_chars].
    destruct (is_hex_index c Hc) as [Hi16 _].
    destruct (Z.eqb_spec (indexOf base16 c) (-1)) as [|_]; [lia|].
    destruct (bounds_char_exact (indexOf base16 c) k b He ltac:(lia)) as [He1 _].
    pose proof (grid_char (indexOf base16 c) k x y b He ltac:(lia) G) as G1.
    destruct (IH (k + 2)%Z _ _ _ Hh He1 G1 ltac:(lia)) as [bf [E Gf]].
    exists bf. split; [exact E|].
    rewrite hexToBinary_cons.
    destruct (char_coordinates c (hexToBinary h) x y Hc) as [-> ->].
    replace (k + 2 * Z.of_nat (S (String.length h)))%Z
      with (k + 2 + 2 * Z.of_nat (String.length h))%Z by lia.
    exact Gf.
Qed.

Lemma grid_start : grid 0 0 0 0 start.
Proof. unfold grid, start. cbn [lonMin lonMax latMin latMax]. repeat split; reflexivity. Qed.

(** [bounds] in closed form. *)
Lemma bounds_at_grid (h : string) (x y : Z) :
  valid_geohash h = true -> lng_of h = IInt x -> lat_of h = IInt y ->
  exists c, bounds h = Return c /\ at_grid (side h) x y c.
Proof.
  intros Hv Ex Ey. destruct (valid_geohash_inv h Hv) as [Hl Hh].
  destruct (coordinates h Hv) as [x0 [y0 [Rx [Ry [Es [Ex0 [Ey0 _]]]]]]].
  rewrite Ex in Ex0. injection Ex0 as <-. rewrite Ey in Ey0. injection Ey0 as <-.
  rewrite separate_start in Es.
  destruct (bin_spec _ _ Rx) as [_ [_ Bx]]. destruct (bin_spec _ _ Ry) as [_ [_ By]].
  destruct (bounds_chars_grid h 0 0 0 start Hh exact_start grid_start ltac:(lia))
    as [bf [E [G1 [G2 [G3 G4]]]]].
  rewrite Es in G1, G2, G3, G4. cbn [fst snd] in G1, G2, G3, G4.
  rewrite Bx in G1, G2. rewrite By in G3, G4.
  exists (cell_of bf). split.
  - unfold bounds. destruct (Nat.eqb_spec (String.length h) 0) as [E0|_]; [lia|].
    rewrite (toLowerCase_hex h Hh), E. reflexivity.
  - unfold at_grid, side. cbn [cell_of sw ne lat lon].
    replace (0 + 2 * Z.of_nat (String.length h))%Z
      with (2 * Z.of_nat (String.length h))%Z in G1, G2, G3, G4 by lia.
    rewrite G1, G2, G3, G4. repeat split; ring.
Qed.

(** X13. [bounds] in closed form: the geohashes of a length divide the
    domain, 30 degrees from (6, 68), into square cells, and the cell of a
    geohash is at the column and the row that [adjacent] reads from its
    alternate bits. *)
Theorem X13_bounds_closed_form (h : string) (x y : Z) :
  valid_geohash h = true -> lng_of h = IInt x -> lat_of h = IInt y ->
  exists c, bounds h = Return c /\
    lon (sw c) == 68 + inject_Z x * side h /\
    lon (ne c) == 68 + (inject_Z x + 1) * side h /\
    lat (sw c) == 6 + inject_Z y * side h /\
    lat (ne c) == 6 + (inject_Z y + 1) * side h.
Proof. intros Hv Ex Ey. exact (bounds_at_grid h x y Hv Ex Ey). Qed.

Lemma X13_bounds_closed_form_witness :
  exists c, bounds "3d3d" = Return c /\
    lon (sw c) == 68 + inject_Z 102 * side "3d3d" /\
    lon (ne c) == 68 + (inject_Z 102 + 1) * side "3d3d" /\
    lat (sw c) == 6 + inject_Z 119 * side "3d3d" /\
    lat (ne c) == 6 + (inject_Z 119 + 1) * side "3d3d".
Proof. apply (X13_bounds_closed_form "3d3d" 102 119); vm_compute; reflexivity. Defined.

Lemma side_pos (h : string) : 0 < side h.
Proof.
  unfold side. pose proof (pow2_pos (- (2 * Z.of_nat (String.length h)))). lra.
Qed.

(** The cell of the result of a move is the cell of the argument, one side
    further in the direction of the move. *)
Lemma adjacent_cell (h : string) (d : direction) :
  valid_geohash h = true -> can_go h d = true ->
  exists c c',
    bounds h = Return c /\ bounds (adjacent h d) = Return c' /\
    valid_geohash (adjacent h d) = true /\
    String.length (adjacent h d) = String.length h /\
    lon (sw c') == lon (sw c) + inject_Z (east d) * side h /\
    lon (ne c') == lon (ne c) + inject_Z (east d) * side h /\
    lat (sw c') == lat (sw c) + inject_Z (north d) * side h /\
    lat (ne c') == lat (ne c) + inject_Z (north d) * side h.
Proof.
  intros Hv Hc.
  destruct (adjacent_valid h d Hv Hc) as [x [y [Ex [Ey [Hv1 [Hl1 [Ex1 Ey1]]]]]]].
  destruct (bounds_at_grid h x y Hv Ex Ey) as [c [Hb [A1 [A2 [A3 A4]]]]].
  destruct (bounds_at_grid _ _ _ Hv1 Ex1 Ey1) as [c' [Hb' [B1 [B2 [B3 B4]]]]].
  assert (Hs : side (adjacent h d) = side h) by (unfold side; rewrite Hl1; reflexivity).
  rewrite Hs in B1, B2, B3, B4.
  exists c, c'. split; [exact Hb|]. split; [exact Hb'|].
  split; [exact Hv1|]. split; [exact Hl1|].
  rewrite A1, A2, A3, A4, B1, B2, B3, B4.
  destruct d; cbn [moved east north fst snd]; unfold Z.sub; cbn [Z.opp];
    rewrite ?inject_Z_plus;
    change (inject_Z 1) with 1; change (inject_Z 0) with 0;
    change (inject_Z (-1)) with (-1 # 1);
    (split; [|split; [|split]]); ring.
Qed.

(** X14. A move that stays in the domain translates the cell by its own
    side: [bounds] of the result of [adjacent] is [bounds] of the argument
    moved one side east, west, north or south. *)
Theorem X14_adjacent_translates_cell (h : string) (d : direction) :
  valid_geohash h = true -> can_go h d = true ->
  exists c c',
    bounds h = Return c /\ bounds (adjacent h d) = Return c' /\
    lon (sw c') == lon (sw c) + inject_Z (east d) * side h /\
    lon (ne c') == lon (ne c) + inject_Z (east d) * side h /\
    lat (sw c') == lat (sw c) + inject_Z (north d) * side h /\
    lat (ne c') == lat (ne c) + inject_Z (north d) * side h.
Proof.
  intros Hv Hc.
  destruct (adjacent_cell h d Hv Hc) as [c [c' [H1 [H2 [_ [_ H3]]]]]].
  exists c, c'. auto.
Qed.

Lemma X14_adjacent_translates_cell_witness :
  exists c c',
    bounds "3d3d" = Return c /\ bounds (adjacent "3d3d" East) = Return c' /\
    lon (sw c') == lon (sw c) + inject_Z (east East) * side "3d3d" /\
    lon (ne c') == lon (ne c) + inject_Z (east East) * side "3d3d" /\
    lat (sw c') == lat (sw c) + inject_Z (north East) * side "3d3d" /\
    lat (ne c') == lat (ne c) + inject_Z (north East) * side "3d3d".
Proof.
  apply (X14_adjacent_translates_cell "3d3d" East); vm_compute; reflexivity.
Defined.

(** X15. [encode] agrees with [adjacent]: a point of the cell of [h], moved
    by one side of the cell in a direction that stays in the domain, is
    encoded as [adjacent] of [h] in that direction. *)
Theorem X15_encode_of_moved_point (h : string) (d : direction) (c : cell) (y x : Q) :
  valid_geohash h = true -> can_go h d = true -> bounds h = Return c ->
  lat (sw c) < y -> y <= lat (ne c) -> lon (sw c) < x -> x <= lon (ne c) ->
  encode (Fin (y + inject_Z (north d) * side h)) (Fin (x + inject_Z (east d) * side h))
         (Some (Fin (inject_Z (Z.of_nat (String.length h))))) =
  Return (adjacent h d).
Proof.
  intros Hv Hc Hb Y1 Y2 X1 X2.
  destruct (adjacent_cell h d Hv Hc) as [c0 [c' [H1 [H2 [Hv1 [Hl1 [A1 [A2 [A3 A4]]]]]]]]].
  rewrite Hb in H1. injection H1 as <-.
  rewrite <- Hl1.
  apply (encode_in_cell _ _ (adjacent h d) c' Hv1 H2).
  - rewrite A3. lra.
  - rewrite A4. lra.
  - rewrite A1. lra.
  - rewrite A2. lra.
Qed.

Lemma X15_encode_of_moved_point_witness :
  encode (Fin (20 + inject_Z (north East) * side "3d3d"))
         (Fin (80 + inject_Z (east East) * side "3d3d"))
         (Some (Fin (inject_Z (Z.of_nat (String.length "3d3d"))))) =
  Return (adjacent "3d3d" East).
Proof.
  apply (X15_encode_of_moved_point "3d3d" East
           {| sw := {| lat := 2553 # 128; lon := 5117 # 64 |};
              ne := {| lat := 321 # 16; lon := 10249 # 128 |} |} 20 80);
    try (vm_compute; reflexivity); unfold Qle; cbn; lia.
Defined.

(** *** Cells and geohashes correspond one to one *)

Lemma pow2_lt (a b : Z) : (a < b)%Z -> 2 ^ a < 2 ^ b.
Proof.
  intros H. replace b with (a + (b - a))%Z by ring.
  rewrite Qpower_plus by discriminate.
  rewrite <- (pow2_inject (b - a)) by lia.
  assert (M : (2 <= 2 ^ (b - a))%Z).
  { change 2%Z with (2 ^ 1)%Z at 1. apply Z.pow_le_mono_r; lia. }
  rewrite Zle_Qle in M. change (inject_Z 2) with 2 in M.
  pose proof (pow2_pos a) as P. nra.
Qed.

Lemma side_length (h h' : string) :
  side h == side h' -> String.length h = String.length h'.
Proof.
  unfold side. intros E.
  destruct (Nat.lt_trichotomy (String.length h) (String.length h')) as [L|[L|L]];
    [exfalso|exact L|exfalso].
  - pose proof (pow2_lt (- (2 * Z.of_nat (String.length h')))
                        (- (2 * Z.of_nat (String.length h))) ltac:(lia)). lra.
  - pose proof (pow2_lt (- (2 * Z.of_nat (String.length h)))
                        (- (2 * Z.of_nat (String.length h'))) ltac:(lia)). lra.
Qed.

Lemma at_grid_number (w : Q) (x x' : Z) :
  0 < w -> 68 + inject_Z x * w == 68 + inject_Z x' * w -> x = x'.
Proof.
  intros Hw E. apply (proj1 (inject_Z_injective x x')).
  apply (Qmult_inj_r _ _ w); lra.
Qed.

(** X16. [bounds] tells geohashes apart: two geohashes with the same
    rectangle are the same string, whatever their lengths. *)
Theorem X16_bounds_injective (h h' : string) :
  valid_geohash h = true -> valid_geohash h' = true ->
  bounds h = bounds h' -> h = h'.
Proof.
  intros Hv Hv' E.
  destruct (coordinates h Hv) as [x [y [_ [_ [_ [Ex [Ey _]]]]]]].
  destruct (coordinates h' Hv') as [x' [y' [_ [_ [_ [Ex' [Ey' _]]]]]]].
  destruct (bounds_at_grid h x y Hv Ex Ey) as [c [Hb [A1 [A2 [A3 A4]]]]].
  destruct (bounds_at_grid h' x' y' Hv' Ex' Ey') as [c' [Hb' [B1 [B2 [B3 B4]]]]].
  rewrite Hb, Hb' in E. injection E as <-.
  assert (Hs : side h == side h') by lra.
  pose proof (side_pos h) as Hw.
  apply geohash_determined; try assumption.
  - apply side_length. exact Hs.
  - rewrite Ex, Ex'. f_equal. apply (at_grid_number (side h)); [exact Hw|].
    rewrite <- A1, B1, Hs. reflexivity.
  - rewrite Ey, Ey'. f_equal. apply (at_grid_number (side h)); [exact Hw|].
    assert (G : 6 + inject_Z y * side h == 6 + inject_Z y' * side h).
    { rewrite <- A3, B3, Hs. reflexivity. }
    lra.
Qed.

Lemma X16_bounds_injective_witness : "3d3d" = "3d3d".
Proof. apply (X16_bounds_injective "3d3d" "3d3d"); reflexivity. Defined.

(** *** The cell of a point *)

Lemma half_open_step (y x : Q) (b : bisection) :
  half_open y x b ->
  half_open y x (bounds_bit (bit_of (decision (Fin y) (Fin x) b)) b).
Proof.
  unfold half_open, decision, bounds_bit.
  intros [H1 [H2 [H3 H4]]].
  destruct (evenBit b).
  - destruct (greater (Fin x) _) eqn:G; cbn [bit_of Z.eqb Pos.eqb];
      unfold flip, set_lonMin, set_lonMax; cbn [latMin latMax lonMin lonMax];
      [apply greater_true in G|apply greater_false in G];
      (split; [|split; [|split]]); lra.
  - destruct (greater (Fin y) _) eqn:G; cbn [bit_of Z.eqb Pos.eqb];
      unfold flip, set_latMin, set_latMax; cbn [latMin latMax lonMin lonMax];
      [apply greater_true in G|apply greater_false in G];
      (split; [|split; [|split]]); lra.
Qed.

Lemma half_open_steps (y x : Q) (r : nat) (s : encoder) :
  half_open y x (area s) -> half_open y x (area (steps r (Fin y) (Fin x) s)).
Proof.
  revert s. induction r as [|r IH]; intros s H; cbn [steps]; [exact H|].
  apply IH. rewrite area_step. apply half_open_step. exact H.
Qed.

(** X17. At every whole precision, also where binary64 rounds the
    bisection, a point of the domain off its south and west edges lies in
    the rectangle of its geohash, off the south and west edges of that
    rectangle. *)
Theorem X17_point_in_half_open_cell (y x : Q) (k : nat) :
  (1 <= k)%nat -> 6 < y -> y <= 36 -> 68 < x -> x <= 98 ->
  exists h c,
    encode (Fin y) (Fin x) (Some (Fin (inject_Z (Z.of_nat k)))) = Return h /\
    String.length h = k /\ bounds h = Return c /\
    lat (sw c) < y /\ y <= lat (ne c) /\ lon (sw c) < x /\ x <= lon (ne c).
Proof.
  intros Hk Y1 Y2 X1 X2.
  destruct (encode_then_bounds (Fin y) (Fin x) k eq_refl eq_refl Hk) as [h [E [_ [L B]]]].
  exists h, (cell_of (area (steps (4 * k) (Fin y) (Fin x) encoder_start))).
  split; [exact E|]. split; [exact L|]. split; [exact B|].
  assert (S0 : half_open y x (area encoder_start)).
  { unfold half_open. cbn [encoder_start area start lonMin lonMax latMin latMax].
    repeat split; assumption. }
  destruct (half_open_steps y x (4 * k) encoder_start S0) as [H1 [H2 [H3 H4]]].
  cbn [cell_of sw ne lat lon]. auto.
Qed.

Lemma X17_point_in_half_open_cell_witness :
  exists h c,
    encode (Fin 20) (Fin 80) (Some (Fin (inject_Z (Z.of_nat 30)))) = Return h /\
    String.length h = 30%nat /\ bounds h = Return c /\
    lat (sw c) < 20 /\ 20 <= lat (ne c) /\ lon (sw c) < 80 /\ 80 <= lon (ne c).
Proof.
  apply (X17_point_in_half_open_cell 20 80 30);
    try (vm_compute; reflexivity); try lia; unfold Qle; cbn; lia.
Defined.

(** X18. Which points a geohash stands for: a point of the domain off its
    south and west edges is encoded, at the length of [h], as [h] exactly
    when it lies in the rectangle of [h] off the south and west edges of
    the rectangle. *)
Theorem X18_encode_iff_in_cell (h : string) (c : cell) (y x : Q) :
  valid_geohash h = true -> bounds h = Return c ->
  6 < y -> y <= 36 -> 68 < x -> x <= 98 ->
  (encode (Fin y) (Fin x) (Some (Fin (inject_Z (Z.of_nat (String.length h))))) = Return h
   <-> (lat (sw c) < y /\ y <= lat (ne c) /\ lon (sw c) < x /\ x <= lon (ne c))).
Proof.
  intros Hv Hb Y1 Y2 X1 X2. destruct (valid_geohash_inv h Hv) as [Hl _]. split.
  - intros E.
    destruct (encode_then_bounds (Fin y) (Fin x) (String.length h) eq_refl eq_refl
                ltac:(lia)) as [h' [E' [_ [_ B]]]].
    rewrite E in E'. injection E' as <-. rewrite Hb in B. injection B as ->.
    assert (S0 : half_open y x (area encoder_start)).
    { unfold half_open. cbn [encoder_start area start lonMin lonMax latMin latMax].
      repeat split; assumption. }
    destruct (half_open_steps y x (4 * String.length h) encoder_start S0)
      as [H1 [H2 [H3 H4]]].
    cbn [cell_of sw ne lat lon]. auto.
  - intros [H1 [H2 [H3 H4]]]. apply (encode_in_cell y x h c); assumption.
Qed.

Lemma X18_encode_iff_in_cell_witness :
  encode (Fin 20) (Fin 80) (Some (Fin (inject_Z (Z.of_nat (String.length "3d3d")))))
    = Return "3d3d"
  <-> (2553 # 128 < 20 /\ 20 <= 321 # 16 /\ 5117 # 64 < 80 /\ 80 <= 10249 # 128).
Proof.
  apply (X18_encode_iff_in_cell "3d3d"
           {| sw := {| lat := 2553 # 128; lon := 5117 # 64 |};
              ne := {| lat := 321 # 16; lon := 10249 # 128 |} |} 20 80);
    try (vm_compute; reflexivity); unfold Qle; cbn; lia.
Defined.
End Grid.

(** ** More on [encode], [decode] and the case of the symbols *)

Section Encoding.

Local Open Scope Q_scope.

(** X19. For numbers [lat] and [lon] and a finite precision, [encode]
    returns symbols of the alphabet, as many as the precision rounded up,
    and none when the precision is not positive. *)
Theorem X19_encode_length (lat lon : number) (q : Q) :
  isNaN lat = false -> isNaN lon = false ->
  exists h, encode lat lon (Some (Fin q)) = Return h /\
    all_hex h = true /\ String.length h = Z.to_nat (Qceiling q).
Proof.
  intros H1 H2. cbn [encode]. rewrite (encode_to_finite lat lon q H1 H2).
  destruct (steps_chars lat lon (Z.to_nat (Qceiling q)) encoder_start eq_refl eq_refl)
    as [h [A [B [C _]]]].
  cbn [encoder_start geohash append] in C.
  exists h. rewrite C. auto.
Qed.

Lemma X19_encode_length_witness :
  exists h, encode (Fin 20) (Fin 80) (Some (Fin (5 # 2))) = Return h /\
    all_hex h = true /\ String.length h = Z.to_nat (Qceiling (5 # 2)).
Proof. apply (X19_encode_length (Fin 20) (Fin 80) (5 # 2)); reflexivity. Defined.

Lemma steps_boundary (lat lon : number) (m : nat) (s : encoder) :
  bit s = 0%Z -> idx s = 0%Z ->
  bit (steps (4 * m) lat lon s) = 0%Z /\ idx (steps (4 * m) lat lon s) = 0%Z.
Proof.
  revert s. induction m as [|m IH]; intros s Hb Hi.
  - cbn [Nat.mul steps]. auto.
  - replace (4 * S m)%nat with (4 + 4 * m)%nat by lia. rewrite steps_add.
    destruct (steps_char lat lon s Hb Hi) as [c [_ E]].
    apply IH; rewrite E; reflexivity.
Qed.

Lemma prefix_append (a b : string) : prefix a (a ++ b) = true.
Proof.
  induction a as [|c a IH]; cbn [append prefix]; [destruct b; reflexivity|].
  destruct (ascii_dec c c) as [_|N]; [exact IH|congruence].
Qed.

(** X20. A longer geohash of a point extends the shorter ones: the result
    of [encode] at a precision is a prefix of its result at any larger
    one. *)
Theorem X20_encode_prefix (lat lon : number) (q q' : Q) :
  isNaN lat = false -> isNaN lon = false -> q <= q' ->
  exists h h',
    encode lat lon (Some (Fin q)) = Return h /\
    encode lat lon (Some (Fin q')) = Return h' /\
    prefix h h' = true.
Proof.
  intros H1 H2 Hq. cbn [encode].
  rewrite (encode_to_finite lat lon q H1 H2), (encode_to_finite lat lon q' H1 H2).
  pose proof (Qceiling_resp_le _ _ Hq) as Hc.
  set (m := Z.to_nat (Qceiling q)). set (m' := Z.to_nat (Qceiling q')).
  assert (Hm : (m <= m')%nat) by (unfold m, m'; lia).
  replace (4 * m')%nat with (4 * m + 4 * (m' - m))%nat by lia.
  rewrite steps_add.
  destruct (steps_boundary lat lon m encoder_start eq_refl eq_refl) as [Hb Hi].
  destruct (steps_chars lat lon (m' - m) _ Hb Hi) as [suffix [_ [_ [C _]]]].
  eexists. eexists. split; [reflexivity|]. split; [reflexivity|].
  rewrite C. apply prefix_append.
Qed.

Lemma X20_encode_prefix_witness :
  exists h h',
    encode (Fin 20) (Fin 80) (Some (Fin 2)) = Return h /\
    encode (Fin 20) (Fin 80) (Some (Fin 4)) = Return h' /\
    prefix h h' = true.
Proof.
  apply (X20_encode_prefix (Fin 20) (Fin 80) 2 4); try reflexivity.
  unfold Qle; cbn; lia.
Defined.

Lemma toLowerCase_length (h : string) :
  String.length (toLowerCase h) = String.length h.
Proof. induction h as [|c h IH]; cbn [toLowerCase String.length]; congruence. Qed.

(** X21. [bounds] and [decode] do not look at the case of the letters: on
    two strings that are equal up to the case of their letters each of the
    two gives the same result, rectangle or error. *)
Theorem X21_case_is_ignored (h h' : string) :
  toLowerCase h = toLowerCase h' ->
  bounds h = bounds h' /\ decode h = decode h'.
Proof.
  intros E.
  assert (B : bounds h = bounds h').
  { unfold bounds. rewrite <- (toLowerCase_length h), <- (toLowerCase_length h'), E.
    reflexivity. }
  split; [exact B|]. unfold decode. rewrite B. reflexivity.
Qed.

Lemma X21_case_is_ignored_witness :
  bounds "3D3d" = bounds "3d3D" /\ decode "3D3d" = decode "3d3D".
Proof. apply (X21_case_is_ignored "3D3d" "3d3D"). reflexivity. Defined.

(** X22. For a geohash of one to twelve symbols the rounding of [decode]
    to a few decimals does not leave the cell: the point that [decode]
    returns lies strictly inside the rectangle that [bounds] returns. *)
Theorem X22_decode_inside_bounds (h : string) :
  valid_geohash h = true ->
  exists c p,
    bounds h = Return c /\ decode h = Return p /\
    lat (sw c) < lat p /\ lat p < lat (ne c) /\
    lon (sw c) < lon p /\ lon p < lon (ne c).
Proof. intros Hv. exact (decode_valid h Hv). Qed.

Lemma X22_decode_inside_bounds_witness :
  exists c p,
    bounds "3d3d" = Return c /\ decode "3d3d" = Return p /\
    lat (sw c) < lat p /\ lat p < lat (ne c) /\
    lon (sw c) < lon p /\ lon p < lon (ne c).
Proof. apply (X22_decode_inside_bounds "3d3d"). reflexivity. Defined.
End Encoding.

(** ** Beyond the exact bisections

    After some fifty bits of an axis binary64 rounds the midpoints.  The
    rectangle then stops shrinking, but it neither leaves the domain nor
    turns inside out. *)

Section Floats.

Local Open Scope Q_scope.

Lemma rne_lower (n : Z) (x : Q) : inject_Z n <= x -> (n <= rne x)%Z.
Proof.
  intros H. pose proof (Qfloor_resp_le _ _ H) as F. rewrite Qfloor_Z in F.
  unfold rne. destruct (x - inject_Z (Qfloor x) ?= 1 # 2);
    [destruct (Z.even (Qfloor x))| |]; lia.
Qed.

Lemma rne_upper (n : Z) (x : Q) : x <= inject_Z n -> (rne x <= n)%Z.
Proof.
  intros H. pose proof (Qfloor_le x) as F.
  assert (L : (Qfloor x <= n)%Z) by (rewrite Zle_Qle; lra).
  unfold rne. destruct (Z.eq_dec (Qfloor x) n) as [E|N].
  - assert (C : (x - inject_Z (Qfloor x) ?= 1 # 2) = Lt).
    { apply (proj1 (Qlt_alt _ _)). rewrite E. lra. }
    rewrite C. lia.
  - destruct (x - inject_Z (Qfloor x) ?= 1 # 2);
      [destruct (Z.even (Qfloor x))| |]; lia.
Qed.

Lemma pow2_cancel (s : Z) : 2 ^ s * 2 ^ (- s) == 1.
Proof.
  rewrite <- Qpower_plus by discriminate.
  replace (s + - s)%Z with 0%Z by ring. reflexivity.
Qed.

(** Rounding a positive value: the binade [e] and the significand. *)
Lemma round64_positive (q : Q) :
  0 < q ->
  exists e n : Z,
    2 ^ e <= q /\ q < 2 ^ (e + 1) /\
    n = rne (q * 2 ^ (52 - e)) /\ (2 ^ 52 <= n <= 2 ^ 53)%Z /\
    round64 q == inject_Z n * 2 ^ (- (52 - e)).
Proof.
  intros H0. unfold round64.
  destruct (Qeq_bool (Qred q) 0) eqn:Hz.
  { apply Qeq_bool_iff in Hz. rewrite Qred_correct in Hz. lra. }
  destruct (Qlog2_spec (Qabs (Qred q))) as [L1 L2].
  { rewrite Qred_correct, Qabs_pos by lra. exact H0. }
  set (e := Qlog2 (Qabs (Qred q))) in *.
  rewrite Qred_correct, Qabs_pos in L1, L2 by lra.
  exists e, (rne (q * 2 ^ (52 - e))).
  split; [exact L1|]. split; [exact L2|]. split; [reflexivity|].
  pose proof (pow2_pos (52 - e)) as P.
  assert (T1 : 2 ^ e * 2 ^ (52 - e) == 2 ^ 52).
  { rewrite <- Qpower_plus by discriminate.
    replace (e + (52 - e))%Z with 52%Z by ring. reflexivity. }
  assert (T2 : 2 ^ (e + 1) * 2 ^ (52 - e) == 2 ^ 53).
  { rewrite <- Qpower_plus by discriminate.
    replace (e + 1 + (52 - e))%Z with 53%Z by ring. reflexivity. }
  split; [split|].
  - apply rne_lower. rewrite (pow2_inject 52) by lia. rewrite <- T1.
    apply Qmult_le_compat_r; [exact L1|lra].
  - apply rne_upper. rewrite (pow2_inject 53) by lia. rewrite <- T2.
    apply Qmult_le_compat_r; [lra|lra].
  - rewrite Qred_correct.
    rewrite (rne_comp (Qred q * 2 ^ (52 - e)) (q * 2 ^ (52 - e)))
      by (rewrite Qred_correct; reflexivity).
    reflexivity.
Qed.

(** A representable value below the top of a binade, scaled for it, is
    an integer or lies below the binade. *)
Lemma representable_scaled (f : Q) (e : Z) :
  representable f ->
  (exists N : Z, f * 2 ^ (52 - e) == inject_Z N) \/ f < 2 ^ e.
Proof.
  intros [m [k [Hf Hm]]].
  destruct (Z.le_gt_cases 0 (k + (52 - e))) as [Hks|Hks].
  - left. exists (m * 2 ^ (k + (52 - e)))%Z.
    rewrite Hf, inject_Z_mult, (pow2_inject _ Hks).
    rewrite <- Qmult_assoc, <- Qpower_plus by discriminate. reflexivity.
  - right. rewrite Hf.
    assert (C : inject_Z m < 2 ^ 53).
    { rewrite <- (pow2_inject 53) by lia. rewrite <- Zlt_Qlt. lia. }
    assert (B : 2 ^ 53 * 2 ^ k <= 2 ^ e).
    { rewrite <- Qpower_plus by discriminate.
      apply Qpower_le_compat_l; [lia|discriminate]. }
    pose proof (pow2_pos k) as P.
    set (M := inject_Z m) in *. set (T := 2 ^ k) in *. set (W := 2 ^ 53) in *.
    nra.
Qed.

(** Rounding does not cross a representable value. *)
Lemma round64_above (f q : Q) :
  representable f -> 0 < q -> f <= q -> f <= round64 q.
Proof.
  intros Hf H0 Hle.
  destruct (round64_positive q H0) as [e [n [L1 [L2 [Hn [[N1 N2] ->]]]]]].
  pose proof (pow2_pos (52 - e)) as P. pose proof (pow2_pos (- (52 - e))) as P'.
  pose proof (pow2_cancel (52 - e)) as PC.
  destruct (representable_scaled f e Hf) as [[N HN]|Hlt].
  - assert (A : (N <= n)%Z).
    { rewrite Hn. apply rne_lower. rewrite <- HN.
      apply Qmult_le_compat_r; [exact Hle|lra]. }
    rewrite Zle_Qle in A.
    setoid_replace f with (inject_Z N * 2 ^ (- (52 - e))).
    + apply Qmult_le_compat_r; [exact A|lra].
    + rewrite <- HN. rewrite <- Qmult_assoc, PC. ring.
  - assert (T : 2 ^ e == 2 ^ 52 * 2 ^ (- (52 - e))).
    { rewrite <- Qpower_plus by discriminate.
      replace (52 + - (52 - e))%Z with e by ring. reflexivity. }
    assert (A : 2 ^ 52 <= inject_Z n).
    { rewrite <- (pow2_inject 52) by lia. rewrite <- Zle_Qle. exact N1. }
    assert (B : 2 ^ 52 * 2 ^ (- (52 - e)) <= inject_Z n * 2 ^ (- (52 - e))).
    { apply Qmult_le_compat_r; [exact A|lra]. }
    lra.
Qed.

Lemma round64_below (f q : Q) :
  representable f -> 0 < q -> q <= f -> round64 q <= f.
Proof.
  intros Hf H0 Hle.
  destruct (round64_positive q H0) as [e [n [L1 [L2 [Hn [[N1 N2] ->]]]]]].
  pose proof (pow2_pos (52 - e)) as P. pose proof (pow2_pos (- (52 - e))) as P'.
  pose proof (pow2_cancel (52 - e)) as PC.
  destruct (representable_scaled f e Hf) as [[N HN]|Hlt]; [|lra].
  assert (A : (n <= N)%Z).
  { rewrite Hn. apply rne_upper. rewrite <- HN.
    apply Qmult_le_compat_r; [exact Hle|lra]. }
  rewrite Zle_Qle in A.
  setoid_replace f with (inject_Z N * 2 ^ (- (52 - e))).
  - apply Qmult_le_compat_r; [exact A|lra].
  - rewrite <- HN. rewrite <- Qmult_assoc, PC. ring.
Qed.

Lemma round64_representable (q : Q) : 0 < q -> representable (round64 q).
Proof.
  intros H0.
  destruct (round64_positive q H0) as [e [n [_ [_ [_ [[N1 N2] E]]]]]].
  destruct (Z.eq_dec n (2 ^ 53)) as [T|T].
  - exists 1%Z, (53 + - (52 - e))%Z. split; [|reflexivity].
    rewrite E, T, Qpower_plus by discriminate.
    rewrite (pow2_inject 53) by lia. change (inject_Z 1) with 1. ring.
  - exists n, (- (52 - e))%Z. split; [exact E|lia].
Qed.

Lemma representable_double (a : Q) : representable a -> representable (a + a).
Proof.
  intros [m [k [E Hm]]]. exists m, (k + 1)%Z. split; [|exact Hm].
  rewrite E, pow2_succ. ring.
Qed.

(** The midpoint that the code computes lies between the two ends, however
    close they are. *)
Lemma mid_sound (a b : Q) :
  representable a -> representable b -> 0 < a -> a <= b ->
  a <= fdiv (fadd a b) 2 /\ fdiv (fadd a b) 2 <= b /\
  representable (fdiv (fadd a b) 2).
Proof.
  intros Ra Rb H0 Hle. unfold fdiv, fadd.
  pose proof (round64_above (a + a) (a + b) (representable_double a Ra)
                ltac:(lra) ltac:(lra)) as S1.
  pose proof (round64_below (b + b) (a + b) (representable_double b Rb)
                ltac:(lra) ltac:(lra)) as S2.
  set (S := round64 (a + b)) in *.
  assert (Hh : S / 2 == S * (1 # 2)) by apply Qhalf.
  assert (Hp : 0 < S / 2) by (rewrite Hh; lra).
  split; [|split].
  - apply round64_above; [exact Ra|exact Hp|rewrite Hh; lra].
  - apply round64_below; [exact Rb|exact Hp|rewrite Hh; lra].
  - apply round64_representable. exact Hp.
Qed.

Lemma sound_start : sound start.
Proof.
  unfold sound, start. cbn [lonMin lonMax latMin latMax].
  split; [exists 68%Z, 0%Z; split; reflexivity|].
  split; [exists 98%Z, 0%Z; split; reflexivity|].
  split; [exists 6%Z, 0%Z; split; reflexivity|].
  split; [exists 36%Z, 0%Z; split; reflexivity|].
  repeat split; discriminate.
Qed.

Lemma sound_bit (t : Z) (b : bisection) :
  sound b -> sound (bounds_bit t b) /\ narrows b (bounds_bit t b).
Proof.
  intros [R1 [R2 [R3 [R4 [H1 [H2 [H3 [H4 [H5 H6]]]]]]]]].
  destruct (mid_sound _ _ R1 R2 ltac:(lra) H2) as [X1 [X2 RX]].
  destruct (mid_sound _ _ R3 R4 ltac:(lra) H5) as [Y1 [Y2 RY]].
  unfold bounds_bit, sound, narrows.
  destruct (evenBit b); destruct (t =? 1)%Z;
    unfold flip, set_lonMin, set_lonMax, set_latMin, set_latMax;
    cbn [lonMin lonMax latMin latMax];
    (split; [split; [|split; [|split; [|split]]]|]); try assumption;
    (split; [|split; [|split; [|split; [|split]]]]) || (split; [|split; [|split]]);
    lra.
Qed.

Lemma sound_bits (k : nat) (idx : Z) (b : bisection) :
  sound b -> sound (bounds_bits k idx b) /\ narrows b (bounds_bits k idx b).
Proof.
  revert b. induction k as [|k IH]; intros b Hs; cbn [bounds_bits].
  - split; [exact Hs|apply narrows_refl].
  - destruct (sound_bit (Z.land (Z.shiftr idx (Z.of_nat k)) 1) b Hs) as [S1 N1].
    destruct (IH _ S1) as [S2 N2].
    split; [exact S2|exact (narrows_trans _ _ _ N1 N2)].
Qed.

Lemma sound_chars (h : string) (b bf : bisection) :
  bounds_chars h b = Return bf -> sound b -> sound bf /\ narrows b bf.
Proof.
  revert b. induction h as [|c h IH]; intros b E Hs; cbn [bounds_chars] in E.
  - injection E as <-. split; [exact Hs|apply narrows_refl].
  - destruct (indexOf base16 c =? -1)%Z; [discriminate E|].
    destruct (sound_bits 4 (indexOf base16 c) b Hs) as [S1 N1].
    destruct (IH _ E S1) as [S2 N2].
    split; [exact S2|exact (narrows_trans _ _ _ N1 N2)].
Qed.

Lemma toLowerCase_app (a b : string) :
  toLowerCase (a ++ b) = (toLowerCase a ++ toLowerCase b)%string.
Proof. induction a as [|c a IH]; cbn [append toLowerCase]; congruence. Qed.

(** X23. Whatever the length of the string, [bounds] never leaves the
    domain and never turns the rectangle inside out: for every string that
    it accepts the corners are in order, south-west first, between (6, 68)
    and (36, 98). *)
Theorem X23_bounds_in_domain (h : string) (c : cell) :
  bounds h = Return c ->
  6 <= lat (sw c) /\ lat (sw c) <= lat (ne c) /\ lat (ne c) <= 36 /\
  68 <= lon (sw c) /\ lon (sw c) <= lon (ne c) /\ lon (ne c) <= 98.
Proof.
  unfold bounds. destruct (String.length h =? 0)%nat; [discriminate|].
  destruct (bounds_chars (toLowerCase h) start) as [bf| |] eqn:E;
    cbn [bind]; intros H; try discriminate H.
  injection H as <-. cbn [sw ne lat lon].
  destruct (sound_chars _ _ _ E sound_start) as [[_ [_ [_ [_ S]]]] _].
  lra.
Qed.

Lemma X23_bounds_in_domain_witness :
  6 <= 36 /\ 36 <= 36 /\ 36 <= 36 /\ 68 <= 98 /\ 98 <= 98 /\ 98 <= 98.
Proof.
  apply (X23_bounds_in_domain "ffffffffffffffffffffffffffffffffffffffff"
           {| sw := {| lat := 36; lon := 98 |}; ne := {| lat := 36; lon := 98 |} |}).
  vm_compute. reflexivity.
Defined.

(** X24. A longer string never widens the rectangle, whatever the lengths:
    when [bounds] accepts a string it accepts each of its non-empty
    prefixes, and the rectangle of the string lies within the rectangle of
    the prefix. *)
Theorem X24_bounds_nest (h1 h2 : string) (c : cell) :
  h1 <> EmptyString -> bounds (h1 ++ h2) = Return c ->
  exists p, bounds h1 = Return p /\ within c p.
Proof.
  intros Hn. unfold bounds.
  rewrite length_app, toLowerCase_app, bounds_chars_app.
  destruct h1 as [|a h1]; [congruence|]. cbn [String.length Nat.add Nat.eqb].
  destruct (bounds_chars (toLowerCase (String a h1)) start) as [b1| |] eqn:E1;
    cbn [bind]; try discriminate.
  destruct (bounds_chars (toLowerCase h2) b1) as [bf| |] eqn:E2;
    cbn [bind]; intros H; try discriminate H.
  injection H as <-. eexists. split; [reflexivity|].
  destruct (sound_chars _ _ _ E1 sound_start) as [S1 _].
  destruct (sound_chars _ _ _ E2 S1) as [_ [N1 [N2 [N3 N4]]]].
  unfold within. cbn [sw ne lat lon]. auto.
Qed.

Lemma X24_bounds_nest_witness :
  exists p, bounds "3d" = Return p /\
    within {| sw := {| lat := 2553 # 128; lon := 5117 # 64 |};
              ne := {| lat := 321 # 16; lon := 10249 # 128 |} |} p.
Proof.
  apply (X24_bounds_nest "3d" "3d"); [discriminate|reflexivity].
Defined.
End Floats.

(** ** Points outside the domain, and the geohash of a point in numbers *)

Section Points.

Local Open Scope Q_scope.

Lemma greater_clamp (lo hi mid : Q) (v : number) :
  lo < mid -> mid < hi -> greater (clamp lo hi v) mid = greater v mid.
Proof.
  intros H1 H2. destruct v as [|negative|q]; cbn [clamp greater].
  - reflexivity.
  - destruct negative; cbn [negb].
    + apply negb_false_iff, Qle_bool_iff. lra.
    + apply negb_true_iff. destruct (Qle_bool hi mid) eqn:E; [|reflexivity].
      apply Qle_bool_iff in E. lra.
  - destruct (Qle_bool q lo) eqn:E1.
    + apply Qle_bool_iff in E1. f_equal.
      transitivity true; [|symmetry]; apply Qle_bool_iff; lra.
    + destruct (Qle_bool hi q) eqn:E2; [|reflexivity].
      apply Qle_bool_iff in E2. f_equal.
      destruct (Qle_bool hi mid) eqn:E3; [apply Qle_bool_iff in E3; lra|].
      destruct (Qle_bool q mid) eqn:E4; [apply Qle_bool_iff in E4; lra|reflexivity].
Qed.

Lemma decision_clamp (lat lon : number) (kx ky : Z) (b : bisection) :
  exact kx ky b -> (kx <= 40)%Z ->
  decision (clamp 6 36 lat) (clamp 68 98 lon) b = decision lat lon b.
Proof.
  intros He Hk. pose proof (exact_bounds _ _ _ He) as Hb.
  destruct He as [Hx [Hy [H0 _]]]. unfold decision.
  destruct (evenBit b).
  - destruct (axis_mid _ _ _ _ Hx ltac:(lra) ltac:(lra) ltac:(lia)) as [M1 M2].
    destruct Hx as [_ [_ [A1 [A2 _]]]]. apply greater_clamp; lra.
  - destruct (axis_mid _ _ _ _ Hy ltac:(lra) ltac:(lra) ltac:(lia)) as [M1 M2].
    destruct Hy as [_ [_ [A1 [A2 _]]]]. apply greater_clamp; lra.
Qed.

Lemma steps_clamp (lat lon : number) (r : nat) (kx ky : Z) (s : encoder) :
  exact kx ky (area s) -> (kx + ky + Z.of_nat r <= 80)%Z ->
  steps r (clamp 6 36 lat) (clamp 68 98 lon) s = steps r lat lon s.
Proof.
  revert kx ky s. induction r as [|r IH]; intros kx ky s He Hr; cbn [steps]; [reflexivity|].
  pose proof (exact_bounds _ _ _ He) as Hb.
  assert (E : encode_step (clamp 6 36 lat) (clamp 68 98 lon) s = encode_step lat lon s).
  { rewrite !encode_step_eq. cbv zeta.
    rewrite (decision_clamp lat lon kx ky (area s) He ltac:(lia)). reflexivity. }
  rewrite E.
  destruct (bounds_bit_exact (bit_of (decision lat lon (area s))) kx ky (area s) He
              ltac:(lia)) as [He1 _].
  rewrite <- area_step in He1.
  apply (IH _ _ _ He1). destruct (evenBit (area s)); lia.
Qed.

Lemma isNaN_clamp (lo hi : Q) (v : number) : isNaN (clamp lo hi v) = isNaN v.
Proof. destruct v; reflexivity. Qed.

(** X25. Up to precision 12, [encode] takes a point outside the domain for
    the nearest point of the domain: coordinates below 6 and 68 count as 6
    and 68, coordinates above 36 and 98, and the infinities, as these
    bounds. *)
Theorem X25_encode_clamps (lat lon : number) (q : Q) :
  (Qceiling q <= 12)%Z ->
  encode lat lon (Some (Fin q)) =
  encode (clamp 6 36 lat) (clamp 68 98 lon) (Some (Fin q)).
Proof.
  intros Hq. cbn [encode].
  destruct (isNaN lat) eqn:N1.
  { unfold encode_to. rewrite isNaN_clamp, N1. reflexivity. }
  destruct (isNaN lon) eqn:N2.
  { unfold encode_to. rewrite !isNaN_clamp, N1, N2. reflexivity. }
  rewrite (encode_to_finite lat lon q N1 N2).
  rewrite (encode_to_finite _ _ q); [|rewrite isNaN_clamp; assumption..].
  rewrite (steps_clamp lat lon _ 0 0 encoder_start exact_start); [reflexivity|].
  lia.
Qed.

Lemma X25_encode_clamps_witness :
  encode (Fin 100) (Inf true) (Some (Fin 4)) =
  encode (clamp 6 36 (Fin 100)) (clamp 68 98 (Inf true)) (Some (Fin 4)).
Proof. apply (X25_encode_clamps (Fin 100) (Inf true) 4). vm_compute. discriminate. Defined.

Lemma valid_of_length (h : string) (k : nat) :
  all_hex h = true -> String.length h = k -> (1 <= k <= 12)%nat ->
  valid_geohash h = true.
Proof.
  intros A L Hk. unfold valid_geohash. rewrite A, L.
  destruct (Nat.leb_spec 1 k); [|lia]. destruct (Nat.leb_spec k 12); [reflexivity|lia].
Qed.

(** X26. Without a precision, [encode] of two numbers returns a geohash of
    one to twelve symbols; when it has fewer than twelve, [decode] gives
    back exactly the two numbers. *)
Theorem X26_inferred_hash_decodes (lat lon : number) :
  isNaN lat = false -> isNaN lon = false ->
  exists h, encode lat lon None = Return h /\ valid_geohash h = true /\
    ((String.length h < 12)%nat ->
     exists p, decode h = Return p /\
       equal (Geohash.lat p) lat = true /\ equal (Geohash.lon p) lon = true).
Proof.
  intros H1 H2. cbn [encode].
  destruct (encode_infer_spec lat lon 12 1 H1 H2 ltac:(lia) ltac:(lia))
    as [[p [hash [R1 [[hash' [posn [M1 [M2 [M3 M4]]]]] [_ [R4 R5]]]]]]|[_ R2]].
  - rewrite R5. cbn [bind]. exists hash. split; [reflexivity|].
    destruct (encode_then_bounds lat lon (Z.to_nat p) H1 H2 ltac:(lia))
      as [h0 [E [A [L _]]]].
    rewrite Z2Nat.id in E by lia. cbn [encode] in E, M1.
    rewrite R4 in E. injection E as <-. rewrite R4 in M1. injection M1 as <-.
    split; [apply (valid_of_length hash (Z.to_nat p) A L); lia|].
    intros _. exists posn. auto.
  - rewrite R2. cbn [bind].
    destruct (encode_then_bounds lat lon 12 H1 H2 ltac:(lia)) as [h0 [E [A [L _]]]].
    cbn [encode] in E. change (inject_Z (Z.of_nat 12)) with 12 in E.
    exists h0. split; [exact E|].
    split; [apply (valid_of_length h0 12 A L); lia|]. intros Hl. lia.
Qed.

Lemma X26_inferred_hash_decodes_witness :
  exists h, encode (Fin 20) (Fin 80) None = Return h /\ valid_geohash h = true /\
    ((String.length h < 12)%nat ->
     exists p, decode h = Return p /\
       equal (Geohash.lat p) (Fin 20) = true /\ equal (Geohash.lon p) (Fin 80) = true).
Proof. apply (X26_inferred_hash_decodes (Fin 20) (Fin 80)); reflexivity. Defined.

Lemma ceiling_between (q : Q) (n : Z) :
  inject_Z n < q -> q <= inject_Z n + 1 -> (Qceiling q - 1)%Z = n.
Proof.
  intros H1 H2. pose proof (Qle_ceiling q) as C1. pose proof (Qceiling_lt q) as C2.
  assert (A : inject_Z n < inject_Z (Qceiling q)) by lra.
  assert (B : inject_Z (Qceiling q - 1) < inject_Z (n + 1)).
  { rewrite inject_Z_plus. change (inject_Z 1) with 1. lra. }
  rewrite <- Zlt_Qlt in A, B. lia.
Qed.

Lemma column_of (w v lo : Q) (n : Z) :
  0 < w -> lo + inject_Z n * w < v -> v <= lo + (inject_Z n + 1) * w ->
  (Qceiling ((v - lo) / w) - 1)%Z = n.
Proof.
  intros Hw H1 H2. apply ceiling_between.
  - apply Qlt_shift_div_l; [exact Hw|lra].
  - apply Qle_shift_div_r; [exact Hw|lra].
Qed.

(** X27. The geohash of a point in numbers: for a precision from 1 to 12
    and a point of the domain off its south and west edges, the column and
    the row that [adjacent] reads from the result of [encode] are the
    distances of the point from the west and the south edge, in sides of a
    cell, rounded up, less one. *)
Theorem X27_encode_coordinates (k : nat) (y x : Q) :
  (1 <= k <= 12)%nat -> 6 < y -> y <= 36 -> 68 < x -> x <= 98 ->
  exists h,
    encode (Fin y) (Fin x) (Some (Fin (inject_Z (Z.of_nat k)))) = Return h /\
    lng_of h = IInt (Qceiling ((x - 68) / side h) - 1) /\
    lat_of h = IInt (Qceiling ((y - 6) / side h) - 1).
Proof.
  intros Hk Y1 Y2 X1 X2.
  destruct (encode_then_bounds (Fin y) (Fin x) k eq_refl eq_refl ltac:(lia))
    as [h [E [A [L B]]]].
  exists h. split; [exact E|].
  pose proof (valid_of_length h k A L Hk) as Hv.
  destruct (coordinates h Hv) as [x0 [y0 [_ [_ [_ [Ex [Ey _]]]]]]].
  destruct (bounds_at_grid h x0 y0 Hv Ex Ey) as [c [Hb [G1 [G2 [G3 G4]]]]].
  assert (S0 : half_open y x (area encoder_start)).
  { unfold half_open. cbn [encoder_start area start lonMin lonMax latMin latMax].
    repeat split; assumption. }
  destruct (half_open_steps y x (4 * k) encoder_start S0) as [P1 [P2 [P3 P4]]].
  set (bf := area (steps (4 * k) (Fin y) (Fin x) encoder_start)) in *.
  rewrite B in Hb. injection Hb as <-. cbn [cell_of sw ne Geohash.lat Geohash.lon] in *.
  pose proof (side_pos h) as Hw.
  rewrite Ex, Ey. split; f_equal; symmetry.
  - apply column_of; [exact Hw| |]; lra.
  - apply column_of; [exact Hw| |]; lra.
Qed.

Lemma X27_encode_coordinates_witness :
  exists h,
    encode (Fin 20) (Fin 80) (Some (Fin (inject_Z (Z.of_nat 4)))) = Return h /\
    lng_of h = IInt (Qceiling ((80 - 68) / side h) - 1) /\
    lat_of h = IInt (Qceiling ((20 - 6) / side h) - 1).
Proof.
  apply (X27_encode_coordinates 4 20 80); try lia; try reflexivity;
    unfold Qle; cbn; lia.
Defined.
End Points.

(** ** The entries of [neighbours] on the edges, and the way there and back *)

Section Edges.

Local Open Scope Q_scope.











(** X29. There and back: for a precision from 1 to 12 and a point of the
    domain, edges included, [decode] of [encode] of the point is less than
    one side of a cell away from it, in latitude and in longitude. *)
Theorem X29_decode_of_encode_near (k : nat) (y x : Q) :
  (1 <= k <= 12)%nat -> 6 <= y -> y <= 36 -> 68 <= x -> x <= 98 ->
  exists h p,
    encode (Fin y) (Fin x) (Some (Fin (inject_Z (Z.of_nat k)))) = Return h /\
    decode h = Return p /\
    Qabs (lat p - y) < side h /\ Qabs (lon p - x) < side h.
Proof.
  intros Hk Y1 Y2 X1 X2.
  destruct (encode_then_bounds (Fin y) (Fin x) k eq_refl eq_refl ltac:(lia))
    as [h [E [A [L B]]]].
  pose proof (valid_of_length h k A L Hk) as Hv.
  destruct (decode_valid h Hv) as [c [p [Hb [Hd [D1 [D2 [D3 D4]]]]]]].
  destruct (coordinates h Hv) as [x0 [y0 [_ [_ [_ [Ex [Ey _]]]]]]].
  destruct (bounds_at_grid h x0 y0 Hv Ex Ey) as [c' [Hb' [G1 [G2 [G3 G4]]]]].
  rewrite Hb in Hb'. injection Hb' as <-.
  assert (S0 : contains (cell_of (area encoder_start)) y x).
  { unfold contains. cbn. lra. }
  pose proof (contains_steps y x (4 * k) encoder_start S0) as [[P1 P2] [P3 P4]].
  set (bf := area (steps (4 * k) (Fin y) (Fin x) encoder_start)) in *.
  rewrite B in Hb. injection Hb as <-. cbn [cell_of sw ne lat lon] in *.
  exists h, p. split; [exact E|]. split; [exact Hd|].
  split; apply Qabs_case; intros _; lra.
Qed.

Lemma X29_decode_of_encode_near_witness :
  exists h p,
    encode (Fin 6) (Fin 98) (Some (Fin (inject_Z (Z.of_nat 4)))) = Return h /\
    decode h = Return p /\
    Qabs (lat p - 6) < side h /\ Qabs (lon p - 98) < side h.
Proof.
  apply (X29_decode_of_encode_near 4 6 98); try lia; unfold Qle; cbn; lia.
Defined.
End Edges.
